(** * Rarity engine: quota-driven tier and variant selection

    A shallow embedding of [src/utils/rarityEngine.js] (class [RarityEngine]),
    of the structural check of [RarityConfigLoader] and of the two methods of
    [MetadataGenerator] that read nothing but their argument
    ([calculateOverallScore], [validateMetadata]), followed by the properties
    of the allocation algorithm.

    Conventions of the embedding.
    - A JavaScript number is an integer of [Z] wherever the configuration
      stores one (quota, points, score bounds, collection size).  The
      arithmetic of the weighted draw is done in IEEE 754 double precision,
      as the code does it: [Double] gives the value of a double as a
      rational and rounds every product, sum and difference to the nearest
      double, ties to even, with overflow to an infinity.  The two zeros of
      IEEE 754 are one value here: the engine only multiplies, adds,
      subtracts, floors and compares with [<= 0], which do not tell them
      apart.  [seededRandom] returns the exact quotient [rngSeed / 233280];
      the number the selectors multiply is its nearest double.
    - The engine object is a record; a method is a computation of the monad
      [M], which threads the engine and the console and in which a thrown
      exception keeps the state reached so far, as in JavaScript.
    - [validateConfig] inspects an arbitrary JSON document, so it is written
      over [JS.Value]; every other method works on documents of the schema
      ([Config]), whose JSON form is [toJSON].
    - An entry of [selectedVariants] holds the variant as it is when it is
      selected. *)

From Stdlib Require Import QArith Qround Qpower Qabs Lqa SpecFloat.
From stdpp Require Import strings gmap list pretty.

Open Scope Z_scope.
Set Warnings "-register-all".

(** ** Double-precision numbers

    A double is a rational of the binary64 format or one of the three
    special values.  [round] is rounding to nearest, ties to even: the
    result of every arithmetic operation of IEEE 754 is the rounding of the
    exact result. *)

Module Double.

Inductive t : Type :=
| Finite (q : Q)
| PosInf
| NegInf
| NaN.

Definition pow2 (e : Z) : Q := Qpower 2 e.

(** [floor (log2 |q|)], for [q] other than 0. *)
Definition ilog2 (q : Q) : Z :=
  let l := Z.log2 (Z.abs (Qnum q)) - Z.log2 (Zpos (Qden q)) in
  if Qle_bool (pow2 l) (Qabs q) then l else l - 1.

(** The nearest integer, the even one of two that are equally near. *)
Definition rne (q : Q) : Z :=
  let f := Qfloor q in
  match (q - inject_Z f ?= 1 # 2)%Q with
  | Lt => f
  | Gt => f + 1
  | Eq => if Z.even f then f else f + 1
  end.

(** The exponent of the last place of the doubles around [q]: 53 bits of
    precision, and the subnormal spacing [2^-1074] at the bottom. *)
Definition exponent (q : Q) : Z := Z.max (ilog2 q - 52) (-1074).

Definition nearest (q : Q) : Q :=
  if Qeq_bool q 0 then 0%Q
  else Qred (inject_Z (rne (q / pow2 (exponent q))) * pow2 (exponent q)).

Definition round (q : Q) : t :=
  let v := nearest (Qred q) in
  if Qle_bool (pow2 1024) v then PosInf
  else if Qle_bool v (- pow2 1024) then NegInf
  else Finite v.

(** The number a JSON integer parses to. *)
Definition ofZ (z : Z) : t := round (inject_Z z).

Definition sign (q : Q) : comparison := (q ?= 0)%Q.

(** [x * y] *)
Definition mul (x y : t) : t :=
  match x, y with
  | NaN, _ | _, NaN => NaN
  | Finite a, Finite b => round (a * b)
  | Finite a, PosInf | PosInf, Finite a =>
      match sign a with Eq => NaN | Gt => PosInf | Lt => NegInf end
  | Finite a, NegInf | NegInf, Finite a =>
      match sign a with Eq => NaN | Gt => NegInf | Lt => PosInf end
  | PosInf, PosInf | NegInf, NegInf => PosInf
  | PosInf, NegInf | NegInf, PosInf => NegInf
  end.

(** [x + y] *)
Definition add (x y : t) : t :=
  match x, y with
  | NaN, _ | _, NaN => NaN
  | Finite a, Finite b => round (a + b)
  | PosInf, NegInf | NegInf, PosInf => NaN
  | PosInf, _ | _, PosInf => PosInf
  | NegInf, _ | _, NegInf => NegInf
  end.

(** [x - y] *)
Definition sub (x y : t) : t :=
  match x, y with
  | NaN, _ | _, NaN => NaN
  | Finite a, Finite b => round (a - b)
  | PosInf, PosInf | NegInf, NegInf => NaN
  | PosInf, _ | _, NegInf => PosInf
  | NegInf, _ | _, PosInf => NegInf
  end.

(** [Math.floor(x)] *)
Definition floor (x : t) : t :=
  match x with
  | Finite q => Finite (inject_Z (Qfloor q))
  | _ => x
  end.

(** [x <= y]; false when either is [NaN]. *)
Definition leb (x y : t) : bool :=
  match x, y with
  | NaN, _ | _, NaN => false
  | Finite a, Finite b => Qle_bool a b
  | NegInf, _ | _, PosInf => true
  | _, _ => false
  end.

Definition zero : t := Finite 0.

(** A rational of the binary64 format: at most 53 significant bits above
    the subnormal spacing. *)
Definition representable (y : Q) : Prop :=
  exists m e : Z, (y == inject_Z m * pow2 e)%Q /\ Z.abs m < 2 ^ 53 /\ -1074 <= e.

(** [x <= y] and [y <= x] for a double [x] and a rational [y]. *)
Definition atMost (x : t) (y : Q) : Prop :=
  match x with
  | Finite v => (v <= y)%Q
  | NegInf => True
  | _ => False
  end.

Definition atLeast (x : t) (y : Q) : Prop :=
  match x with
  | Finite v => (y <= v)%Q
  | PosInf => True
  | _ => False
  end.

(** Same double. *)
Definition eqb (x y : t) : bool :=
  match x, y with
  | Finite a, Finite b => Qeq_bool a b
  | PosInf, PosInf | NegInf, NegInf | NaN, NaN => true
  | _, _ => false
  end.

(** The value of a binary64 number of the Standard Library's [SpecFloat],
    the executable specification of IEEE 754 arithmetic, for comparison. *)
Definition ofSpec (f : spec_float) : t :=
  match f with
  | S754_zero _ => Finite 0
  | S754_infinity false => PosInf
  | S754_infinity true => NegInf
  | S754_nan => NaN
  | S754_finite s m e => Finite (Qred ((if s then -1 else 1) * inject_Z (Zpos m) * pow2 e))
  end.

Definition specOfZ (z : Z) : spec_float := binary_normalize 53 1024 z 0 false.

(** The [SpecFloat] number a decimal literal [a / b] denotes. *)
Definition specRatio (a b : Z) : spec_float := SFdiv 53 1024 (specOfZ a) (specOfZ b).

End Double.

(** ** JavaScript values as far as a parsed JSON document has them *)

Module JS.

Inductive Value : Type :=
| Undefined
| Null
| Bool (b : bool)
| Num (n : Z)
| Str (s : string)
| Arr (elements : list Value)
| Obj (fields : list (string * Value)).

(** What [throw] carries: [new Error(message)], or the [TypeError] the
    runtime raises on a property of [null]/[undefined] or on a call of a
    non-function. *)
Inductive Exn : Type :=
| Error (message : string)
| TypeError.

(** [!!v] *)
Definition truthy (v : Value) : bool :=
  match v with
  | Undefined | Null => false
  | Bool b => b
  | Num n => negb (n =? 0)
  | Str s => negb (String.eqb s "")
  | Arr _ | Obj _ => true
  end.

(** [typeof v === 'number'] *)
Definition is_number (v : Value) : bool :=
  match v with Num _ => true | _ => false end.

Fixpoint assoc (k : string) (fields : list (string * Value)) : Value :=
  match fields with
  | [] => Undefined
  | (k', v) :: rest => if String.eqb k k' then v else assoc k rest
  end.

(** [v.k] for the property names the engine reads. *)
Definition prop (v : Value) (k : string) : Exn + Value :=
  match v with
  | Undefined | Null => inl TypeError
  | Obj fields => inr (assoc k fields)
  | Arr l => inr (if String.eqb k "length" then Num (Z.of_nat (length l)) else Undefined)
  | Str s => inr (if String.eqb k "length" then Num (Z.of_nat (String.length s)) else Undefined)
  | Bool _ | Num _ => inr Undefined
  end.

(** [a === b] when [a] is a number. *)
Definition num_strict_eq (a : Z) (b : Value) : bool :=
  match b with Num n => a =? n | _ => false end.

(** [expected.includes(v)] for an array of strings. *)
Definition includes (expected : list string) (v : Value) : bool :=
  match v with
  | Str s => existsb (String.eqb s) expected
  | _ => false
  end.

Definition join (sep : string) (l : list string) : string :=
  match l with
  | [] => ""
  | x :: rest => fold_left (fun acc y => acc +:+ sep +:+ y) rest x
  end.

(** String conversion inside a template literal. *)
Fixpoint toString (v : Value) : string :=
  match v with
  | Undefined => "undefined"
  | Null => "null"
  | Bool true => "true"
  | Bool false => "false"
  | Num n => pretty n
  | Str s => s
  | Arr l =>
      join "," (map (fun x => match x with
                              | Undefined | Null => ""
                              | _ => toString x
                              end) l)
  | Obj _ => "[object Object]"
  end.

End JS.

Export JS(Exn, Error, TypeError).

(** ** Data model *)

Record Tier : Type := mkTier {
  tier_id : string;
  tier_name : string;
  tier_quota : Z;
  tier_scoreRange : Z * Z
}.

Record Variant : Type := mkVariant {
  variant_name : string;
  variant_tier : string;
  variant_points : Z;
  variant_quota : Z
}.

Record Trait : Type := mkTrait {
  trait_trait : string;
  trait_variants : list Variant
}.

Record Config : Type := mkConfig {
  collectionSize : Z;
  tiers : list Tier;
  traits : list Trait
}.

(** An entry [{ trait, variant }] of [selectedVariants]. *)
Record Selected : Type := mkSelected {
  sel_trait : string;
  sel_variant : Variant
}.

Inductive GenerationResult : Type :=
| Success (tierId tierName : string) (score : Z) (variants : list Selected) (attempts : Z)
| Failure (error : string) (attempts : Z).

Definition tierJSON (t : Tier) : JS.Value :=
  JS.Obj [("id", JS.Str (tier_id t)); ("name", JS.Str (tier_name t));
          ("quota", JS.Num (tier_quota t));
          ("scoreRange", JS.Arr [JS.Num (fst (tier_scoreRange t)); JS.Num (snd (tier_scoreRange t))])].

Definition variantJSON (v : Variant) : JS.Value :=
  JS.Obj [("name", JS.Str (variant_name v)); ("tier", JS.Str (variant_tier v));
          ("points", JS.Num (variant_points v)); ("quota", JS.Num (variant_quota v))].

Definition traitJSON (t : Trait) : JS.Value :=
  JS.Obj [("trait", JS.Str (trait_trait t));
          ("variants", JS.Arr (map variantJSON (trait_variants t)))].

Definition toJSON (c : Config) : JS.Value :=
  JS.Obj [("collectionSize", JS.Num (collectionSize c));
          ("tiers", JS.Arr (map tierJSON (tiers c)));
          ("traits", JS.Arr (map traitJSON (traits c)))].

(** ** The engine object and the monad of its methods *)

Record RarityEngine : Type := mkEngine {
  config : option Config;
  remainingTierQuotas : option (list Tier);
  remainingVariantQuotas : option (list Trait);
  rngSeed : Z;
  tierIdToIndex : gmap string nat;
  variantNameToTraitIndex : gmap string nat
}.

Record World : Type := mkWorld {
  this : RarityEngine;
  console : list string
}.

Definition M (A : Type) : Type := World -> (Exn + A) * World.

Definition ret {A} (a : A) : M A := fun w => (inr a, w).

Definition bind {A B} (m : M A) (k : A -> M B) : M B :=
  fun w => match m w with
           | (inl e, w') => (inl e, w')
           | (inr a, w') => k a w'
           end.

Definition throw {A} (e : Exn) : M A := fun w => (inl e, w).

(** [try { m } catch (error) { h error }] *)
Definition try_catch {A} (m : M A) (h : Exn -> M A) : M A :=
  fun w => match m w with
           | (inl e, w') => h e w'
           | (inr a, w') => (inr a, w')
           end.

Definition lift {A} (r : Exn + A) : M A :=
  match r with inl e => throw e | inr a => ret a end.

Definition gets {A} (f : RarityEngine -> A) : M A := fun w => (inr (f (this w)), w).

Definition modify (f : RarityEngine -> RarityEngine) : M unit :=
  fun w => (inr tt, mkWorld (f (this w)) (console w)).

(** [console.warn(line)] *)
Definition warn (line : string) : M unit :=
  fun w => (inr tt, mkWorld (this w) (console w ++ [line])).

Declare Scope js_scope.
Delimit Scope js_scope with js.
Notation "'let*' x ':=' m 'in' k" := (bind m (fun x => k))
  (at level 10, x name, m at level 100, k at level 200) : js_scope.
Open Scope js_scope.

(** A field that is still [null] makes the access a [TypeError]. *)
Definition nonNull {A} (f : RarityEngine -> option A) : M A :=
  let* o := gets f in
  match o with Some a => ret a | None => throw TypeError end.

Definition set_config (c : option Config) (e : RarityEngine) : RarityEngine :=
  mkEngine c (remainingTierQuotas e) (remainingVariantQuotas e) (rngSeed e)
           (tierIdToIndex e) (variantNameToTraitIndex e).

Definition set_remainingTierQuotas (q : option (list Tier)) (e : RarityEngine) : RarityEngine :=
  mkEngine (config e) q (remainingVariantQuotas e) (rngSeed e)
           (tierIdToIndex e) (variantNameToTraitIndex e).

Definition set_remainingVariantQuotas (q : option (list Trait)) (e : RarityEngine) : RarityEngine :=
  mkEngine (config e) (remainingTierQuotas e) q (rngSeed e)
           (tierIdToIndex e) (variantNameToTraitIndex e).

Definition set_rngSeed (s : Z) (e : RarityEngine) : RarityEngine :=
  mkEngine (config e) (remainingTierQuotas e) (remainingVariantQuotas e) s
           (tierIdToIndex e) (variantNameToTraitIndex e).

Definition set_tierIdToIndex (m : gmap string nat) (e : RarityEngine) : RarityEngine :=
  mkEngine (config e) (remainingTierQuotas e) (remainingVariantQuotas e) (rngSeed e)
           m (variantNameToTraitIndex e).

Definition set_variantNameToTraitIndex (m : gmap string nat) (e : RarityEngine) : RarityEngine :=
  mkEngine (config e) (remainingTierQuotas e) (remainingVariantQuotas e) (rngSeed e)
           (tierIdToIndex e) m.

(** ** [RarityEngine] *)

Definition constructor : RarityEngine :=
  {| config := None;
     remainingTierQuotas := None;
     remainingVariantQuotas := None;
     rngSeed := 42;
     tierIdToIndex := ∅;
     variantNameToTraitIndex := ∅ |}.

(** [array.forEach((x, index) => ...)] with the variables the callback
    updates threaded as [acc]; on a value that is not an array the call is a
    [TypeError]. *)
Fixpoint forEach_from {A} (f : JS.Value -> nat -> A -> M A)
    (l : list JS.Value) (index : nat) (acc : A) : M A :=
  match l with
  | [] => ret acc
  | x :: rest => let* acc' := f x index acc in forEach_from f rest (S index) acc'
  end.

Definition forEach {A} (v : JS.Value) (f : JS.Value -> nat -> A -> M A) (acc : A) : M A :=
  match v with
  | JS.Arr l => forEach_from f l 0%nat acc
  | _ => throw TypeError
  end.

Definition number_of (v : JS.Value) : Z :=
  match v with JS.Num n => n | _ => 0 end.

Definition expectedTraitNames : list string :=
  ["socks"; "shoes"; "pants"; "shirt"; "face"; "hat"].

Definition validateTier (tier : JS.Value) (index : nat) (totalTierQuota : Z) : M Z :=
  let* id := lift (JS.prop tier "id") in
  let* scoreRange := lift (JS.prop tier "scoreRange") in
  let* quota := lift (JS.prop tier "quota") in
  if negb (JS.truthy id) || negb (JS.truthy scoreRange) || negb (JS.is_number quota)
  then throw (Error ("Invalid tier at index " +:+ pretty index))
  else ret (totalTierQuota + number_of quota).

Definition validateVariant (traitIndex : nat)
    (variant : JS.Value) (variantIndex : nat) (totalVariantQuota : Z) : M Z :=
  let* name := lift (JS.prop variant "name") in
  let* tier := lift (JS.prop variant "tier") in
  let* points := lift (JS.prop variant "points") in
  let* quota := lift (JS.prop variant "quota") in
  if negb (JS.truthy name) || negb (JS.truthy tier)
     || negb (JS.is_number points) || negb (JS.is_number quota)
  then throw (Error ("Invalid variant at trait " +:+ pretty traitIndex
                     +:+ ", variant " +:+ pretty variantIndex))
  else ret (totalVariantQuota + number_of quota).

Definition validateTrait (collectionSize : JS.Value)
    (trait : JS.Value) (traitIndex : nat) (_ : unit) : M unit :=
  let* name := lift (JS.prop trait "trait") in
  if negb (JS.includes expectedTraitNames name)
  then throw (Error ("Unexpected trait name: " +:+ JS.toString name))
  else
    let* variants := lift (JS.prop trait "variants") in
    let* tooFew :=
      if negb (JS.truthy variants) then ret true
      else let* len := lift (JS.prop variants "length") in
           ret (negb (JS.num_strict_eq 26 len)) in
    if (tooFew : bool)
    then throw (Error ("Trait " +:+ JS.toString name +:+ " must have exactly 26 variants"))
    else
      let* totalVariantQuota := forEach variants (validateVariant traitIndex) 0 in
      if negb (JS.num_strict_eq totalVariantQuota collectionSize)
      then warn ("Warning: trait " +:+ JS.toString name +:+ " total quota = "
                 +:+ pretty totalVariantQuota +:+ ", expected " +:+ JS.toString collectionSize)
      else ret tt.

(** [validateConfig()], with [this.config] as its argument. *)
Definition validateConfig (config : JS.Value) : M unit :=
  let* missing :=
    if negb (JS.truthy config) then ret true
    else let* tiers := lift (JS.prop config "tiers") in
         if negb (JS.truthy tiers) then ret true
         else let* traits := lift (JS.prop config "traits") in
              ret (negb (JS.truthy traits)) in
  if (missing : bool)
  then throw (Error "Invalid rarity config: missing tiers or traits")
  else
    let* tiers := lift (JS.prop config "tiers") in
    let* traits := lift (JS.prop config "traits") in
    let* collectionSize := lift (JS.prop config "collectionSize") in
    let* totalTierQuota := forEach tiers validateTier 0 in
    let* _ :=
      if negb (JS.num_strict_eq totalTierQuota collectionSize)
      then warn ("Warning: total tier quota = " +:+ pretty totalTierQuota
                 +:+ ", expected " +:+ JS.toString collectionSize)
      else ret tt in
    let* len := lift (JS.prop traits "length") in
    if negb (JS.num_strict_eq (Z.of_nat (length expectedTraitNames)) len)
    then throw (Error ("Expected " +:+ pretty (length expectedTraitNames)
                       +:+ " traits, got " +:+ JS.toString len))
    else forEach traits (validateTrait collectionSize) tt.

Definition initializeQuotas : M unit :=
  let* c := nonNull config in
  let* _ := modify (set_remainingTierQuotas (Some (map (fun tier => tier) (tiers c)))) in
  modify (set_remainingVariantQuotas
            (Some (map (fun trait =>
                          {| trait_trait := trait_trait trait;
                             trait_variants := map (fun variant => variant) (trait_variants trait) |})
                       (traits c)))).

(** [this.tierIdToIndex.set(tier.id, index)] for each tier, in order. *)
Fixpoint setTierIndexes (l : list Tier) (index : nat) (m : gmap string nat) : gmap string nat :=
  match l with
  | [] => m
  | tier :: rest => setTierIndexes rest (S index) (<[tier_id tier := index]> m)
  end.

Fixpoint setVariantIndexes (l : list Trait) (traitIndex : nat) (m : gmap string nat)
  : gmap string nat :=
  match l with
  | [] => m
  | trait :: rest =>
      setVariantIndexes rest (S traitIndex)
        (fold_left (fun m variant => <[variant_name variant := traitIndex]> m)
                   (trait_variants trait) m)
  end.

Definition buildLookupMaps : M unit :=
  let* c := nonNull config in
  let* _ := modify (fun e => set_tierIdToIndex (setTierIndexes (tiers c) 0%nat (tierIdToIndex e)) e) in
  modify (fun e => set_variantNameToTraitIndex
                     (setVariantIndexes (traits c) 0%nat (variantNameToTraitIndex e)) e).

Definition loadConfig (configData : Config) : M unit :=
  let* _ := modify (set_config (Some configData)) in
  let* _ := validateConfig (toJSON configData) in
  let* _ := initializeQuotas in
  buildLookupMaps.

(** [seededRandom()]: the linear congruential step, then [rngSeed / 233280].
    The seed stays an integer a double holds exactly; the quotient is
    returned as the exact rational, and the selectors round it to the
    double the code holds where they use it. *)
Definition nextSeed (seed : Z) : Z := Z.rem (seed * 9301 + 49297) 233280.

Definition seededRandom : M Q :=
  let* seed := gets rngSeed in
  let* _ := modify (set_rngSeed (nextSeed seed)) in
  ret (nextSeed seed # 233280).

(** The multipliers of the [switch (tier.id)] of [selectTierWeighted] as the
    source writes them; 1.0 when no case matches. *)
Definition biasMultiplier (id : string) : Q :=
  if String.eqb id "T1" || String.eqb id "T9" then 5 # 10
  else if String.eqb id "T2" || String.eqb id "T8" then 7 # 10
  else if String.eqb id "T3" || String.eqb id "T7" then 12 # 10
  else if String.eqb id "T4" || String.eqb id "T6" then 18 # 10
  else if String.eqb id "T5" then 25 # 10
  else 1.

(** The number a literal such as [0.7] denotes: the double nearest to it. *)
Definition bellCurveMultiplier (id : string) : Double.t :=
  Double.round (biasMultiplier id).

(** [Math.floor(baseWeight * bellCurveMultiplier)] *)
Definition tierWeight (tier : Tier) : Double.t :=
  Double.floor (Double.mul (Double.ofZ (tier_quota tier)) (bellCurveMultiplier (tier_id tier))).

(** [{ ...tier, weight }] as a pair. *)
Definition weightTiers (availableTiers : list Tier) : list (Tier * Double.t) :=
  map (fun tier => (tier, tierWeight tier)) availableTiers.

(** [for (const tier of weightedTiers) { random -= tier.weight; if (random <= 0) return tier.id; }];
    [None] when the loop ends without returning. *)
Fixpoint tierDraw (weightedTiers : list (Tier * Double.t)) (random : Double.t)
  : option string :=
  match weightedTiers with
  | [] => None
  | (tier, weight) :: rest =>
      let random := Double.sub random weight in
      if Double.leb random Double.zero then Some (tier_id tier) else tierDraw rest random
  end.

Definition availableTiersOf (remaining : list Tier) : list Tier :=
  List.filter (fun tier => 0 <? tier_quota tier) remaining.

(** [weightedTiers.reduce((sum, tier) => sum + tier.weight, 0)] *)
Definition totalTierWeight (weightedTiers : list (Tier * Double.t)) : Double.t :=
  fold_left (fun sum tier => Double.add sum (snd tier)) weightedTiers Double.zero.

Definition selectTierWeighted : M string :=
  let* remaining := nonNull remainingTierQuotas in
  let availableTiers := availableTiersOf remaining in
  match availableTiers with
  | [] => throw (Error "No available tiers with remaining quota")
  | first :: _ =>
      let weightedTiers := weightTiers availableTiers in
      let totalWeight := totalTierWeight weightedTiers in
      let* r := seededRandom in
      let random := Double.mul (Double.round r) totalWeight in
      match tierDraw weightedTiers random with
      | Some id => ret id
      | None => ret (tier_id first)
      end
  end.

Definition getTierById (tierId : string) : M Tier :=
  let* c := nonNull config in
  match List.find (fun t => String.eqb (tier_id t) tierId) (tiers c) with
  | Some tier => ret tier
  | None => throw (Error ("Unknown tier ID: " +:+ tierId))
  end.

Definition availableVariantsOf (targetTierId : string) (traitConfig : Trait) : list Variant :=
  List.filter (fun variant => String.eqb (variant_tier variant) targetTierId
                              && (0 <? variant_quota variant))
              (trait_variants traitConfig).

(** [availableVariants.reduce((sum, variant) => sum + variant.quota, 0)] *)
Definition totalVariantWeight (availableVariants : list Variant) : Double.t :=
  fold_left (fun sum variant => Double.add sum (Double.ofZ (variant_quota variant)))
            availableVariants Double.zero.

(** The inner loop of [selectVariantsForTier]; [None] is [selectedVariant]
    still [null] after the loop. *)
Fixpoint variantDraw (availableVariants : list Variant) (random : Double.t)
  : option Variant :=
  match availableVariants with
  | [] => None
  | variant :: rest =>
      let random := Double.sub random (Double.ofZ (variant_quota variant)) in
      if Double.leb random Double.zero then Some variant else variantDraw rest random
  end.

(** The body of [for (const traitConfig of this.remainingVariantQuotas)]. *)
Definition selectVariantForTrait (targetTierId : string) (traitConfig : Trait) : M Selected :=
  let availableVariants := availableVariantsOf targetTierId traitConfig in
  match availableVariants with
  | [] => throw (Error ("No available variants for trait " +:+ trait_trait traitConfig
                        +:+ " in tier " +:+ targetTierId))
  | first :: _ =>
      let totalWeight := totalVariantWeight availableVariants in
      let* r := seededRandom in
      let random := Double.mul (Double.round r) totalWeight in
      let selectedVariant :=
        match variantDraw availableVariants random with
        | Some variant => variant
        | None => first
        end in
      ret {| sel_trait := trait_trait traitConfig; sel_variant := selectedVariant |}
  end.

Fixpoint selectVariantsFrom (targetTierId : string) (remaining : list Trait)
    (selectedVariants : list Selected) : M (list Selected) :=
  match remaining with
  | [] => ret selectedVariants
  | traitConfig :: rest =>
      let* item := selectVariantForTrait targetTierId traitConfig in
      selectVariantsFrom targetTierId rest (selectedVariants ++ [item])
  end.

Definition selectVariantsForTier (targetTierId : string) : M (list Selected) :=
  let* remaining := nonNull remainingVariantQuotas in
  selectVariantsFrom targetTierId remaining [].

Definition calculateScore (selectedVariants : list Selected) : Z :=
  fold_left (fun sum item => sum + variant_points (sel_variant item)) selectedVariants 0.

Definition isScoreInTierRange (score : Z) (tierId : string) : M bool :=
  let* tier := getTierById tierId in
  let '(min, max) := tier_scoreRange tier in
  ret ((min <=? score) && (score <=? max)).

(** [variants.findIndex(v => v.name === name)]; [None] is the index -1. *)
Fixpoint findIndex {A} (p : A -> bool) (l : list A) : option nat :=
  match l with
  | [] => None
  | x :: rest => if p x then Some 0%nat else option_map S (findIndex p rest)
  end.

Definition decTier (tier : Tier) : Tier :=
  {| tier_id := tier_id tier; tier_name := tier_name tier;
     tier_quota := tier_quota tier - 1; tier_scoreRange := tier_scoreRange tier |}.

Definition decVariant (variant : Variant) : Variant :=
  {| variant_name := variant_name variant; variant_tier := variant_tier variant;
     variant_points := variant_points variant; variant_quota := variant_quota variant - 1 |}.

(** The callback of [selectedVariants.forEach] in [decrementQuotas]. *)
Definition decrementVariant (item : Selected) : M unit :=
  let name := variant_name (sel_variant item) in
  let* traitIndex := gets (fun e => variantNameToTraitIndex e !! name) in
  let* remaining := nonNull remainingVariantQuotas in
  match traitIndex ≫= (fun i => option_map (pair i) (remaining !! i)) with
  | None => throw TypeError
  | Some (traitIndex, trait) =>
      match findIndex (fun v => String.eqb (variant_name v) name) (trait_variants trait)
              ≫= (fun j => option_map (pair j) (trait_variants trait !! j)) with
      | None => throw TypeError
      | Some (variantIndex, variant) =>
          modify (set_remainingVariantQuotas
                    (Some (<[traitIndex :=
                               {| trait_trait := trait_trait trait;
                                  trait_variants :=
                                    <[variantIndex := decVariant variant]> (trait_variants trait) |}]>
                             remaining)))
      end
  end.

Fixpoint decrementVariants (selectedVariants : list Selected) : M unit :=
  match selectedVariants with
  | [] => ret tt
  | item :: rest => let* _ := decrementVariant item in decrementVariants rest
  end.

Definition decrementQuotas (tierId : string) (selectedVariants : list Selected) : M unit :=
  let* tierIndex := gets (fun e => tierIdToIndex e !! tierId) in
  let* remaining := nonNull remainingTierQuotas in
  match tierIndex ≫= (fun i => option_map (pair i) (remaining !! i)) with
  | None => throw TypeError
  | Some (tierIndex, tier) =>
      let* _ := modify (set_remainingTierQuotas (Some (<[tierIndex := decTier tier]> remaining))) in
      decrementVariants selectedVariants
  end.

Definition message (error : Exn) : string :=
  match error with
  | Error m => m
  | TypeError => "TypeError"
  end.

(** The [try] block of one iteration: [Some result] when it returns from
    [generateNFT], [None] when it falls through to [attempts++]. *)
Definition attempt (attempts : Z) : M (option GenerationResult) :=
  let* targetTierId := selectTierWeighted in
  let* selectedVariants := selectVariantsForTier targetTierId in
  let totalScore := calculateScore selectedVariants in
  let* inRange := isScoreInTierRange totalScore targetTierId in
  if (inRange : bool) then
    let* _ := decrementQuotas targetTierId selectedVariants in
    let* tierInfo := getTierById targetTierId in
    ret (Some (Success targetTierId (tier_name tierInfo) totalScore selectedVariants
                       (attempts + 1)))
  else ret None.

Definition iteration (attempts : Z) : M (option GenerationResult) :=
  try_catch (attempt attempts)
            (fun error =>
               let* _ := warn ("Generation attempt " +:+ pretty (attempts + 1)
                               +:+ " failed: " +:+ message error) in
               ret None).

Definition failed (maxRetries attempts : Z) : GenerationResult :=
  Failure ("Failed to generate NFT after " +:+ pretty maxRetries +:+ " attempts") attempts.

(** [while (attempts < maxRetries) { ... attempts++ }] followed by the final
    [return]; [fuel] bounds the iterations that are unfolded. *)
Fixpoint generateNFT_loop (fuel : nat) (maxRetries attempts : Z) : M GenerationResult :=
  match fuel with
  | O => ret (failed maxRetries attempts)
  | S fuel' =>
      if attempts <? maxRetries then
        let* r := iteration attempts in
        match r with
        | Some result => ret result
        | None => generateNFT_loop fuel' maxRetries (attempts + 1)
        end
      else ret (failed maxRetries attempts)
  end.

Definition generateNFT (maxRetries : Z) : M GenerationResult :=
  generateNFT_loop (Z.to_nat maxRetries) maxRetries 0.

(** [generateNFT()] with the default [maxRetries = 100]. *)
Definition generateNFT_default : M GenerationResult := generateNFT 100.

(** [getGenerationStatus()] without its [progress] percentage. *)
Record Status : Type := mkStatus {
  totalGenerated : Z;
  totalRemaining : Z;
  status_collectionSize : Z;
  tierStatus : list (string * string * Z * Z)
}.

Fixpoint tierStatusOf (c : Config) (remaining : list Tier) : M (list (string * string * Z * Z)) :=
  match remaining with
  | [] => ret []
  | tier :: rest =>
      match List.find (fun t => String.eqb (tier_id t) (tier_id tier)) (tiers c) with
      | None => throw TypeError
      | Some t =>
          let* others := tierStatusOf c rest in
          ret ((tier_id tier, tier_name tier, tier_quota tier, tier_quota t) :: others)
      end
  end.

Definition getGenerationStatus : M Status :=
  let* remaining := nonNull remainingTierQuotas in
  let totalRemaining := fold_left (fun sum tier => sum + tier_quota tier) remaining 0 in
  let* c := nonNull config in
  let totalGenerated := collectionSize c - totalRemaining in
  let* tierStatus := tierStatusOf c remaining in
  ret {| totalGenerated := totalGenerated; totalRemaining := totalRemaining;
         status_collectionSize := collectionSize c; tierStatus := tierStatus |}.

(** The [for (const trait of this.remainingVariantQuotas)] of
    [validateFinalGeneration]. *)
Fixpoint checkVariantsZero (remaining : list Trait) : M unit :=
  match remaining with
  | [] => ret tt
  | trait :: rest =>
      let nonZeroVariants := List.filter (fun v => 0 <? variant_quota v) (trait_variants trait) in
      if (0 <? Z.of_nat (length nonZeroVariants))
      then throw (Error ("Trait " +:+ trait_trait trait
                         +:+ " has variants with remaining quota: "
                         +:+ JS.join ", " (map variant_name nonZeroVariants)))
      else checkVariantsZero rest
  end.

Definition validateFinalGeneration : M bool :=
  let* status := getGenerationStatus in
  if negb (totalRemaining status =? 0)
  then throw (Error ("Generation incomplete: " +:+ pretty (totalRemaining status)
                     +:+ " NFTs remaining"))
  else
    let* remainingTiers := nonNull remainingTierQuotas in
    let nonZeroTiers := List.filter (fun tier => 0 <? tier_quota tier) remainingTiers in
    if (0 <? Z.of_nat (length nonZeroTiers))
    then throw (Error ("Tiers with remaining quota: "
                       +:+ JS.join ", " (map tier_id nonZeroTiers)))
    else
      let* remainingVariants := nonNull remainingVariantQuotas in
      let* _ := checkVariantsZero remainingVariants in
      ret true.

(** ** [RarityConfigLoader.validateBasicStructure] *)

Definition isArray (v : JS.Value) : bool :=
  match v with JS.Arr _ => true | _ => false end.

Definition arrayLength (v : JS.Value) : Z :=
  match v with JS.Arr l => Z.of_nat (length l) | _ => 0 end.

Definition validateBasicStructure (config : JS.Value) : M unit :=
  let* collectionSize := lift (JS.prop config "collectionSize") in
  if negb (JS.truthy collectionSize) || negb (JS.is_number collectionSize)
  then throw (Error "Invalid collectionSize in rarity config")
  else
    let* tiers := lift (JS.prop config "tiers") in
    if negb (isArray tiers) || (arrayLength tiers =? 0)
    then throw (Error "Invalid or missing tiers in rarity config")
    else
      let* traits := lift (JS.prop config "traits") in
      if negb (isArray traits) || (arrayLength traits =? 0)
      then throw (Error "Invalid or missing traits in rarity config")
      else ret tt.

(** ** Sample configurations *)

(** 26 variants of one tier, named [prefix0] .. [prefix25], 25 points each;
    the first has quota [q0], the second [q1], the others 0. *)
Definition sampleVariants (prefix tier : string) (q0 q1 : Z) : list Variant :=
  map (fun i => {| variant_name := prefix +:+ pretty i;
                   variant_tier := tier;
                   variant_points := 25;
                   variant_quota := match i with O => q0 | 1%nat => q1 | _ => 0 end |})
      (seq 0 26).

Definition tierT5 (quota : Z) : Tier :=
  {| tier_id := "T5"; tier_name := "Common"; tier_quota := quota; tier_scoreRange := (144, 174) |}.

(** Every category names its variants [V0] .. [V25]: a name is unique within
    its category and shared between categories. *)
Definition sharedNamesConfig : Config :=
  {| collectionSize := 1;
     tiers := [tierT5 1];
     traits := map (fun trait => {| trait_trait := trait;
                                    trait_variants := sampleVariants "V" "T5" 1 0 |})
                   expectedTraitNames |}.

(** Names are distinct across the whole document; [socks] has one unit of
    quota more than the population needs. *)
Definition surplusConfig : Config :=
  {| collectionSize := 1;
     tiers := [tierT5 1];
     traits := map (fun trait => {| trait_trait := trait;
                                    trait_variants :=
                                      sampleVariants (trait +:+ "_") "T5" 1
                                        (if String.eqb trait "socks" then 1 else 0) |})
                   expectedTraitNames |}.

(** No tier at all; the categories are well formed. *)
Definition noTiersConfig : Config :=
  {| collectionSize := 1;
     tiers := [];
     traits := traits sharedNamesConfig |}.

(** Two tiers outside [T1] .. [T9] and, in every category, two variants, each
    with quota [2^1023]: every quota is a double, and the sum of two of them
    is not. *)
Definition hugeConfig : Config :=
  {| collectionSize := 1;
     tiers := [ {| tier_id := "A"; tier_name := "First"; tier_quota := 2 ^ 1023;
                   tier_scoreRange := (150, 150) |};
                {| tier_id := "B"; tier_name := "Second"; tier_quota := 2 ^ 1023;
                   tier_scoreRange := (150, 150) |} ];
     traits := map (fun trait => {| trait_trait := trait;
                                    trait_variants :=
                                      sampleVariants (trait +:+ "_") "A" (2 ^ 1023) (2 ^ 1023) |})
                   expectedTraitNames |}.

(** [socks] and [hat] share the names [V0] .. [V25]; [hat]'s [V0] has no
    quota, its [V1] has the one unit. *)
Definition zeroQuotaConfig : Config :=
  {| collectionSize := 1;
     tiers := [tierT5 1];
     traits := map (fun trait =>
                      {| trait_trait := trait;
                         trait_variants :=
                           if String.eqb trait "socks" then sampleVariants "V" "T5" 1 0
                           else if String.eqb trait "hat" then sampleVariants "V" "T5" 0 1
                           else sampleVariants (trait +:+ "_") "T5" 1 0 |})
                   expectedTraitNames |}.

Definition newWorld : World := {| this := constructor; console := [] |}.

(** [engine.loadConfig(c); engine.generateNFT() ... ] on a new engine, [n] calls. *)
Fixpoint generateMany (n : nat) : M (list GenerationResult) :=
  match n with
  | O => ret []
  | S n' => let* r := generateNFT_default in
            let* rs := generateMany n' in
            ret (r :: rs)
  end.

(** Two late tiers with one item left each. *)
Definition lateTiersConfig : Config :=
  {| collectionSize := 2;
     tiers := [ {| tier_id := "T8"; tier_name := "Peak"; tier_quota := 1;
                   tier_scoreRange := (252, 252) |};
                {| tier_id := "T9"; tier_name := "Maximal"; tier_quota := 1;
                   tier_scoreRange := (270, 270) |} ];
     traits := traits surplusConfig |}.

(** The world after [new RarityEngine()] and [loadConfig(c)]. *)
Definition loaded (c : Config) : World := snd (loadConfig c newWorld).

(** ** The tier draw as the specification words it

    Weight [remainingTier(tier) × biasMultiplier(tier)] without rounding, for
    comparison with [selectTierWeighted]. *)
Definition specWeight (tier : Tier) : Q :=
  (inject_Z (tier_quota tier) * biasMultiplier (tier_id tier))%Q.

Fixpoint specTierDraw (candidates : list Tier) (random : Q) : option string :=
  match candidates with
  | [] => None
  | tier :: rest =>
      let random := (random - specWeight tier)%Q in
      if Qle_bool random 0 then Some (tier_id tier) else specTierDraw rest random
  end.

Definition specSelectTier (remaining : list Tier) (r : Q) : option string :=
  let candidates := availableTiersOf remaining in
  let totalWeight := fold_left (fun sum tier => (sum + specWeight tier)%Q) candidates 0%Q in
  specTierDraw candidates (r * totalWeight)%Q.

(** ** The quota state mirrors the configuration

    Counters apart, the remaining-quota lists are the configuration's lists:
    same tiers and same variants, position by position. *)
Definition sameTier (a b : Tier) : Prop :=
  tier_id a = tier_id b /\ tier_name a = tier_name b /\ tier_scoreRange a = tier_scoreRange b.

Definition sameVariant (a b : Variant) : Prop :=
  variant_name a = variant_name b /\ variant_tier a = variant_tier b
  /\ variant_points a = variant_points b.

Definition sameTrait (a b : Trait) : Prop :=
  trait_trait a = trait_trait b /\ Forall2 sameVariant (trait_variants a) (trait_variants b).

Definition mirrors (c : Config) (e : RarityEngine) : Prop :=
  config e = Some c
  /\ exists remainingTiers remainingVariants,
       remainingTierQuotas e = Some remainingTiers
       /\ remainingVariantQuotas e = Some remainingVariants
       /\ Forall2 sameTier (tiers c) remainingTiers
       /\ Forall2 sameTrait (traits c) remainingVariants.

Definition totalRemainingOf (remaining : list Tier) : Z :=
  fold_left (fun sum tier => sum + tier_quota tier) remaining 0.

Definition positiveTiers (remaining : list Tier) : list Tier :=
  List.filter (fun tier => 0 <? tier_quota tier) remaining.

Definition positiveVariants (trait : Trait) : list Variant :=
  List.filter (fun v => 0 <? variant_quota v) (trait_variants trait).

(** [haystack.includes(needle)] *)
Definition mentions (haystack needle : string) : bool :=
  match String.index 0 needle haystack with Some _ => true | None => false end.

(** The world after one call of [seededRandom]. *)
Definition advance (w : World) : World :=
  {| this := set_rngSeed (nextSeed (rngSeed (this w))) (this w); console := console w |}.

(** The value [seededRandom() * totalWeight] drawn in world [w]. *)
Definition drawn (w : World) (totalWeight : Double.t) : Double.t :=
  Double.mul (Double.round (nextSeed (rngSeed (this w)) # 233280)) totalWeight.

(** Worlds with the same engine up to the seed; the console is free. *)
Definition sameQuotas (w w' : World) : Prop :=
  config (this w') = config (this w)
  /\ remainingTierQuotas (this w') = remainingTierQuotas (this w)
  /\ remainingVariantQuotas (this w') = remainingVariantQuotas (this w)
  /\ tierIdToIndex (this w') = tierIdToIndex (this w)
  /\ variantNameToTraitIndex (this w') = variantNameToTraitIndex (this w).


(** The world after [loadConfig(c)] and one [generateNFT()] on a new engine. *)
Definition afterOne (c : Config) : World := snd (generateNFT_default (loaded c)).

(** ** Frame conditions

    A method [respects] a relation between worlds when the world it ends in,
    whether it returns or throws, is related to the world it started in. *)
Definition respects (R : World -> World -> Prop) {A} (m : M A) : Prop :=
  forall w, R w (snd (m w)).

(** The engine is untouched; only the console may grow. *)
Definition sameEngine (w w' : World) : Prop := this w' = this w.

(** The console is untouched. *)
Definition sameConsole (w w' : World) : Prop := console w' = console w.

(** The configuration and the lookup maps are untouched, and the quota
    lists keep their tiers, categories and variants: only counters and the
    seed may change, and the console may grow. *)
Definition evolves (w w' : World) : Prop :=
  config (this w') = config (this w)
  /\ tierIdToIndex (this w') = tierIdToIndex (this w)
  /\ variantNameToTraitIndex (this w') = variantNameToTraitIndex (this w)
  /\ option_Forall2 (Forall2 sameTier)
       (remainingTierQuotas (this w)) (remainingTierQuotas (this w'))
  /\ option_Forall2 (Forall2 sameTrait)
       (remainingVariantQuotas (this w)) (remainingVariantQuotas (this w')).

(** The worlds an engine goes through once [loadConfig(c)] has returned:
    any number of [generateNFT] calls, with any retry ceilings. *)
Inductive reachable (c : Config) : World -> Prop :=
| reachable_load (w0 w : World) :
    loadConfig c w0 = (inr tt, w) -> reachable c w
| reachable_generate (w w' : World) (maxRetries : Z) (r : Exn + GenerationResult) :
    reachable c w -> generateNFT maxRetries w = (r, w') -> reachable c w'.

Definition sumZ (l : list Z) : Z := foldr Z.add 0 l.

(** The position at which the subtraction loop of a draw returns: the
    first weight after which the running remainder is at most 0. *)
Fixpoint drawIndex (weights : list Double.t) (random : Double.t) : option nat :=
  match weights with
  | [] => None
  | weight :: rest =>
      let random := Double.sub random weight in
      if Double.leb random Double.zero then Some 0%nat
      else option_map S (drawIndex rest random)
  end.

(** The running remainder after the given weights have been subtracted. *)
Definition remainderAfter (weights : list Double.t) (random : Double.t) : Double.t :=
  fold_left Double.sub weights random.

(** The weights of a draw are the integers [ns], none negative. *)
Definition integerWeights (weights : list Double.t) (ns : list Z) : Prop :=
  Forall2 (fun weight n => weight = Double.Finite (inject_Z n) /\ 0 <= n) weights ns.

(** Quotas small enough for every weight of a draw, and every sum of
    weights, to be an integer that a double holds exactly. *)
Definition exactTierWeights (candidates : list Tier) : Prop :=
  sumZ (map tier_quota candidates) <= 2 ^ 51.

Definition exactVariantWeights (candidates : list Variant) : Prop :=
  sumZ (map variant_quota candidates) <= 2 ^ 53.

(** The point values of a selection, in order. *)
Definition pointsOf (variants : list Selected) : list Z :=
  map (fun item => variant_points (sel_variant item)) variants.

(** The world after a caught exception of iteration [attempts] has been logged. *)
Definition logged (attempts : Z) (error : Exn) (w : World) : World :=
  {| this := this w;
     console := console w ++ ["Generation attempt " +:+ pretty (attempts + 1)
                              +:+ " failed: " +:+ message error] |}.

(** [generateNFT(n)] for each ceiling [n] of the list, in order. *)
Fixpoint generateAll (ceilings : list Z) : M (list GenerationResult) :=
  match ceilings with
  | [] => ret []
  | maxRetries :: rest =>
      let* r := generateNFT maxRetries in
      let* rs := generateAll rest in
      ret (r :: rs)
  end.

(** The counters of a quota state, by id and by (category, name). *)
Definition tierCounters (w : World) : option (list (string * Z)) :=
  option_map (map (fun tier => (tier_id tier, tier_quota tier))) (remainingTierQuotas (this w)).

Definition variantCounters (w : World) : option (list (string * list (string * Z))) :=
  option_map (map (fun trait =>
                     (trait_trait trait,
                      map (fun v => (variant_name v, variant_quota v))
                          (List.filter (fun v => negb (variant_quota v =? 0))
                                       (trait_variants trait)))))
             (remainingVariantQuotas (this w)).

(** The remaining counter of one variant, by category and name. *)
Definition variantCounter (w : World) (category name : string) : option Z :=
  match remainingVariantQuotas (this w) with
  | Some remaining =>
      match List.find (fun trait => String.eqb (trait_trait trait) category) remaining with
      | Some trait =>
          option_map variant_quota
                     (List.find (fun v => String.eqb (variant_name v) name) (trait_variants trait))
      | None => None
      end
  | None => None
  end.

(** [n] calls of [seededRandom] later. *)
Definition advanceBy (n : nat) (w : World) : World := Nat.iter n advance w.

(** A seed within the modulus stays within it. *)
Definition seedBounded (w w' : World) : Prop :=
  0 <= rngSeed (this w) < 233280 -> 0 <= rngSeed (this w') < 233280.

(** ** The lookup maps point into the quota lists

    Every tier id of the remaining list is a key of [tierIdToIndex] whose
    index is a position of the list, and every variant name is a key of
    [variantNameToTraitIndex] whose index is the position of a category
    that has a variant of that name. *)
Definition tiersIndexed (m : gmap string nat) (l : list Tier) : Prop :=
  forall tier, List.In tier l ->
    exists i t, m !! tier_id tier = Some i /\ l !! i = Some t /\ tier_id t = tier_id tier.

Definition variantsIndexed (m : gmap string nat) (l : list Trait) : Prop :=
  forall trait v, List.In trait l -> List.In v (trait_variants trait) ->
    exists i t v', m !! variant_name v = Some i /\ l !! i = Some t
                   /\ List.In v' (trait_variants t) /\ variant_name v' = variant_name v.

Definition indexed (e : RarityEngine) : Prop :=
  (forall remaining, remainingTierQuotas e = Some remaining ->
                     tiersIndexed (tierIdToIndex e) remaining)
  /\ (forall remaining, remainingVariantQuotas e = Some remaining ->
                        variantsIndexed (variantNameToTraitIndex e) remaining).

Definition totalVariantsOf (remaining : list Trait) : Z :=
  sumZ (map (fun trait => sumZ (map variant_quota (trait_variants trait))) remaining).

(** The sums of the remaining counters of a world; 0 before loading. *)
Definition tierSum (w : World) : Z :=
  match remainingTierQuotas (this w) with Some l => totalRemainingOf l | None => 0 end.

Definition variantSum (w : World) : Z :=
  match remainingVariantQuotas (this w) with Some l => totalVariantsOf l | None => 0 end.

Definition isSuccess (r : GenerationResult) : bool :=
  match r with Success _ _ _ _ _ => true | Failure _ _ => false end.

Definition successes (results : list GenerationResult) : Z :=
  Z.of_nat (length (List.filter isSuccess results)).

(** Every field but the variant counters is as before. *)
Definition onlyVariants (w w' : World) : Prop :=
  config (this w') = config (this w)
  /\ remainingTierQuotas (this w') = remainingTierQuotas (this w)
  /\ rngSeed (this w') = rngSeed (this w)
  /\ tierIdToIndex (this w') = tierIdToIndex (this w)
  /\ variantNameToTraitIndex (this w') = variantNameToTraitIndex (this w)
  /\ console w' = console w.

(** Some category of the list has a variant with the name of the entry. *)
Definition named (remaining : list Trait) (item : Selected) : Prop :=
  exists trait v, List.In trait remaining /\ List.In v (trait_variants trait)
                  /\ variant_name v = variant_name (sel_variant item).


(** ** The commit the specification describes

    One less for the tier with the given id, and one less for every variant
    whose name is among the chosen names. *)
Definition allNames (l : list Trait) : list string :=
  concat (map (fun trait => map variant_name (trait_variants trait)) l).

Definition chosenNames (variants : list Selected) : list string :=
  map (fun item => variant_name (sel_variant item)) variants.

Definition commitTier (tierId : string) (remaining : list Tier) : list Tier :=
  map (fun tier => if String.eqb (tier_id tier) tierId then decTier tier else tier) remaining.

Definition commitVariantsOf (names : list string) (variants : list Variant) : list Variant :=
  map (fun v => if existsb (String.eqb (variant_name v)) names then decVariant v else v)
      variants.

Definition commitVariants (names : list string) (remaining : list Trait) : list Trait :=
  map (fun trait => {| trait_trait := trait_trait trait;
                       trait_variants := commitVariantsOf names (trait_variants trait) |})
      remaining.

(** Tier ids are pairwise distinct, and so are variant names across the
    whole document. *)
Definition distinctKeys (c : Config) : Prop :=
  NoDup (map tier_id (tiers c)) /\ NoDup (allNames (traits c)).

Definition nonNegative (w : World) : Prop :=
  (forall remaining, remainingTierQuotas (this w) = Some remaining ->
                     Forall (fun tier => 0 <= tier_quota tier) remaining)
  /\ (forall remaining, remainingVariantQuotas (this w) = Some remaining ->
                        Forall (fun trait => Forall (fun v => 0 <= variant_quota v)
                                                    (trait_variants trait)) remaining).

(** The maps send every key to the position of its own entry. *)
Definition exactTiers (m : gmap string nat) (l : list Tier) : Prop :=
  forall i t, l !! i = Some t -> m !! tier_id t = Some i.

Definition exactVariants (m : gmap string nat) (l : list Trait) : Prop :=
  forall i t v, l !! i = Some t -> List.In v (trait_variants t) ->
                m !! variant_name v = Some i.


(** ** What [validateConfig] asks of a document *)

Definition tierAccepted (tier : JS.Value) : Prop :=
  exists id scoreRange quota,
    JS.prop tier "id" = inr id /\ JS.truthy id = true
    /\ JS.prop tier "scoreRange" = inr scoreRange /\ JS.truthy scoreRange = true
    /\ JS.prop tier "quota" = inr (JS.Num quota).

Definition variantAccepted (variant : JS.Value) : Prop :=
  exists name tier points quota,
    JS.prop variant "name" = inr name /\ JS.truthy name = true
    /\ JS.prop variant "tier" = inr tier /\ JS.truthy tier = true
    /\ JS.prop variant "points" = inr (JS.Num points)
    /\ JS.prop variant "quota" = inr (JS.Num quota).

Definition traitAccepted (trait : JS.Value) : Prop :=
  exists name variants,
    JS.prop trait "trait" = inr (JS.Str name) /\ List.In name expectedTraitNames
    /\ JS.prop trait "variants" = inr (JS.Arr variants)
    /\ length variants = 26%nat
    /\ Forall variantAccepted variants.

Definition configAccepted (config : JS.Value) : Prop :=
  exists tiers traits,
    JS.prop config "tiers" = inr (JS.Arr tiers)
    /\ JS.prop config "traits" = inr (JS.Arr traits)
    /\ Forall tierAccepted tiers
    /\ length traits = 6%nat
    /\ Forall traitAccepted traits.

(** ** Typed configurations that pass validation, and its warnings *)

Definition variantWellFormed (v : Variant) : Prop :=
  variant_name v <> "" /\ variant_tier v <> "".

Definition traitWellFormed (t : Trait) : Prop :=
  List.In (trait_trait t) expectedTraitNames
  /\ length (trait_variants t) = 26%nat
  /\ Forall variantWellFormed (trait_variants t).

Definition wellFormed (c : Config) : Prop :=
  Forall (fun tier => tier_id tier <> "") (tiers c)
  /\ length (traits c) = 6%nat
  /\ Forall traitWellFormed (traits c).

(** The line of source line 37, when the tier quotas do not add up. *)
Definition tierWarnings (c : Config) : list string :=
  let total := sumZ (map tier_quota (tiers c)) in
  if total =? collectionSize c then []
  else ["Warning: total tier quota = " +:+ pretty total
        +:+ ", expected " +:+ pretty (collectionSize c)].

(** The line of source line 64, when the quotas of a category do not add up. *)
Definition traitWarnings (size : Z) (t : Trait) : list string :=
  let total := sumZ (map variant_quota (trait_variants t)) in
  if total =? size then []
  else ["Warning: trait " +:+ trait_trait t +:+ " total quota = " +:+ pretty total
        +:+ ", expected " +:+ pretty size].

Definition warningsOf (c : Config) : list string :=
  tierWarnings c ++ flat_map (traitWarnings (collectionSize c)) (traits c).

(** Every quota total equals the collection size. *)
Definition balanced (c : Config) : Prop :=
  sumZ (map tier_quota (tiers c)) = collectionSize c
  /\ Forall (fun t => sumZ (map variant_quota (trait_variants t)) = collectionSize c) (traits c).

(** A document with too few categories. *)
Definition noTraitsConfig : Config :=
  {| collectionSize := 1; tiers := [tierT5 1]; traits := [] |}.

(** ** What [validateBasicStructure] asks of a document *)

Definition basicStructure (config : JS.Value) : Prop :=
  exists size tiers traits,
    JS.prop config "collectionSize" = inr (JS.Num size) /\ size <> 0
    /\ JS.prop config "tiers" = inr (JS.Arr tiers) /\ tiers <> []
    /\ JS.prop config "traits" = inr (JS.Arr traits) /\ traits <> [].

(** ** [MetadataGenerator]

    The methods of [src/utils/metadataGenerator.js] that read nothing but
    their argument. They touch neither the engine nor the console, so they
    are functions into [Exn + _]. *)

(** [calculateOverallScore(generationResult)]: a failed result has no
    [variants], and [undefined.reduce] throws. *)
Definition calculateOverallScore (generationResult : GenerationResult) : Exn + Z :=
  match generationResult with
  | Success _ _ _ variants _ =>
      inr (fold_left (fun sum item => sum + variant_points (sel_variant item)) variants 0)
  | Failure _ _ => inl TypeError
  end.

(** [s.startsWith(prefix)] *)
Definition startsWith (s prefix : string) : bool := String.prefix prefix s.

(** [v === undefined] *)
Definition is_undefined (v : JS.Value) : bool :=
  match v with JS.Undefined => true | _ => false end.

(** [if (cond) errors.push(line)] *)
Definition pushIf (cond : bool) (line : string) (errors : list string) : list string :=
  if cond then errors ++ [line] else errors.

(** The callback of [metadata.attributes.forEach((attr, index) => ...)]. *)
Definition validateAttribute (attr : JS.Value) (index : nat) (errors : list string)
  : Exn + list string :=
  match JS.prop attr "trait_type" with
  | inl e => inl e
  | inr trait_type =>
      let errors := pushIf (negb (JS.truthy trait_type))
                           ("Attribute " +:+ pretty index +:+ ": missing trait_type") errors in
      match JS.prop attr "value" with
      | inl e => inl e
      | inr value =>
          inr (pushIf (is_undefined value)
                      ("Attribute " +:+ pretty index +:+ ": missing value") errors)
      end
  end.

Fixpoint validateAttributes (l : list JS.Value) (index : nat) (errors : list string)
  : Exn + list string :=
  match l with
  | [] => inr errors
  | attr :: rest =>
      match validateAttribute attr index errors with
      | inl e => inl e
      | inr errors' => validateAttributes rest (S index) errors'
      end
  end.

(** [validateMetadata(metadata)], returning [(valid, errors)]. A truthy
    [image] that is not a string has no [startsWith], and truthy
    [attributes] that are not an array have no [forEach]: both calls throw. *)
Definition validateMetadata (metadata : JS.Value) : Exn + (bool * list string) :=
  match JS.prop metadata "name", JS.prop metadata "description",
        JS.prop metadata "image", JS.prop metadata "attributes" with
  | inr name, inr description, inr image, inr attributes =>
      let errors := pushIf (negb (JS.truthy name)) "Missing required field: name" [] in
      let errors := pushIf (negb (JS.truthy description))
                           "Missing required field: description" errors in
      let errors := pushIf (negb (JS.truthy image)) "Missing required field: image" errors in
      let errors := pushIf (negb (JS.truthy attributes) || negb (isArray attributes))
                           "Missing required field: attributes (must be array)" errors in
      let afterImage :=
        if JS.truthy image then
          match image with
          | JS.Str s =>
              inr (pushIf (negb (startsWith s "ipfs://") && negb (startsWith s "http"))
                          "Image URL should start with ipfs:// or http(s)://" errors)
          | _ => inl TypeError
          end
        else inr errors in
      match afterImage with
      | inl e => inl e
      | inr errors =>
          let afterAttributes :=
            if JS.truthy attributes then
              match attributes with
              | JS.Arr l => validateAttributes l 0%nat errors
              | _ => inl TypeError
              end
            else inr errors in
          match afterAttributes with
          | inl e => inl e
          | inr errors => inr (Nat.eqb (length errors) 0, errors)
          end
      end
  | _, _, _, _ => inl TypeError
  end.

(** What a document must be for [validateMetadata] to find nothing. *)
Definition attributeOk (attr : JS.Value) : Prop :=
  exists trait_type value,
    JS.prop attr "trait_type" = inr trait_type /\ JS.truthy trait_type = true
    /\ JS.prop attr "value" = inr value /\ value <> JS.Undefined.

Definition metadataOk (metadata : JS.Value) : Prop :=
  exists name description image attributes,
    JS.prop metadata "name" = inr name /\ JS.truthy name = true
    /\ JS.prop metadata "description" = inr description /\ JS.truthy description = true
    /\ JS.prop metadata "image" = inr (JS.Str image)
    /\ (startsWith image "ipfs://" = true \/ startsWith image "http" = true)
    /\ JS.prop metadata "attributes" = inr (JS.Arr attributes)
    /\ Forall attributeOk attributes.

(** A token record as [generateMetadataMinimal] lays it out, for a sample. *)
Definition sampleMetadata : JS.Value :=
  JS.Obj [("name", JS.Str "Collection #1");
          ("description", JS.Str "A collection");
          ("image", JS.Str "ipfs://YOUR_IPFS_HASH/images/1.png");
          ("external_url", JS.Str "https://yourwebsite.com/nft/1");
          ("attributes", JS.Arr [JS.Obj [("trait_type", JS.Str "Socks");
                                         ("value", JS.Str "socks_0")]])].

(** The same record with a string where the attribute array should be. *)
Definition stringAttributesMetadata : JS.Value :=
  JS.Obj [("name", JS.Str "Collection #1");
          ("description", JS.Str "A collection");
          ("image", JS.Str "ipfs://YOUR_IPFS_HASH/images/1.png");
          ("attributes", JS.Str "Socks")].

(** ** Rounding to the nearest double *)

Lemma pow2_pos (e : Z) : (0 < Double.pow2 e)%Q.
Proof. apply Qpower_0_lt. reflexivity. Qed.

Lemma pow2_plus (a b : Z) : (Double.pow2 (a + b) == Double.pow2 a * Double.pow2 b)%Q.
Proof. apply Qpower_plus. discriminate. Qed.

Lemma pow2_le (a b : Z) : a <= b -> (Double.pow2 a <= Double.pow2 b)%Q.
Proof. intros H. apply Qpower_le_compat_l; [exact H | discriminate]. Qed.

Lemma pow2_lt (a b : Z) : a < b -> (Double.pow2 a < Double.pow2 b)%Q.
Proof. intros H. apply Qpower_lt_compat_l; [exact H | reflexivity]. Qed.

Lemma pow2_lt_inv (a b : Z) : (Double.pow2 a < Double.pow2 b)%Q -> a < b.
Proof. intros H. eapply Qpower_lt_compat_l_inv; [exact H | reflexivity]. Qed.

Lemma pow2_Z (e : Z) : 0 <= e -> (Double.pow2 e == inject_Z (2 ^ e))%Q.
Proof. intros H. symmetry. apply (Zpower_Qpower 2 e H). Qed.

Lemma Qabs_num (q : Q) : (Qabs q == inject_Z (Z.abs (Qnum q)) / inject_Z (Zpos (Qden q)))%Q.
Proof.
  destruct q as [n d]. simpl. unfold Qdiv, Qinv, Qmult, Qeq, inject_Z. simpl. lia.
Qed.

(** [ilog2 q] is the exponent of the power of 2 at or below [|q|]. *)
Lemma ilog2_spec (q : Q) :
  ~ (q == 0)%Q ->
  (Double.pow2 (Double.ilog2 q) <= Qabs q)%Q
  /\ (Qabs q < Double.pow2 (Double.ilog2 q + 1))%Q.
Proof.
  intros Hq.
  set (N := Z.abs (Qnum q)). set (D := Zpos (Qden q)).
  assert (HN : 0 < N).
  { unfold N. destruct q as [n d]. unfold Qeq in Hq. simpl in *. lia. }
  assert (HD : 0 < D) by (unfold D; lia).
  destruct (Z.log2_spec N HN) as [Ha1 Ha2]. destruct (Z.log2_spec D HD) as [Hb1 Hb2].
  set (a := Z.log2 N) in *. set (b := Z.log2 D) in *.
  assert (Ha0 : 0 <= a) by apply Z.log2_nonneg.
  assert (Hb0 : 0 <= b) by apply Z.log2_nonneg.
  assert (HDq : (0 < inject_Z D)%Q)
    by (change 0%Q with (inject_Z 0); rewrite <- Zlt_Qlt; exact HD).
  assert (Hupper : (Qabs q < Double.pow2 (a - b + 1))%Q).
  { rewrite (Qabs_num q). fold N D. apply Qlt_shift_div_r; [exact HDq|].
    apply Qlt_le_trans with (Double.pow2 (a + 1)).
    - rewrite (pow2_Z (a + 1)) by lia. rewrite <- Zlt_Qlt.
      replace (a + 1) with (Z.succ a) by lia. exact Ha2.
    - replace (a + 1) with ((a - b + 1) + b) by lia. rewrite pow2_plus.
      apply Qmult_le_l; [apply pow2_pos|].
      rewrite (pow2_Z b) by lia. rewrite <- Zle_Qle. exact Hb1. }
  assert (Hlower : (Double.pow2 (a - b - 1) < Qabs q)%Q).
  { rewrite (Qabs_num q). fold N D. apply Qlt_shift_div_l; [exact HDq|].
    apply Qlt_le_trans with (Double.pow2 a).
    - replace a with ((a - b - 1) + (b + 1)) at 2 by lia. rewrite pow2_plus.
      apply Qmult_lt_l; [apply pow2_pos|].
      rewrite (pow2_Z (b + 1)) by lia. rewrite <- Zlt_Qlt.
      replace (b + 1) with (Z.succ b) by lia. exact Hb2.
    - rewrite (pow2_Z a) by lia. rewrite <- Zle_Qle. exact Ha1. }
  unfold Double.ilog2. fold N D a b.
  destruct (Qle_bool (Double.pow2 (a - b)) (Qabs q)) eqn:Hcmp.
  - apply Qle_bool_iff in Hcmp. split; assumption.
  - split; [apply Qlt_le_weak, Hlower|].
    replace (a - b - 1 + 1) with (a - b) by lia.
    apply Qnot_le_lt. intros Hle. apply Qle_bool_iff in Hle. congruence.
Qed.

Lemma exponent_cases (q : Q) :
  -1074 <= Double.exponent q
  /\ Double.ilog2 q - 52 <= Double.exponent q
  /\ (Double.exponent q = Double.ilog2 q - 52 \/ Double.exponent q = -1074).
Proof. unfold Double.exponent. lia. Qed.

(** *** Nearest integer *)

Lemma rne_cases (x : Q) : Double.rne x = Qfloor x \/ Double.rne x = Qfloor x + 1.
Proof.
  unfold Double.rne. destruct (_ ?= _)%Q; [destruct (Z.even _)| |]; auto.
Qed.

Lemma rne_le_int (x : Q) (K : Z) : (x <= inject_Z K)%Q -> Double.rne x <= K.
Proof.
  intros Hx. pose proof (Qfloor_le x) as Hf.
  assert (Hfk : Qfloor x <= K).
  { rewrite Zle_Qle. eapply Qle_trans; eassumption. }
  unfold Double.rne.
  destruct (Qcompare_spec (x - inject_Z (Qfloor x)) (1 # 2)) as [He|Hl|Hg].
  - assert (Hlt : (inject_Z (Qfloor x) < inject_Z K)%Q) by lra.
    rewrite <- Zlt_Qlt in Hlt. destruct (Z.even _); lia.
  - exact Hfk.
  - assert (Hlt : (inject_Z (Qfloor x) < inject_Z K)%Q) by lra.
    rewrite <- Zlt_Qlt in Hlt. lia.
Qed.

Lemma rne_ge_int (x : Q) (K : Z) : (inject_Z K <= x)%Q -> K <= Double.rne x.
Proof.
  intros Hx. apply Qfloor_resp_le in Hx. rewrite Qfloor_Z in Hx.
  destruct (rne_cases x) as [-> | ->]; lia.
Qed.

(** *** Rounding against a number of the format *)

Lemma nearest_value (q : Q) :
  ~ (q == 0)%Q ->
  (Double.nearest q
   == inject_Z (Double.rne (q / Double.pow2 (Double.exponent q)))
      * Double.pow2 (Double.exponent q))%Q.
Proof.
  intros Hq. unfold Double.nearest.
  destruct (Qeq_bool q 0) eqn:H0; [apply Qeq_bool_iff in H0; contradiction|].
  apply Qred_correct.
Qed.

Lemma nearest_zero (q : Q) : (q == 0)%Q -> Double.nearest q = 0%Q.
Proof.
  intros Hq. unfold Double.nearest.
  destruct (Qeq_bool q 0) eqn:H0; [reflexivity|].
  apply Qeq_bool_neq in H0. contradiction.
Qed.

Lemma scaled_integer (m e E : Z) :
  E <= e ->
  (inject_Z m * Double.pow2 e / Double.pow2 E == inject_Z (m * 2 ^ (e - E)))%Q.
Proof.
  intros H. replace e with ((e - E) + E) at 1 by lia. rewrite pow2_plus.
  rewrite inject_Z_mult, (pow2_Z (e - E)) by lia.
  pose proof (pow2_pos E). field. lra.
Qed.

Lemma div_pow2_le (x y : Q) (E : Z) :
  (x <= y)%Q -> (x / Double.pow2 E <= y / Double.pow2 E)%Q.
Proof.
  intros H. unfold Qdiv. apply Qmult_le_compat_r; [exact H|].
  apply Qlt_le_weak, Qinv_lt_0_compat, pow2_pos.
Qed.

Lemma mul_pow2_le (x y : Q) (E : Z) :
  (x <= y)%Q -> (x * Double.pow2 E <= y * Double.pow2 E)%Q.
Proof.
  intros H. apply Qmult_le_compat_r; [exact H | apply Qlt_le_weak, pow2_pos].
Qed.

Lemma div_mul_pow2 (y : Q) (E : Z) : (y / Double.pow2 E * Double.pow2 E == y)%Q.
Proof. pose proof (pow2_pos E). field. lra. Qed.

(** A number of the format whose last place is finer than that of [q] is
    smaller than [q] in magnitude. *)
Lemma finer_is_smaller (q y : Q) (m e : Z) :
  ~ (q == 0)%Q ->
  (y == inject_Z m * Double.pow2 e)%Q -> Z.abs m < 2 ^ 53 -> -1074 <= e ->
  e < Double.exponent q ->
  Double.exponent q = Double.ilog2 q - 52
  /\ (Qabs y < Double.pow2 (52 + Double.exponent q))%Q
  /\ (Double.pow2 (52 + Double.exponent q) <= Qabs q)%Q.
Proof.
  intros Hq Hy Hm He Hlt.
  destruct (exponent_cases q) as (_ & _ & [HE|HE]); [|lia].
  split; [exact HE|]. split.
  - rewrite Hy, Qabs_Qmult, (Qabs_pos (Double.pow2 e)) by apply Qlt_le_weak, pow2_pos.
    apply Qlt_le_trans with (Double.pow2 53 * Double.pow2 e)%Q.
    + apply Qmult_lt_r; [apply pow2_pos|].
      rewrite (pow2_Z 53) by lia.
      assert (Habs : (Qabs (inject_Z m) == inject_Z (Z.abs m))%Q).
      { unfold inject_Z. rewrite <- Zabs_Qabs. reflexivity. }
      rewrite Habs, <- Zlt_Qlt. exact Hm.
    + rewrite <- pow2_plus. apply pow2_le. lia.
  - replace (52 + Double.exponent q) with (Double.ilog2 q) by lia.
    apply ilog2_spec, Hq.
Qed.

Lemma nearest_le (q y : Q) :
  Double.representable y -> (q <= y)%Q -> (Double.nearest q <= y)%Q.
Proof.
  intros (m & e & Hy & Hm & He) Hle.
  destruct (Qeq_dec q 0) as [H0|H0].
  - rewrite (nearest_zero q H0). rewrite H0 in Hle. exact Hle.
  - rewrite (nearest_value q H0). set (E := Double.exponent q).
    destruct (Z_le_gt_dec E e) as [HEe|HEe].
    + rewrite <- (div_mul_pow2 y E). apply mul_pow2_le.
      rewrite Hy, (scaled_integer m e E HEe), <- Zle_Qle. apply rne_le_int.
      rewrite <- (scaled_integer m e E HEe), <- Hy. apply div_pow2_le, Hle.
    + destruct (finer_is_smaller q y m e H0 Hy Hm He) as (HE & Hysmall & Hqbig); [fold E; lia|].
      fold E in HE, Hysmall, Hqbig.
      assert (Hneg : (q <= - Double.pow2 (52 + E))%Q).
      { destruct (Qlt_le_dec q 0) as [Hq0|Hq0].
        - rewrite (Qabs_neg q) in Hqbig by lra. lra.
        - rewrite (Qabs_pos q) in Hqbig by lra.
          pose proof (Qle_Qabs y). lra. }
      apply Qle_trans with (- Double.pow2 (52 + E))%Q.
      * assert (Hr : Double.rne (q / Double.pow2 E) <= - 2 ^ 52).
        { apply rne_le_int. rewrite inject_Z_opp, <- (pow2_Z 52) by lia.
          apply Qle_shift_div_r; [apply pow2_pos|].
          rewrite pow2_plus in Hneg. lra. }
        rewrite Zle_Qle, inject_Z_opp, <- (pow2_Z 52) in Hr by lia.
        rewrite pow2_plus. pose proof (pow2_pos E).
        apply (mul_pow2_le _ _ E) in Hr. lra.
      * pose proof (Qle_Qabs (- y)) as Habs. rewrite Qabs_opp in Habs. lra.
Qed.

Lemma nearest_ge (q y : Q) :
  Double.representable y -> (y <= q)%Q -> (y <= Double.nearest q)%Q.
Proof.
  intros (m & e & Hy & Hm & He) Hle.
  destruct (Qeq_dec q 0) as [H0|H0].
  - rewrite (nearest_zero q H0). rewrite H0 in Hle. exact Hle.
  - rewrite (nearest_value q H0). set (E := Double.exponent q).
    destruct (Z_le_gt_dec E e) as [HEe|HEe].
    + rewrite <- (div_mul_pow2 y E). apply mul_pow2_le.
      rewrite Hy, (scaled_integer m e E HEe), <- Zle_Qle. apply rne_ge_int.
      rewrite <- (scaled_integer m e E HEe), <- Hy. apply div_pow2_le, Hle.
    + destruct (finer_is_smaller q y m e H0 Hy Hm He) as (HE & Hysmall & Hqbig); [fold E; lia|].
      fold E in HE, Hysmall, Hqbig.
      assert (Hpos : (Double.pow2 (52 + E) <= q)%Q).
      { destruct (Qlt_le_dec q 0) as [Hq0|Hq0].
        - rewrite (Qabs_neg q) in Hqbig by lra.
          pose proof (Qle_Qabs (- y)) as Habs. rewrite Qabs_opp in Habs. lra.
        - rewrite (Qabs_pos q) in Hqbig by lra. exact Hqbig. }
      apply Qle_trans with (Double.pow2 (52 + E))%Q.
      * pose proof (Qle_Qabs y). lra.
      * assert (Hr : 2 ^ 52 <= Double.rne (q / Double.pow2 E)).
        { apply rne_ge_int. rewrite <- (pow2_Z 52) by lia.
          apply Qle_shift_div_l; [apply pow2_pos|].
          rewrite pow2_plus in Hpos. lra. }
        rewrite Zle_Qle, <- (pow2_Z 52) in Hr by lia.
        rewrite pow2_plus. apply (mul_pow2_le _ _ E) in Hr. lra.
Qed.

(** *** Numbers of the format *)

Lemma representable_Z (k : Z) : Z.abs k <= 2 ^ 53 -> Double.representable (inject_Z k).
Proof.
  intros Hk. destruct (Z.eq_dec (Z.abs k) (2 ^ 53)) as [Heq|Hne].
  - exists (k / 2), 1. split; [|split; [|lia]].
    + change (Double.pow2 1) with (inject_Z 2). rewrite <- inject_Z_mult.
      assert (k = k / 2 * 2) as <-; [|reflexivity].
      assert (k mod 2 = 0); [|pose proof (Z.div_mod k 2); lia].
      destruct (Z.abs_eq_or_opp k) as [H|H]; rewrite H in Heq.
      * rewrite Heq. reflexivity.
      * replace k with (- 2 ^ 53) by lia. reflexivity.
    + assert (Z.abs k = 2 ^ 53) by exact Heq.
      destruct (Z.abs_eq_or_opp k) as [H1|H1]; rewrite H1 in H.
      * rewrite H. reflexivity.
      * replace k with (- 2 ^ 53) by lia. reflexivity.
  - exists k, 0. split; [|split; [lia | lia]].
    change (Double.pow2 0) with 1%Q. ring.
Qed.

Lemma representable_dyadic (m j : Z) :
  Z.abs m < 2 ^ 53 -> 0 <= j <= 1074 ->
  Double.representable (inject_Z m / inject_Z (2 ^ j)).
Proof.
  intros Hm Hj. exists m, (- j). split; [|split; [exact Hm | lia]].
  unfold Double.pow2. rewrite Qpower_opp. fold (Double.pow2 j).
  rewrite (pow2_Z j) by lia. reflexivity.
Qed.

Lemma pow2_1024_big (k : Z) : Z.abs k <= 2 ^ 53 -> (Qabs (inject_Z k) < Double.pow2 1024)%Q.
Proof.
  intros Hk. rewrite (pow2_Z 1024) by lia.
  assert (Habs : (Qabs (inject_Z k) == inject_Z (Z.abs k))%Q).
  { unfold inject_Z. rewrite <- Zabs_Qabs. reflexivity. }
  rewrite Habs, <- Zlt_Qlt.
  apply Z.le_lt_trans with (2 ^ 53); [exact Hk|].
  apply Z.pow_lt_mono_r; lia.
Qed.

(** *** [round] *)

Lemma round_atMost (q y : Q) :
  Double.representable y -> (y < Double.pow2 1024)%Q -> (q <= y)%Q ->
  Double.atMost (Double.round q) y.
Proof.
  intros Hrep Hy Hle. unfold Double.round. cbv zeta.
  assert (Hv : (Double.nearest (Qred q) <= y)%Q).
  { apply nearest_le; [exact Hrep|]. rewrite Qred_correct. exact Hle. }
  destruct (Qle_bool (Double.pow2 1024) _) eqn:H1.
  - apply Qle_bool_iff in H1. simpl. lra.
  - destruct (Qle_bool _ (- Double.pow2 1024)); simpl; [exact I | exact Hv].
Qed.

Lemma round_atLeast (q y : Q) :
  Double.representable y -> (- Double.pow2 1024 < y)%Q -> (y <= q)%Q ->
  Double.atLeast (Double.round q) y.
Proof.
  intros Hrep Hy Hle. unfold Double.round. cbv zeta.
  assert (Hv : (y <= Double.nearest (Qred q))%Q).
  { apply nearest_ge; [exact Hrep|]. rewrite Qred_correct. exact Hle. }
  destruct (Qle_bool (Double.pow2 1024) _) eqn:H1; [exact I|].
  destruct (Qle_bool _ (- Double.pow2 1024)) eqn:H2; simpl; [|exact Hv].
  apply Qle_bool_iff in H2. lra.
Qed.

Lemma between_finite (x : Double.t) (lo hi : Q) :
  Double.atLeast x lo -> Double.atMost x hi ->
  exists v, x = Double.Finite v /\ (lo <= v <= hi)%Q.
Proof. destruct x; simpl; intros H1 H2; try contradiction. eauto. Qed.

(** Rounding a rational between two numbers of the format gives a finite
    double between them. *)
Lemma round_between (q lo hi : Q) :
  Double.representable lo -> Double.representable hi ->
  (- Double.pow2 1024 < lo)%Q -> (hi < Double.pow2 1024)%Q ->
  (lo <= q <= hi)%Q ->
  exists v, Double.round q = Double.Finite v /\ (lo <= v <= hi)%Q.
Proof.
  intros Hlo Hhi Hl Hh [H1 H2].
  apply between_finite; [apply round_atLeast | apply round_atMost]; assumption.
Qed.

Lemma Qred_inject_Z (k : Z) : Qred (inject_Z k) = inject_Z k.
Proof.
  unfold Qred, inject_Z. simpl.
  pose proof (Z.ggcd_gcd k 1) as Hg. pose proof (Z.ggcd_correct_divisors k 1) as Hd.
  destruct (Z.ggcd k 1) as [g [a b]]. simpl in *.
  rewrite Z.gcd_1_r in Hg. subst g. destruct Hd as [Ha Hb].
  assert (Hak : a = k) by lia. assert (Hb1 : b = 1) by lia.
  clear Ha Hb. subst a b. reflexivity.
Qed.

Lemma nearest_canonical (q : Q) (k : Z) :
  (Double.nearest q == inject_Z k)%Q -> Double.nearest q = inject_Z k.
Proof.
  unfold Double.nearest. destruct (Qeq_bool q 0).
  - intros H. assert (k = 0); [|subst; reflexivity].
    apply inject_Z_injective. symmetry. exact H.
  - intros H. rewrite <- (Qred_inject_Z k). apply Qred_complete.
    rewrite Qred_correct in H. exact H.
Qed.

(** An integer of at most 53 bits is a double, and rounding leaves it as it is. *)
Lemma round_Z (q : Q) (k : Z) :
  Z.abs k <= 2 ^ 53 -> (q == inject_Z k)%Q -> Double.round q = Double.Finite (inject_Z k).
Proof.
  intros Hk Hq. pose proof (representable_Z k Hk) as Hrep.
  pose proof (pow2_1024_big k Hk) as Hbig. apply Qabs_Qlt_condition in Hbig.
  assert (Hv : Double.nearest (Qred q) = inject_Z k).
  { apply nearest_canonical. apply Qle_antisym.
    - apply nearest_le; [exact Hrep|]. rewrite Qred_correct, Hq. apply Qle_refl.
    - apply nearest_ge; [exact Hrep|]. rewrite Qred_correct, Hq. apply Qle_refl. }
  unfold Double.round. cbv zeta. rewrite Hv.
  destruct (Qle_bool (Double.pow2 1024) (inject_Z k)) eqn:H1.
  - apply Qle_bool_iff in H1. lra.
  - destruct (Qle_bool (inject_Z k) (- Double.pow2 1024)) eqn:H2; [|reflexivity].
    apply Qle_bool_iff in H2. lra.
Qed.

Lemma ofZ_exact (k : Z) : Z.abs k <= 2 ^ 53 -> Double.ofZ k = Double.Finite (inject_Z k).
Proof. intros Hk. apply round_Z; [exact Hk | reflexivity]. Qed.

Lemma add_exact (a b : Z) :
  Z.abs (a + b) <= 2 ^ 53 ->
  Double.add (Double.Finite (inject_Z a)) (Double.Finite (inject_Z b))
  = Double.Finite (inject_Z (a + b)).
Proof.
  intros H. simpl. apply round_Z; [exact H|]. rewrite inject_Z_plus. reflexivity.
Qed.

(** ** Arithmetic of the cumulative-weight draw *)

Lemma nextSeed_lt (seed : Z) : nextSeed seed < 233280.
Proof.
  unfold nextSeed.
  pose proof (Z.rem_bound_abs (seed * 9301 + 49297) 233280). lia.
Qed.

Lemma nextSeed_gt (seed : Z) : -233280 < nextSeed seed.
Proof.
  unfold nextSeed.
  pose proof (Z.rem_bound_abs (seed * 9301 + 49297) 233280). lia.
Qed.

Lemma nextSeed_nonneg (seed : Z) : 0 <= seed -> 0 <= nextSeed seed.
Proof.
  intros H. unfold nextSeed. apply Z.rem_nonneg; lia.
Qed.

Lemma finite_bounds (k : Z) :
  Z.abs k <= 2 ^ 53 ->
  (- Double.pow2 1024 < inject_Z k)%Q /\ (inject_Z k < Double.pow2 1024)%Q.
Proof. intros Hk. apply Qabs_Qlt_condition, pow2_1024_big, Hk. Qed.

(** Rounding a rational between two integers of at most 53 bits. *)
Lemma round_between_Z (q : Q) (lo hi : Z) :
  Z.abs lo <= 2 ^ 53 -> Z.abs hi <= 2 ^ 53 ->
  (inject_Z lo <= q <= inject_Z hi)%Q ->
  exists v, Double.round q = Double.Finite v /\ (inject_Z lo <= v <= inject_Z hi)%Q.
Proof.
  intros Hlo Hhi Hq.
  apply round_between; try apply representable_Z; try assumption.
  - apply finite_bounds, Hlo.
  - apply finite_bounds, Hhi.
Qed.

(** The double of the draw [rngSeed / 233280] lies between -1 and 1. *)
Lemma round_seed (seed : Z) :
  exists r, Double.round (nextSeed seed # 233280) = Double.Finite r /\ (-1 <= r <= 1)%Q.
Proof.
  pose proof (nextSeed_lt seed). pose proof (nextSeed_gt seed).
  apply (round_between_Z _ (-1) 1); [simpl; lia | simpl; lia |].
  unfold Qle, inject_Z. simpl. lia.
Qed.

Lemma round_seed_nonneg (seed : Z) :
  0 <= seed ->
  exists r, Double.round (nextSeed seed # 233280) = Double.Finite r
            /\ (0 <= r <= inject_Z (2 ^ 18 - 1) / inject_Z (2 ^ 18))%Q.
Proof.
  intros Hseed. pose proof (nextSeed_lt seed). pose proof (nextSeed_nonneg seed Hseed).
  apply round_between.
  - apply (representable_Z 0). simpl. lia.
  - apply representable_dyadic; simpl; lia.
  - reflexivity.
  - reflexivity.
  - unfold Qle, Qdiv, Qmult, Qinv, inject_Z. simpl. lia.
Qed.

(** The value drawn, [seededRandom() * totalWeight], for a total that is an
    integer of at most 53 bits. *)
Lemma draw_between (seed total : Z) :
  0 <= total <= 2 ^ 53 ->
  exists x,
    Double.mul (Double.round (nextSeed seed # 233280)) (Double.Finite (inject_Z total))
    = Double.Finite x
    /\ (- inject_Z total <= x <= inject_Z total)%Q.
Proof.
  intros Htotal. destruct (round_seed seed) as (r & -> & Hr). simpl.
  rewrite <- inject_Z_opp.
  apply round_between_Z; [lia | lia |].
  assert (H0 : (0 <= inject_Z total)%Q) by (change 0%Q with (inject_Z 0); rewrite <- Zle_Qle; lia).
  rewrite inject_Z_opp. split; nra.
Qed.

Lemma draw_nonneg_lt (seed total : Z) :
  0 <= seed -> 0 < total <= 2 ^ 53 ->
  exists x,
    Double.mul (Double.round (nextSeed seed # 233280)) (Double.Finite (inject_Z total))
    = Double.Finite x
    /\ (0 <= x)%Q /\ (x < inject_Z total)%Q.
Proof.
  intros Hseed Htotal. destruct (round_seed_nonneg seed Hseed) as (r & -> & Hr0 & Hr1). simpl.
  assert (H0 : (0 < inject_Z total)%Q) by (change 0%Q with (inject_Z 0); rewrite <- Zlt_Qlt; lia).
  assert (Hprod : (0 <= r * inject_Z total)%Q) by nra.
  assert (Hupper : (r * inject_Z total
                    <= inject_Z ((2 ^ 18 - 1) * total) / inject_Z (2 ^ 18))%Q).
  { rewrite inject_Z_mult. unfold Qdiv in *. rewrite <- Qmult_assoc, (Qmult_comm (inject_Z total)),
      Qmult_assoc. apply Qmult_le_compat_r; [exact Hr1 | lra]. }
  destruct (Z_lt_le_dec total (2 ^ 18)) as [Hsmall|Hlarge].
  - destruct (round_between (r * inject_Z total) 0
                (inject_Z ((2 ^ 18 - 1) * total) / inject_Z (2 ^ 18)))
      as (x & Hx & Hx0 & Hx1).
    + apply (representable_Z 0). simpl. lia.
    + apply representable_dyadic; [|simpl; lia].
      change (2 ^ 18) with 262144 in *. change (2 ^ 53) with 9007199254740992. lia.
    + reflexivity.
    + apply Qle_lt_trans with (inject_Z total).
      * apply Qle_shift_div_r; [reflexivity|]. rewrite <- inject_Z_mult, <- Zle_Qle.
        change (2 ^ 18) with 262144. lia.
      * apply finite_bounds. lia.
    + split; assumption.
    + exists x. split; [exact Hx|]. split; [exact Hx0|].
      eapply Qle_lt_trans; [exact Hx1|].
      apply Qlt_shift_div_r; [reflexivity|]. rewrite <- inject_Z_mult, <- Zlt_Qlt.
      change (2 ^ 18) with 262144. lia.
  - destruct (round_between_Z (r * inject_Z total) 0 (total - 1)) as (x & Hx & Hx0 & Hx1);
      [simpl; lia | lia | |].
    + split; [exact Hprod|]. eapply Qle_trans; [exact Hupper|].
      apply Qle_shift_div_r; [reflexivity|]. rewrite <- inject_Z_mult, <- Zle_Qle.
      change (2 ^ 18) with 262144 in *. lia.
    + exists x. split; [exact Hx|]. split; [exact Hx0|].
      eapply Qle_lt_trans; [exact Hx1|]. rewrite <- Zlt_Qlt. lia.
Qed.

(** *** Weights that are integers *)

Lemma sumZ_nonneg_in (l : list Z) (x : Z) :
  Forall (fun n => 0 <= n) l -> List.In x l -> 0 <= x <= sumZ l.
Proof.
  induction 1 as [|y l Hy Hall IH]; intros Hin; [destruct Hin|].
  assert (0 <= sumZ l).
  { clear IH Hin. induction Hall; unfold sumZ in *; simpl; lia. }
  change (sumZ (y :: l)) with (y + sumZ l).
  destruct Hin as [<-|Hin]; [lia | specialize (IH Hin); lia].
Qed.

Lemma sumZ_nonneg_all (l : list Z) : Forall (fun n => 0 <= n) l -> 0 <= sumZ l.
Proof. induction 1; unfold sumZ in *; simpl; lia. Qed.

Lemma integerWeights_nonneg (weights : list Double.t) (ns : list Z) :
  integerWeights weights ns -> Forall (fun n => 0 <= n) ns.
Proof. induction 1 as [|w n ws l [_ Hn] _ IH]; constructor; assumption. Qed.

Lemma multiplier_bounds (id : string) :
  exists m, bellCurveMultiplier id = Double.Finite m /\ (0 <= m <= 3)%Q.
Proof.
  unfold bellCurveMultiplier, biasMultiplier.
  repeat match goal with |- context [if ?b then _ else _] => destruct b end;
    eexists; (split; [vm_compute; reflexivity | split; vm_compute; discriminate]).
Qed.

(** With a quota of at most [2^51] the weight of a tier is an integer
    between 0 and three times the quota. *)
Lemma tierWeight_integer (tier : Tier) :
  0 <= tier_quota tier <= 2 ^ 51 ->
  exists n, tierWeight tier = Double.Finite (inject_Z n) /\ 0 <= n <= 3 * tier_quota tier.
Proof.
  intros Hq. unfold tierWeight.
  rewrite ofZ_exact by lia.
  destruct (multiplier_bounds (tier_id tier)) as (m & -> & Hm0 & Hm3). simpl Double.mul.
  assert (H0 : (0 <= inject_Z (tier_quota tier))%Q)
    by (change 0%Q with (inject_Z 0); rewrite <- Zle_Qle; lia).
  destruct (round_between_Z (inject_Z (tier_quota tier) * m) 0 (3 * tier_quota tier))
    as (v & -> & Hv0 & Hv1); [simpl; lia | lia | |].
  - rewrite inject_Z_mult. change (inject_Z 3) with 3%Q. change (inject_Z 0) with 0%Q.
    split; nra.
  - exists (Qfloor v). split; [reflexivity|]. split.
    + apply Qfloor_resp_le in Hv0. rewrite Qfloor_Z in Hv0. exact Hv0.
    + apply Qfloor_resp_le in Hv1. rewrite Qfloor_Z in Hv1. exact Hv1.
Qed.

Lemma weightTiers_integer (candidates : list Tier) :
  Forall (fun tier => 0 < tier_quota tier) candidates ->
  exactTierWeights candidates ->
  exists ns, integerWeights (map snd (weightTiers candidates)) ns
             /\ sumZ ns <= 3 * sumZ (map tier_quota candidates).
Proof.
  unfold exactTierWeights.
  induction 1 as [|tier rest Hq Hall IH]; intros Hsum.
  - exists []. split; [constructor | reflexivity].
  - change (sumZ (map tier_quota (tier :: rest)))
      with (tier_quota tier + sumZ (map tier_quota rest)) in *.
    assert (Hrest : 0 <= sumZ (map tier_quota rest)).
    { apply sumZ_nonneg_all. apply List.Forall_map. eapply Forall_impl; [exact Hall|].
      simpl. intros. lia. }
    destruct IH as (ns & Hns & Hle); [lia|].
    destruct (tierWeight_integer tier) as (n & Hn & Hn0 & Hn3); [lia|].
    exists (n :: ns). split.
    + simpl. constructor; [split; [exact Hn | exact Hn0] | exact Hns].
    + change (sumZ (n :: ns)) with (n + sumZ ns). lia.
Qed.

Lemma variantWeights_integer (candidates : list Variant) :
  Forall (fun variant => 0 < variant_quota variant) candidates ->
  exactVariantWeights candidates ->
  integerWeights (map (fun variant => Double.ofZ (variant_quota variant)) candidates)
                 (map variant_quota candidates).
Proof.
  unfold exactVariantWeights, integerWeights.
  induction 1 as [|variant rest Hq Hall IH]; intros Hsum; simpl; [constructor|].
  change (sumZ (map variant_quota (variant :: rest)))
    with (variant_quota variant + sumZ (map variant_quota rest)) in *.
  assert (Hrest : 0 <= sumZ (map variant_quota rest)).
  { apply sumZ_nonneg_all. apply List.Forall_map. eapply Forall_impl; [exact Hall|].
    simpl. intros. lia. }
  constructor; [|apply IH; lia].
  split; [apply ofZ_exact; lia | lia].
Qed.

(** The sum of integer weights, added up in doubles, is their exact sum. *)
Lemma sum_integerWeights (weights : list Double.t) (ns : list Z) :
  integerWeights weights ns ->
  forall acc, 0 <= acc -> acc + sumZ ns <= 2 ^ 53 ->
  fold_left Double.add weights (Double.Finite (inject_Z acc))
  = Double.Finite (inject_Z (acc + sumZ ns)).
Proof.
  induction 1 as [|w n ws l [-> Hn] Hrest IH]; intros acc Hacc Hsum; simpl.
  - unfold sumZ. simpl. rewrite Z.add_0_r. reflexivity.
  - change (sumZ (n :: l)) with (n + sumZ l) in *.
    pose proof (sumZ_nonneg_all l (integerWeights_nonneg _ _ Hrest)) as Hl.
    change (Double.round (inject_Z acc + inject_Z n))
      with (Double.add (Double.Finite (inject_Z acc)) (Double.Finite (inject_Z n))).
    rewrite add_exact by lia. rewrite IH by lia. f_equal. f_equal. lia.
Qed.

Lemma totalTierWeight_sum (weightedTiers : list (Tier * Double.t)) :
  totalTierWeight weightedTiers = fold_left Double.add (map snd weightedTiers) Double.zero.
Proof.
  unfold totalTierWeight. generalize Double.zero.
  induction weightedTiers as [|x l IH]; intros acc; simpl; [reflexivity | apply IH].
Qed.

Lemma totalVariantWeight_sum (availableVariants : list Variant) :
  totalVariantWeight availableVariants
  = fold_left Double.add
      (map (fun variant => Double.ofZ (variant_quota variant)) availableVariants) Double.zero.
Proof.
  unfold totalVariantWeight. generalize Double.zero.
  induction availableVariants as [|x l IH]; intros acc; simpl; [reflexivity | apply IH].
Qed.

(** *** The subtraction loop *)

(** A draw that starts at or below the sum of integer weights leaves the
    loop through its [return]. *)
Lemma drawIndex_returns (weights : list Double.t) (ns : list Z) :
  integerWeights weights ns ->
  forall random,
  weights <> [] -> sumZ ns <= 2 ^ 53 ->
  Double.atMost random (inject_Z (sumZ ns)) ->
  exists k, drawIndex weights random = Some k.
Proof.
  induction 1 as [|w n ws l [-> Hn] Hrest IH]; intros random Hne Hsum Hle;
    [destruct Hne; reflexivity|].
  change (sumZ (n :: l)) with (n + sumZ l) in *.
  pose proof (sumZ_nonneg_all l (integerWeights_nonneg _ _ Hrest)) as Hl.
  cbn [drawIndex].
  assert (Hnext : Double.atMost (Double.sub random (Double.Finite (inject_Z n)))
                                (inject_Z (sumZ l))).
  { destruct random as [v| | |]; simpl in Hle; try contradiction; [|exact I].
    simpl Double.sub. apply round_atMost.
    - apply representable_Z. lia.
    - apply finite_bounds. lia.
    - rewrite inject_Z_plus in Hle. lra. }
  destruct (Double.leb _ Double.zero) eqn:Hcmp; [eauto|].
  destruct ws as [|w' ws'].
  - exfalso. inversion Hrest; subst. change (inject_Z (sumZ [])) with 0%Q in Hnext.
    destruct (Double.sub random (Double.Finite (inject_Z n))) as [v| | |];
      simpl in Hnext, Hcmp; try contradiction; try discriminate.
    apply Qle_bool_iff in Hnext. congruence.
  - destruct (IH _ ltac:(discriminate) ltac:(lia) Hnext) as [k Hk].
    rewrite Hk. simpl. eauto.
Qed.

(** The loop returns at the first position at which the running remainder
    is at most 0. *)
Lemma drawIndex_first (weights : list Double.t) :
  forall random k,
  drawIndex weights random = Some k ->
  (k < length weights)%nat
  /\ Double.leb (remainderAfter (take (S k) weights) random) Double.zero = true
  /\ forall j, (j < k)%nat ->
       Double.leb (remainderAfter (take (S j) weights) random) Double.zero = false.
Proof.
  induction weights as [|w rest IH]; intros random k; cbn [drawIndex]; [discriminate|].
  destruct (Double.leb (Double.sub random w) Double.zero) eqn:Hcmp.
  - intros [= <-]. split; [simpl; lia|]. split; [simpl; rewrite ?take_0; exact Hcmp|].
    intros j Hj. lia.
  - destruct (drawIndex rest (Double.sub random w)) as [k'|] eqn:Hrest; [|discriminate].
    intros [= <-]. destruct (IH _ _ Hrest) as (Hlen & Hle & Hbefore).
    split; [simpl; lia|]. split; [exact Hle|].
    intros j Hj. destruct j as [|j]; [simpl; rewrite ?take_0; exact Hcmp|].
    apply Hbefore. lia.
Qed.

Lemma drawIndex_none (weights : list Double.t) :
  forall random,
  drawIndex weights random = None ->
  forall j, (j < length weights)%nat ->
    Double.leb (remainderAfter (take (S j) weights) random) Double.zero = false.
Proof.
  induction weights as [|w rest IH]; intros random; cbn [drawIndex]; [simpl; lia|].
  destruct (Double.leb (Double.sub random w) Double.zero) eqn:Hcmp; [discriminate|].
  destruct (drawIndex rest (Double.sub random w)) as [k'|] eqn:Hrest; [discriminate|].
  intros _ j Hj. destruct j as [|j]; [simpl; rewrite ?take_0; exact Hcmp|].
  apply (IH _ Hrest). simpl in Hj. lia.
Qed.

Lemma tierDraw_index (weightedTiers : list (Tier * Double.t)) :
  forall random,
  tierDraw weightedTiers random
  = match drawIndex (map snd weightedTiers) random with
    | Some k => (fun tier => tier_id (fst tier)) <$> weightedTiers !! k
    | None => None
    end.
Proof.
  induction weightedTiers as [|[tier weight] rest IH]; intros random; [reflexivity|].
  cbn [tierDraw map snd drawIndex].
  destruct (Double.leb (Double.sub random weight) Double.zero); [reflexivity|].
  rewrite IH. destruct (drawIndex (map snd rest) _); reflexivity.
Qed.

Lemma variantDraw_index (availableVariants : list Variant) :
  forall random,
  variantDraw availableVariants random
  = match drawIndex (map (fun variant => Double.ofZ (variant_quota variant)) availableVariants)
                    random with
    | Some k => availableVariants !! k
    | None => None
    end.
Proof.
  induction availableVariants as [|variant rest IH]; intros random; [reflexivity|].
  cbn [variantDraw map drawIndex].
  destruct (Double.leb _ Double.zero); [reflexivity|].
  rewrite IH. destruct (drawIndex _ _); reflexivity.
Qed.

Lemma availableTiersOf_positive (remaining : list Tier) :
  Forall (fun tier => 0 < tier_quota tier) (availableTiersOf remaining).
Proof.
  apply List.Forall_forall. intros tier Hin.
  apply List.filter_In in Hin. destruct Hin as [_ H]. lia.
Qed.

Lemma availableVariantsOf_spec (targetTierId : string) (traitConfig : Trait) (variant : Variant) :
  List.In variant (availableVariantsOf targetTierId traitConfig) <->
  List.In variant (trait_variants traitConfig)
  /\ variant_tier variant = targetTierId /\ 0 < variant_quota variant.
Proof.
  unfold availableVariantsOf. rewrite List.filter_In, andb_true_iff, String.eqb_eq.
  intuition lia.
Qed.

Lemma availableVariantsOf_positive (targetTierId : string) (traitConfig : Trait) :
  Forall (fun variant => 0 < variant_quota variant) (availableVariantsOf targetTierId traitConfig).
Proof.
  apply List.Forall_forall. intros variant Hin.
  apply availableVariantsOf_spec in Hin. tauto.
Qed.

(** ** Reasoning about computations of [M] *)

Lemma bind_inr {A B} (m : M A) (k : A -> M B) (w w' : World) (b : B) :
  bind m k w = (inr b, w') ->
  exists a w1, m w = (inr a, w1) /\ k a w1 = (inr b, w').
Proof.
  unfold bind. destruct (m w) as [[e|a] w1]; intros H; [discriminate | eauto].
Qed.

Lemma bind_inl {A B} (m : M A) (k : A -> M B) (w w' : World) (e : Exn) :
  bind m k w = (inl e, w') ->
  m w = (inl e, w') \/ exists a w1, m w = (inr a, w1) /\ k a w1 = (inl e, w').
Proof.
  unfold bind. destruct (m w) as [[e1|a] w1]; intros H; [left; congruence | right; eauto].
Qed.

Lemma bind_eval {A B} (m : M A) (k : A -> M B) (w w1 : World) (a : A) :
  m w = (inr a, w1) -> bind m k w = k a w1.
Proof. unfold bind. intros ->. reflexivity. Qed.

Lemma bind_throws {A B} (m : M A) (k : A -> M B) (w w1 : World) (e : Exn) :
  m w = (inl e, w1) -> bind m k w = (inl e, w1).
Proof. unfold bind. intros ->. reflexivity. Qed.

Lemma nonNull_eval {A} (f : RarityEngine -> option A) (w : World) (a : A) :
  f (this w) = Some a -> nonNull f w = (inr a, w).
Proof. intros H. unfold nonNull, gets, bind. rewrite H. reflexivity. Qed.

Lemma nonNull_inr {A} (f : RarityEngine -> option A) (w w' : World) (a : A) :
  nonNull f w = (inr a, w') -> f (this w) = Some a /\ w' = w.
Proof.
  unfold nonNull, gets, bind. destruct (f (this w)); [|discriminate].
  intros [= <- <-]. split; reflexivity.
Qed.

Lemma seededRandom_eval (w : World) :
  seededRandom w = (inr (nextSeed (rngSeed (this w)) # 233280), advance w).
Proof. reflexivity. Qed.

Lemma selectTierWeighted_eval (w : World) (remaining : list Tier) :
  remainingTierQuotas (this w) = Some remaining ->
  selectTierWeighted w =
  match availableTiersOf remaining with
  | [] => (inl (Error "No available tiers with remaining quota"), w)
  | first :: _ =>
      let weightedTiers := weightTiers (availableTiersOf remaining) in
      (inr match tierDraw weightedTiers (drawn w (totalTierWeight weightedTiers)) with
           | Some id => id
           | None => tier_id first
           end, advance w)
  end.
Proof.
  intros Hrem. unfold selectTierWeighted, nonNull, gets, bind, ret, throw. rewrite Hrem.
  cbv beta iota zeta.
  destruct (availableTiersOf remaining) as [|first rest] eqn:Hav; [reflexivity|].
  rewrite seededRandom_eval. cbv beta iota zeta.
  fold (drawn w (totalTierWeight (weightTiers (first :: rest)))).
  destruct (tierDraw _ _); reflexivity.
Qed.

Lemma selectVariantForTrait_eval (targetTierId : string) (traitConfig : Trait) (w : World) :
  selectVariantForTrait targetTierId traitConfig w =
  match availableVariantsOf targetTierId traitConfig with
  | [] => (inl (Error ("No available variants for trait " +:+ trait_trait traitConfig
                       +:+ " in tier " +:+ targetTierId)), w)
  | first :: _ =>
      let availableVariants := availableVariantsOf targetTierId traitConfig in
      (inr {| sel_trait := trait_trait traitConfig;
              sel_variant :=
                match variantDraw availableVariants
                        (drawn w (totalVariantWeight availableVariants)) with
                | Some variant => variant
                | None => first
                end |}, advance w)
  end.
Proof.
  unfold selectVariantForTrait.
  destruct (availableVariantsOf targetTierId traitConfig) as [|first rest] eqn:Hav;
    [reflexivity|].
  unfold bind. rewrite seededRandom_eval. reflexivity.
Qed.

Lemma tierDraw_id_in (weightedTiers : list (Tier * Double.t)) (random : Double.t)
    (id : string) :
  tierDraw weightedTiers random = Some id ->
  exists tier weight, List.In (tier, weight) weightedTiers /\ id = tier_id tier.
Proof.
  revert random. induction weightedTiers as [|[tier weight] rest IH]; intros random; simpl.
  - discriminate.
  - destruct (Double.leb _ _).
    + intros [= <-]. eauto.
    + intros H. apply IH in H. destruct H as (t & wt & Hin & ->). eauto.
Qed.

Lemma variantDraw_in (availableVariants : list Variant) (random : Double.t)
    (variant : Variant) :
  variantDraw availableVariants random = Some variant -> List.In variant availableVariants.
Proof.
  revert random. induction availableVariants as [|v rest IH]; intros random; simpl.
  - discriminate.
  - destruct (Double.leb _ _).
    + intros [= <-]. auto.
    + intros H. apply IH in H. auto.
Qed.


(** ** The selectors *)

(** Whatever the draw, loop or fallback, [selectTierWeighted] returns a
    candidate after one call of [seededRandom]. *)
Lemma tier_selected (w : World) (remaining : list Tier) :
  remainingTierQuotas (this w) = Some remaining ->
  availableTiersOf remaining <> [] ->
  exists tier,
    List.In tier (availableTiersOf remaining)
    /\ selectTierWeighted w = (inr (tier_id tier), advance w).
Proof.
  intros Hrem Hne. rewrite (selectTierWeighted_eval w remaining Hrem).
  destruct (availableTiersOf remaining) as [|first rest] eqn:Hav; [congruence|].
  cbv zeta.
  destruct (tierDraw _ _) as [id|] eqn:Hdraw.
  - apply tierDraw_id_in in Hdraw. destruct Hdraw as (tier & weight & Hin & ->).
    unfold weightTiers in Hin. apply List.in_map_iff in Hin.
    destruct Hin as (t & [= -> _] & Hin). eauto.
  - exists first. split; [left; reflexivity | reflexivity].
Qed.

Lemma variant_selected (w : World) (targetTierId : string) (traitConfig : Trait) :
  availableVariantsOf targetTierId traitConfig <> [] ->
  exists variant,
    List.In variant (availableVariantsOf targetTierId traitConfig)
    /\ selectVariantForTrait targetTierId traitConfig w
       = (inr {| sel_trait := trait_trait traitConfig; sel_variant := variant |}, advance w).
Proof.
  intros Hne. rewrite selectVariantForTrait_eval.
  destruct (availableVariantsOf targetTierId traitConfig) as [|first rest] eqn:Hav;
    [congruence|].
  cbv zeta.
  destruct (variantDraw _ _) as [variant|] eqn:Hdraw.
  - apply variantDraw_in in Hdraw. eauto.
  - exists first. split; [left; reflexivity | reflexivity].
Qed.

(** The total weight of candidates whose quotas add up to at most [2^51] is
    the exact sum of their weights, which are integers. *)
Lemma totalTierWeight_exact (candidates : list Tier) :
  Forall (fun tier => 0 < tier_quota tier) candidates ->
  exactTierWeights candidates ->
  exists ns,
    integerWeights (map snd (weightTiers candidates)) ns
    /\ sumZ ns <= 2 ^ 53
    /\ totalTierWeight (weightTiers candidates) = Double.Finite (inject_Z (sumZ ns)).
Proof.
  intros Hpos Hexact.
  destruct (weightTiers_integer candidates Hpos Hexact) as (ns & Hns & Hle).
  unfold exactTierWeights in Hexact.
  assert (Hsum : sumZ ns <= 2 ^ 53).
  { change (2 ^ 53) with 9007199254740992. change (2 ^ 51) with 2251799813685248 in Hexact.
    lia. }
  exists ns. split; [exact Hns|]. split; [exact Hsum|].
  rewrite totalTierWeight_sum.
  apply (sum_integerWeights _ _ Hns 0); [lia | exact Hsum].
Qed.

Lemma totalVariantWeight_exact (candidates : list Variant) :
  Forall (fun variant => 0 < variant_quota variant) candidates ->
  exactVariantWeights candidates ->
  totalVariantWeight candidates
  = Double.Finite (inject_Z (sumZ (map variant_quota candidates))).
Proof.
  intros Hpos Hexact. rewrite totalVariantWeight_sum.
  apply (sum_integerWeights _ _ (variantWeights_integer candidates Hpos Hexact) 0);
    [lia | exact Hexact].
Qed.

(** With exact weights the loop of [selectTierWeighted] returns, and what the
    selector returns is the loop's choice. *)
Lemma tier_draw_chosen (w : World) (remaining : list Tier) :
  remainingTierQuotas (this w) = Some remaining ->
  availableTiersOf remaining <> [] ->
  exactTierWeights (availableTiersOf remaining) ->
  exists id,
    tierDraw (weightTiers (availableTiersOf remaining))
             (drawn w (totalTierWeight (weightTiers (availableTiersOf remaining)))) = Some id
    /\ selectTierWeighted w = (inr id, advance w).
Proof.
  intros Hrem Hne Hexact.
  destruct (totalTierWeight_exact _ (availableTiersOf_positive remaining) Hexact)
    as (ns & Hns & Hsum & Htotal).
  pose proof (sumZ_nonneg_all ns (integerWeights_nonneg _ _ Hns)) as H0.
  assert (Hdraw : exists id,
             tierDraw (weightTiers (availableTiersOf remaining))
               (drawn w (totalTierWeight (weightTiers (availableTiersOf remaining)))) = Some id).
  { rewrite tierDraw_index, Htotal. unfold drawn.
    destruct (draw_between (rngSeed (this w)) (sumZ ns)) as (x & -> & _ & Hx); [lia|].
    destruct (drawIndex_returns _ ns Hns (Double.Finite x)) as [k Hk].
    - unfold weightTiers. destruct (availableTiersOf remaining); [congruence | discriminate].
    - exact Hsum.
    - exact Hx.
    - rewrite Hk. destruct (drawIndex_first _ _ _ Hk) as (Hlen & _).
      rewrite length_map in Hlen.
      destruct (lookup_lt_is_Some_2 _ _ Hlen) as [t Ht]. rewrite Ht. simpl. eauto. }
  destruct Hdraw as [id Hid]. exists id. split; [exact Hid|].
  rewrite (selectTierWeighted_eval w remaining Hrem).
  destruct (availableTiersOf remaining) as [|first rest] eqn:Hav; [congruence|].
  cbv zeta. rewrite Hid. reflexivity.
Qed.

Lemma variant_draw_chosen (w : World) (targetTierId : string) (traitConfig : Trait) :
  availableVariantsOf targetTierId traitConfig <> [] ->
  exactVariantWeights (availableVariantsOf targetTierId traitConfig) ->
  exists variant,
    variantDraw (availableVariantsOf targetTierId traitConfig)
                (drawn w (totalVariantWeight (availableVariantsOf targetTierId traitConfig)))
    = Some variant
    /\ selectVariantForTrait targetTierId traitConfig w
       = (inr {| sel_trait := trait_trait traitConfig; sel_variant := variant |}, advance w).
Proof.
  intros Hne Hexact.
  pose proof (availableVariantsOf_positive targetTierId traitConfig) as Hpos.
  pose proof (variantWeights_integer _ Hpos Hexact) as Hns.
  pose proof (sumZ_nonneg_all _ (integerWeights_nonneg _ _ Hns)) as H0.
  assert (Hdraw : exists variant,
             variantDraw (availableVariantsOf targetTierId traitConfig)
               (drawn w (totalVariantWeight (availableVariantsOf targetTierId traitConfig)))
             = Some variant).
  { rewrite variantDraw_index, (totalVariantWeight_exact _ Hpos Hexact). unfold drawn.
    unfold exactVariantWeights in Hexact.
    destruct (draw_between (rngSeed (this w))
                (sumZ (map variant_quota (availableVariantsOf targetTierId traitConfig))))
      as (x & -> & _ & Hx); [lia|].
    destruct (drawIndex_returns _ _ Hns (Double.Finite x)) as [k Hk].
    - destruct (availableVariantsOf targetTierId traitConfig); [congruence | discriminate].
    - exact Hexact.
    - exact Hx.
    - rewrite Hk. destruct (drawIndex_first _ _ _ Hk) as (Hlen & _).
      rewrite length_map in Hlen.
      destruct (lookup_lt_is_Some_2 _ _ Hlen) as [v Hv]. rewrite Hv. eauto. }
  destruct Hdraw as [variant Hv]. exists variant. split; [exact Hv|].
  rewrite selectVariantForTrait_eval.
  destruct (availableVariantsOf targetTierId traitConfig) as [|first rest] eqn:Hav;
    [congruence|].
  cbv zeta. rewrite Hv. reflexivity.
Qed.

(** C10, as far as it holds: when the quotas of the candidates add up to at
    most [2^51] for tiers and [2^53] for variants, so that every weight and
    every sum of weights is an integer a double holds exactly, the
    subtraction loop of [selectTierWeighted] and the one of
    [selectVariantsForTier] return a candidate before they end, and what the
    selector returns is the loop's choice and not the fallback's. *)
Theorem fallback_unreachable_with_exact_weights
    (w : World) (remaining : list Tier) (targetTierId : string) (traitConfig : Trait) :
  (remainingTierQuotas (this w) = Some remaining ->
   availableTiersOf remaining <> [] ->
   exactTierWeights (availableTiersOf remaining) ->
   exists id,
     tierDraw (weightTiers (availableTiersOf remaining))
              (drawn w (totalTierWeight (weightTiers (availableTiersOf remaining)))) = Some id
     /\ selectTierWeighted w = (inr id, advance w))
  /\ (availableVariantsOf targetTierId traitConfig <> [] ->
      exactVariantWeights (availableVariantsOf targetTierId traitConfig) ->
      exists variant,
        variantDraw (availableVariantsOf targetTierId traitConfig)
                    (drawn w (totalVariantWeight (availableVariantsOf targetTierId traitConfig)))
        = Some variant
        /\ selectVariantForTrait targetTierId traitConfig w
           = (inr {| sel_trait := trait_trait traitConfig; sel_variant := variant |}, advance w)).
Proof.
  split; [apply tier_draw_chosen | apply variant_draw_chosen].
Qed.

Lemma fallback_unreachable_with_exact_weights_witness :
  let w := loaded sharedNamesConfig in
  let socks := {| trait_trait := "socks"; trait_variants := sampleVariants "V" "T5" 1 0 |} in
  remainingTierQuotas (this w) = Some [tierT5 1]
  /\ availableTiersOf [tierT5 1] <> []
  /\ exactTierWeights (availableTiersOf [tierT5 1])
  /\ availableVariantsOf "T5" socks <> []
  /\ exactVariantWeights (availableVariantsOf "T5" socks)
  /\ selectTierWeighted w = (inr "T5", advance w)
  /\ exists variant,
       selectVariantForTrait "T5" socks w
       = (inr {| sel_trait := "socks"; sel_variant := variant |}, advance w).
Proof.
  intros w socks.
  assert (Hrem : remainingTierQuotas (this w) = Some [tierT5 1]) by (vm_compute; reflexivity).
  assert (Ht : availableTiersOf [tierT5 1] <> []) by (vm_compute; discriminate).
  assert (Het : exactTierWeights (availableTiersOf [tierT5 1])) by (vm_compute; discriminate).
  assert (Hv : availableVariantsOf "T5" socks <> []) by (vm_compute; discriminate).
  assert (Hev : exactVariantWeights (availableVariantsOf "T5" socks))
    by (vm_compute; discriminate).
  destruct (fallback_unreachable_with_exact_weights w [tierT5 1] "T5" socks)
    as [Htier Hvariant].
  destruct (Htier Hrem Ht Het) as (id & Hid & Hsel).
  destruct (Hvariant Hv Hev) as (variant & _ & Hselv).
  split; [exact Hrem|]. split; [exact Ht|]. split; [exact Het|].
  split; [exact Hv|]. split; [exact Hev|]. split.
  - rewrite Hsel. f_equal. f_equal.
    apply tierDraw_id_in in Hid. destruct Hid as (tier & weight & Hin & ->).
    vm_compute in Hin. destruct Hin as [[= <- _]|[]]. reflexivity.
  - exists variant. exact Hselv.
Defined.

(** C10 fails as stated: with two candidates of quota [2^1023] the total
    weight is [Infinity], every running remainder is [Infinity], both loops
    end without choosing, and the selectors return the first candidate
    through the fallback. *)
Lemma fallback_reached_on_overflow :
  let w := loaded hugeConfig in
  let candidates := availableTiersOf (tiers hugeConfig) in
  let socks := {| trait_trait := "socks";
                  trait_variants := sampleVariants "socks_" "A" (2 ^ 1023) (2 ^ 1023) |} in
  let variants := availableVariantsOf "A" socks in
  fst (loadConfig hugeConfig newWorld) = inr tt
  /\ remainingTierQuotas (this w) = Some (tiers hugeConfig)
  /\ length candidates = 2%nat
  /\ totalTierWeight (weightTiers candidates) = Double.PosInf
  /\ tierDraw (weightTiers candidates) (drawn w (totalTierWeight (weightTiers candidates)))
     = None
  /\ fst (selectTierWeighted w) = inr "A"
  /\ length variants = 2%nat
  /\ totalVariantWeight variants = Double.PosInf
  /\ variantDraw variants (drawn w (totalVariantWeight variants)) = None
  /\ option_map (fun item => variant_name (sel_variant item))
                (match fst (selectVariantForTrait "A" socks w) with
                 | inr item => Some item
                 | inl _ => None
                 end)
     = Some "socks_0".
Proof.
  intros w candidates socks variants. repeat split; vm_compute; reflexivity.
Qed.

Lemma selectVariantForTrait_positive
    (targetTierId : string) (traitConfig : Trait) (w w' : World) (item : Selected) :
  selectVariantForTrait targetTierId traitConfig w = (inr item, w') ->
  w' = advance w
  /\ sel_trait item = trait_trait traitConfig
  /\ List.In (sel_variant item) (trait_variants traitConfig)
  /\ variant_tier (sel_variant item) = targetTierId
  /\ 0 < variant_quota (sel_variant item).
Proof.
  rewrite selectVariantForTrait_eval.
  destruct (availableVariantsOf targetTierId traitConfig) as [|first rest] eqn:Hav;
    [discriminate|].
  cbv zeta.
  pose proof (variantDraw_in (first :: rest) (drawn w (totalVariantWeight (first :: rest))))
    as Hin.
  destruct (variantDraw (first :: rest) _) as [variant|].
  - intros [= <- <-]. split; [reflexivity|]. split; [reflexivity|].
    apply availableVariantsOf_spec. rewrite Hav. apply Hin. reflexivity.
  - intros [= <- <-]. split; [reflexivity|]. split; [reflexivity|].
    apply availableVariantsOf_spec. rewrite Hav. left. reflexivity.
Qed.

Lemma sameQuotas_refl (w : World) : sameQuotas w w.
Proof. repeat split. Qed.

Lemma sameQuotas_trans (w1 w2 w3 : World) :
  sameQuotas w1 w2 -> sameQuotas w2 w3 -> sameQuotas w1 w3.
Proof.
  intros (H1 & H2 & H3 & H4 & H5) (K1 & K2 & K3 & K4 & K5).
  repeat split; congruence.
Qed.

Lemma sameQuotas_advance (w : World) : sameQuotas w (advance w).
Proof. repeat split. Qed.

Lemma selectVariantsFrom_positive (targetTierId : string) (remaining : list Trait) :
  forall (selected : list Selected) (w w' : World) (selectedVariants : list Selected),
  selectVariantsFrom targetTierId remaining selected w = (inr selectedVariants, w') ->
  sameQuotas w w'
  /\ exists new, selectedVariants = selected ++ new
     /\ Forall2 (fun item traitConfig =>
                   sel_trait item = trait_trait traitConfig
                   /\ List.In (sel_variant item) (trait_variants traitConfig)
                   /\ variant_tier (sel_variant item) = targetTierId
                   /\ 0 < variant_quota (sel_variant item)) new remaining.
Proof.
  induction remaining as [|traitConfig rest IH]; intros selected w w' selectedVariants; simpl.
  - intros [= <- <-]. split; [apply sameQuotas_refl|].
    exists []. split; [by rewrite app_nil_r | constructor].
  - intros H. apply bind_inr in H. destruct H as (item & w1 & Hitem & Hrest).
    apply selectVariantForTrait_positive in Hitem. destruct Hitem as (-> & Hitem).
    apply IH in Hrest. destruct Hrest as (Hsame & new & -> & Hall).
    split; [eapply sameQuotas_trans; [apply sameQuotas_advance | exact Hsame]|].
    exists (item :: new). split; [by rewrite <- app_assoc | by constructor].
Qed.

Lemma selectVariantsForTier_inv
    (targetTierId : string) (w w' : World) (selectedVariants : list Selected) :
  selectVariantsForTier targetTierId w = (inr selectedVariants, w') ->
  exists remaining,
    remainingVariantQuotas (this w) = Some remaining
    /\ sameQuotas w w'
    /\ Forall2 (fun item traitConfig =>
                  sel_trait item = trait_trait traitConfig
                  /\ List.In (sel_variant item) (availableVariantsOf targetTierId traitConfig))
               selectedVariants remaining.
Proof.
  unfold selectVariantsForTier. intros H.
  apply bind_inr in H. destruct H as (remaining & w1 & Hget & Hsel).
  apply nonNull_inr in Hget. destruct Hget as [Hrem ->].
  apply selectVariantsFrom_positive in Hsel.
  destruct Hsel as (Hsame & new & -> & Hall).
  exists remaining. split; [exact Hrem|]. split; [exact Hsame|].
  eapply Forall2_impl; [exact Hall|].
  intros item traitConfig (Ht & Hin & Htier & Hq). split; [exact Ht|].
  apply availableVariantsOf_spec. auto.
Qed.


(** Every entry [selectVariantsForTier] returns, whether the loop or the
    fallback after it chose it, is a variant of its category tagged for the
    target tier whose remaining quota is above 0 in the quota state the
    selector read, a state the selection leaves as it is. *)
Lemma selectVariantsForTier_positive_quota
    (targetTierId : string) (w w' : World) (selectedVariants : list Selected) :
  selectVariantsForTier targetTierId w = (inr selectedVariants, w') ->
  exists remaining,
    remainingVariantQuotas (this w) = Some remaining
    /\ remainingVariantQuotas (this w') = Some remaining
    /\ Forall2 (fun item traitConfig =>
                  sel_trait item = trait_trait traitConfig
                  /\ List.In (sel_variant item) (trait_variants traitConfig)
                  /\ variant_tier (sel_variant item) = targetTierId
                  /\ 0 < variant_quota (sel_variant item)) selectedVariants remaining.
Proof.
  unfold selectVariantsForTier. intros H.
  apply bind_inr in H. destruct H as (remaining & w1 & Hget & Hsel).
  apply nonNull_inr in Hget. destruct Hget as [Hrem ->].
  apply selectVariantsFrom_positive in Hsel.
  destruct Hsel as ((_ & _ & Hq & _) & new & -> & Hall).
  exists remaining. split; [exact Hrem|]. split; [congruence | exact Hall].
Qed.

Lemma selectVariantsForTier_positive_quota_witness :
  exists selectedVariants w',
    selectVariantsForTier "T5" (loaded sharedNamesConfig) = (inr selectedVariants, w')
    /\ Forall (fun item => 0 < variant_quota (sel_variant item)) selectedVariants.
Proof.
  assert (Hok : exists s, fst (selectVariantsForTier "T5" (loaded sharedNamesConfig)) = inr s)
    by (vm_compute; eexists; reflexivity).
  destruct Hok as [s Hok].
  destruct (selectVariantsForTier "T5" (loaded sharedNamesConfig))
    as [[e|selectedVariants] w'] eqn:Hsel; [discriminate|].
  exists selectedVariants, w'. split; [reflexivity|].
  destruct (selectVariantsForTier_positive_quota "T5" _ _ _ Hsel) as (remaining & _ & _ & Hall).
  clear Hsel Hok. induction Hall as [|item traitConfig l l' Hitem _ IH]; constructor.
  - tauto.
  - exact IH.
Defined.

Lemma weightTiers_lookup (candidates : list Tier) (k : nat) :
  weightTiers candidates !! k = (fun tier => (tier, tierWeight tier)) <$> candidates !! k.
Proof. unfold weightTiers. apply list_lookup_fmap. Qed.

(** The model of double arithmetic against the Standard Library's
    specification of IEEE 754, where rounding decides the weight: at the
    quotas whose exact product with the multiplier is an integer.  The
    weight [Math.floor(quota * 0.7)] for every multiple of 10 up to 10000,
    and the weights of the other multipliers for every multiple of 5 up to
    500, are the same in both. *)
Lemma tier_weights_agree_with_SpecFloat :
  forallb (fun quota =>
             Double.eqb (Double.floor (Double.mul (Double.ofZ quota) (Double.round (7 # 10))))
                        (Double.floor (Double.ofSpec
                           (SFmul 53 1024 (Double.specOfZ quota) (Double.specRatio 7 10)))))
          (map (fun k => 10 * Z.of_nat k) (seq 1 1000))
  = true
  /\ forallb (fun quota =>
                forallb (fun tenths =>
                           Double.eqb
                             (Double.floor (Double.mul (Double.ofZ quota)
                                                       (Double.round (tenths # 10))))
                             (Double.floor (Double.ofSpec
                                (SFmul 53 1024 (Double.specOfZ quota)
                                       (Double.specRatio tenths 10)))))
                        [5; 12; 18; 25])
             (map (fun k => 5 * Z.of_nat k) (seq 1 100))
     = true.
Proof. split; vm_compute; reflexivity. Qed.




(** At a tie the draw is the rounded product: the exact product of the draw
    [150336 / 233280] and the total 45 is 29, the double product is
    29.000000000000004, and the loop passes a first candidate of quota 29
    that an exact draw would have chosen. *)
Lemma draw_is_rounded_at_a_tie :
  let w := {| this := set_rngSeed 95219 constructor; console := [] |} in
  let first := {| variant_name := "a"; variant_tier := "T5"; variant_points := 25;
                  variant_quota := 29 |} in
  let second := {| variant_name := "b"; variant_tier := "T5"; variant_points := 25;
                   variant_quota := 16 |} in
  nextSeed (rngSeed (this w)) = 150336
  /\ ((150336 # 233280) * 45 == 29)%Q
  /\ totalVariantWeight [first; second] = Double.Finite 45
  /\ drawn w (totalVariantWeight [first; second])
     = Double.Finite (8162774324609025 # 281474976710656)
  /\ variantDraw [first; second] (drawn w (totalVariantWeight [first; second])) = Some second.
Proof.
  intros w first second. repeat split; vm_compute; reflexivity.
Qed.

(** ** Completion validation *)

Lemma find_sameTier (configured remaining : list Tier) :
  Forall2 sameTier configured remaining ->
  Forall (fun tier => exists t,
            List.find (fun t => String.eqb (tier_id t) (tier_id tier)) configured = Some t)
         remaining.
Proof.
  intros H. apply List.Forall_forall. intros tier Hin.
  assert (Hex : exists t, List.In t configured /\ tier_id t = tier_id tier).
  { clear -H Hin. induction H as [|a b l l' Hab _ IH]; [destruct Hin|].
    destruct Hin as [<-|Hin].
    - exists a. split; [left; reflexivity | apply Hab].
    - destruct (IH Hin) as (t & Ht & Hid). exists t. split; [right; exact Ht | exact Hid]. }
  destruct Hex as (t & Ht & Hid).
  destruct (List.find _ configured) as [t'|] eqn:Hfind; [eauto|].
  exfalso. eapply List.find_none in Hfind; [|exact Ht].
  simpl in Hfind. apply String.eqb_neq in Hfind. congruence.
Qed.

Lemma tierStatusOf_returns (c : Config) (remaining : list Tier) (w : World) :
  Forall (fun tier => exists t,
            List.find (fun t => String.eqb (tier_id t) (tier_id tier)) (tiers c) = Some t)
         remaining ->
  exists status, tierStatusOf c remaining w = (inr status, w).
Proof.
  induction 1 as [|tier rest [t Ht] _ [status IH]]; simpl.
  - eauto.
  - rewrite Ht. unfold bind. rewrite IH. eauto.
Qed.

Lemma getGenerationStatus_eval (w : World) (c : Config) (remaining : list Tier) :
  config (this w) = Some c ->
  remainingTierQuotas (this w) = Some remaining ->
  Forall2 sameTier (tiers c) remaining ->
  exists status,
    getGenerationStatus w = (inr status, w)
    /\ totalRemaining status = totalRemainingOf remaining.
Proof.
  intros Hc Hrem Hsame.
  destruct (tierStatusOf_returns c remaining w (find_sameTier _ _ Hsame)) as [ts Hts].
  unfold getGenerationStatus, nonNull, gets, bind, ret. rewrite Hrem, Hc.
  cbv beta iota zeta. rewrite Hts. eexists. split; reflexivity.
Qed.

Lemma checkVariantsZero_clean (remaining : list Trait) (w : World) :
  Forall (fun trait => positiveVariants trait = []) remaining ->
  checkVariantsZero remaining w = (inr tt, w).
Proof.
  induction 1 as [|trait rest Hz _ IH]; simpl; [reflexivity|].
  fold (positiveVariants trait). rewrite Hz. simpl. exact IH.
Qed.

Lemma positive_length {A} (l : list A) : l <> [] -> (0 <? Z.of_nat (length l)) = true.
Proof. destruct l; [congruence|]. intros _. apply Z.ltb_lt. simpl length. lia. Qed.

Lemma checkVariantsZero_first (before after : list Trait) (trait : Trait) (w : World) :
  Forall (fun trait => positiveVariants trait = []) before ->
  positiveVariants trait <> [] ->
  checkVariantsZero (before ++ trait :: after) w =
  (inl (Error ("Trait " +:+ trait_trait trait +:+ " has variants with remaining quota: "
               +:+ JS.join ", " (map variant_name (positiveVariants trait)))), w).
Proof.
  intros Hbefore Hpos. induction Hbefore as [|t rest Hz _ IH]; simpl.
  - fold (positiveVariants trait). rewrite (positive_length _ Hpos). reflexivity.
  - fold (positiveVariants t). rewrite Hz. simpl. exact IH.
Qed.

Lemma checkVariantsZero_inv (remaining : list Trait) (w w' : World) :
  checkVariantsZero remaining w = (inr tt, w') ->
  Forall (fun trait => positiveVariants trait = []) remaining.
Proof.
  induction remaining as [|trait rest IH]; simpl; [constructor|].
  fold (positiveVariants trait).
  destruct (positiveVariants trait) as [|v l] eqn:Hpos.
  - simpl. intros H. constructor; [exact Hpos | apply IH, H].
  - rewrite positive_length; [discriminate | congruence].
Qed.

Lemma filter_nil_iff {A} (p : A -> bool) (l : list A) :
  List.filter p l = [] <-> Forall (fun x => p x = false) l.
Proof.
  induction l as [|x l IH]; simpl.
  - split; [constructor | reflexivity].
  - destruct (p x) eqn:Hp.
    + split; [discriminate | intros H; inversion H; congruence].
    + rewrite IH. split; [intros H; constructor; assumption | intros H; inversion H; assumption].
Qed.

Lemma totalRemainingOf_from (l : list Tier) (a : Z) :
  fold_left (fun sum tier => sum + tier_quota tier) l a = a + totalRemainingOf l.
Proof.
  unfold totalRemainingOf. revert a.
  induction l as [|x l IH]; intros a; simpl; [lia|].
  rewrite IH, (IH (0 + tier_quota x)). lia.
Qed.

Lemma totalRemainingOf_cons (x : Tier) (l : list Tier) :
  totalRemainingOf (x :: l) = tier_quota x + totalRemainingOf l.
Proof. unfold totalRemainingOf at 1. simpl. apply totalRemainingOf_from. Qed.

Lemma totalRemainingOf_zero (l : list Tier) :
  Forall (fun tier => tier_quota tier = 0) l -> totalRemainingOf l = 0.
Proof.
  induction 1 as [|x l Hx _ IH]; [reflexivity|]. rewrite totalRemainingOf_cons. lia.
Qed.

Lemma totalRemainingOf_nonneg_zero (l : list Tier) :
  Forall (fun tier => 0 <= tier_quota tier) l -> totalRemainingOf l = 0 ->
  Forall (fun tier => tier_quota tier = 0) l.
Proof.
  induction 1 as [|x l Hx Hl IH]; [constructor|]. rewrite totalRemainingOf_cons.
  assert (0 <= totalRemainingOf l).
  { clear -Hl. induction Hl as [|y l Hy _ IH]; [reflexivity|].
    rewrite totalRemainingOf_cons. lia. }
  intros Hsum. constructor; [lia | apply IH; lia].
Qed.

(** What [validateFinalGeneration] does, case by case. *)
Lemma validateFinalGeneration_eval
    (w : World) (c : Config) (remainingTiers : list Tier) (remainingVariants : list Trait) :
  config (this w) = Some c ->
  remainingTierQuotas (this w) = Some remainingTiers ->
  remainingVariantQuotas (this w) = Some remainingVariants ->
  Forall2 sameTier (tiers c) remainingTiers ->
  validateFinalGeneration w =
  if negb (totalRemainingOf remainingTiers =? 0)
  then (inl (Error ("Generation incomplete: " +:+ pretty (totalRemainingOf remainingTiers)
                    +:+ " NFTs remaining")), w)
  else if 0 <? Z.of_nat (length (positiveTiers remainingTiers))
  then (inl (Error ("Tiers with remaining quota: "
                    +:+ JS.join ", " (map tier_id (positiveTiers remainingTiers)))), w)
  else match checkVariantsZero remainingVariants w with
       | (inl e, w') => (inl e, w')
       | (inr _, w') => (inr true, w')
       end.
Proof.
  intros Hc Hrt Hrv Hsame.
  destruct (getGenerationStatus_eval w c remainingTiers Hc Hrt Hsame) as (status & Hst & Htotal).
  unfold validateFinalGeneration. rewrite (bind_eval _ _ _ _ _ Hst). rewrite Htotal.
  destruct (negb (totalRemainingOf remainingTiers =? 0)); [reflexivity|].
  rewrite (bind_eval _ _ _ _ _ (nonNull_eval _ _ _ Hrt)).
  fold (positiveTiers remainingTiers).
  destruct (0 <? Z.of_nat (length (positiveTiers remainingTiers))); [reflexivity|].
  rewrite (bind_eval _ _ _ _ _ (nonNull_eval _ _ _ Hrv)).
  unfold bind, ret.
  destruct (checkVariantsZero remainingVariants w) as [[e|[]] w']; reflexivity.
Qed.

(** C7, as the code has it: a nonzero sum of the remaining tier counters is
    reported as a count and names no tier; with a zero sum the tiers whose
    counter is positive are listed; otherwise the first category that has a
    variant with a positive counter is reported with those variants of that
    category; otherwise the validator returns true.  With counters that are
    not negative it returns true exactly when every counter is zero, and one
    variant left at 1 with everything else at zero raises the error that
    names that variant. *)
Theorem validateFinalGeneration_outcomes
    (w : World) (c : Config) (remainingTiers : list Tier) (remainingVariants : list Trait) :
  config (this w) = Some c ->
  remainingTierQuotas (this w) = Some remainingTiers ->
  remainingVariantQuotas (this w) = Some remainingVariants ->
  Forall2 sameTier (tiers c) remainingTiers ->
  (totalRemainingOf remainingTiers <> 0 ->
   validateFinalGeneration w =
   (inl (Error ("Generation incomplete: " +:+ pretty (totalRemainingOf remainingTiers)
                +:+ " NFTs remaining")), w))
  /\ (totalRemainingOf remainingTiers = 0 -> positiveTiers remainingTiers <> [] ->
      validateFinalGeneration w =
      (inl (Error ("Tiers with remaining quota: "
                   +:+ JS.join ", " (map tier_id (positiveTiers remainingTiers)))), w))
  /\ (totalRemainingOf remainingTiers = 0 -> positiveTiers remainingTiers = [] ->
      forall before trait after,
        remainingVariants = before ++ trait :: after ->
        Forall (fun t => positiveVariants t = []) before ->
        positiveVariants trait <> [] ->
        validateFinalGeneration w =
        (inl (Error ("Trait " +:+ trait_trait trait +:+ " has variants with remaining quota: "
                     +:+ JS.join ", " (map variant_name (positiveVariants trait)))), w))
  /\ (validateFinalGeneration w = (inr true, w) <->
      totalRemainingOf remainingTiers = 0
      /\ Forall (fun tier => tier_quota tier <= 0) remainingTiers
      /\ Forall (fun t => Forall (fun v => variant_quota v <= 0) (trait_variants t))
                remainingVariants)
  /\ (Forall (fun tier => 0 <= tier_quota tier) remainingTiers ->
      Forall (fun t => Forall (fun v => 0 <= variant_quota v) (trait_variants t))
             remainingVariants ->
      (validateFinalGeneration w = (inr true, w) <->
       Forall (fun tier => tier_quota tier = 0) remainingTiers
       /\ Forall (fun t => Forall (fun v => variant_quota v = 0) (trait_variants t))
                 remainingVariants))
  /\ (Forall (fun tier => tier_quota tier = 0) remainingTiers ->
      forall before trait after vbefore variant vafter,
        remainingVariants = before ++ trait :: after ->
        trait_variants trait = vbefore ++ variant :: vafter ->
        variant_quota variant = 1 ->
        Forall (fun v => variant_quota v = 0) (vbefore ++ vafter) ->
        Forall (fun t => Forall (fun v => variant_quota v = 0) (trait_variants t))
               (before ++ after) ->
        validateFinalGeneration w =
        (inl (Error ("Trait " +:+ trait_trait trait +:+ " has variants with remaining quota: "
                     +:+ variant_name variant)), w)).
Proof.
  intros Hc Hrt Hrv Hsame.
  pose proof (validateFinalGeneration_eval w c remainingTiers remainingVariants Hc Hrt Hrv Hsame)
    as Heval.
  assert (Htiers0 : positiveTiers remainingTiers = [] <->
                    Forall (fun tier => tier_quota tier <= 0) remainingTiers).
  { unfold positiveTiers. rewrite filter_nil_iff. apply Forall_iff. intros tier. lia. }
  assert (Hvars0 : forall t, positiveVariants t = [] <->
                             Forall (fun v => variant_quota v <= 0) (trait_variants t)).
  { intros t. unfold positiveVariants. rewrite filter_nil_iff. apply Forall_iff. intros v. lia. }
  assert (Hthird : totalRemainingOf remainingTiers = 0 -> positiveTiers remainingTiers = [] ->
      forall before trait after,
        remainingVariants = before ++ trait :: after ->
        Forall (fun t => positiveVariants t = []) before ->
        positiveVariants trait <> [] ->
        validateFinalGeneration w =
        (inl (Error ("Trait " +:+ trait_trait trait +:+ " has variants with remaining quota: "
                     +:+ JS.join ", " (map variant_name (positiveVariants trait)))), w)).
  { intros Hsum Hpos before trait after -> Hbefore Htrait.
    rewrite Heval, Hsum, Hpos. simpl.
    rewrite (checkVariantsZero_first before after trait w Hbefore Htrait). reflexivity. }
  assert (Hfourth : validateFinalGeneration w = (inr true, w) <->
      totalRemainingOf remainingTiers = 0
      /\ Forall (fun tier => tier_quota tier <= 0) remainingTiers
      /\ Forall (fun t => Forall (fun v => variant_quota v <= 0) (trait_variants t))
                remainingVariants).
  { rewrite Heval. split.
    - destruct (totalRemainingOf remainingTiers =? 0) eqn:Hsum; simpl; [|discriminate].
      destruct (positiveTiers remainingTiers) as [|t l] eqn:Hpos;
        [|rewrite positive_length; [discriminate | congruence]].
      simpl.
      destruct (checkVariantsZero remainingVariants w) as [[e|[]] w'] eqn:Hcheck; [discriminate|].
      intros _. apply checkVariantsZero_inv in Hcheck.
      split; [lia|]. split; [apply Htiers0; reflexivity|].
      eapply Forall_impl; [exact Hcheck|]. intros t. apply Hvars0.
    - intros (Hsum & Ht & Hv). rewrite Hsum. simpl.
      apply Htiers0 in Ht. rewrite Ht. simpl.
      rewrite checkVariantsZero_clean; [reflexivity|].
      eapply Forall_impl; [exact Hv|]. intros t. apply Hvars0. }
  split; [|split; [|split; [exact Hthird|split; [exact Hfourth|split]]]].
  - intros Hsum. rewrite Heval.
    destruct (totalRemainingOf remainingTiers =? 0) eqn:Hz; [lia | reflexivity].
  - intros Hsum Hpos. rewrite Heval, Hsum. simpl.
    rewrite (positive_length _ Hpos). reflexivity.
  - intros Ht Hv. rewrite Hfourth. split.
    + intros (Hsum & Hle & Hvle). split.
      * apply totalRemainingOf_nonneg_zero; assumption.
      * apply Forall_forall. intros t Hin. apply Forall_forall. intros v Hvin.
        rewrite Forall_forall in Hv, Hvle.
        specialize (Hv t Hin). specialize (Hvle t Hin).
        rewrite Forall_forall in Hv, Hvle.
        specialize (Hv v Hvin). specialize (Hvle v Hvin). simpl in *. lia.
    + intros (Hz & Hvz). split; [apply totalRemainingOf_zero, Hz|]. split.
      * eapply Forall_impl; [exact Hz|]. intros tier. simpl. lia.
      * eapply Forall_impl; [exact Hvz|]. intros t Hall.
        eapply Forall_impl; [exact Hall|]. intros v. simpl. lia.
  - intros Hz before trait after vbefore variant vafter Hsplit Hvsplit Hone Hrest Hothers.
    assert (Hposv : positiveVariants trait = [variant]).
    { unfold positiveVariants. rewrite Hvsplit, List.filter_app. simpl.
      apply Forall_app in Hrest. destruct Hrest as [Hb Ha].
      assert (Hnil : forall l, Forall (fun v => variant_quota v = 0) l ->
                               List.filter (fun v => 0 <? variant_quota v) l = []).
      { intros l Hl. apply filter_nil_iff. eapply Forall_impl; [exact Hl|].
        intros v Hv. simpl in Hv. rewrite Hv. reflexivity. }
      rewrite (Hnil _ Hb), (Hnil _ Ha), Hone. reflexivity. }
    apply Forall_app in Hothers. destruct Hothers as [Hb _].
    rewrite (Hthird (totalRemainingOf_zero _ Hz)) with (before := before) (trait := trait)
                                                        (after := after).
    + rewrite Hposv. reflexivity.
    + apply Htiers0. eapply Forall_impl; [exact Hz|]. intros tier. simpl. lia.
    + exact Hsplit.
    + eapply Forall_impl; [exact Hb|]. intros t Hall. apply Hvars0.
      eapply Forall_impl; [exact Hall|]. intros v. simpl. lia.
    + rewrite Hposv. discriminate.
Qed.


Lemma validateFinalGeneration_outcomes_witness :
  let w := afterOne surplusConfig in
  (exists remainingVariants,
     config (this w) = Some surplusConfig
     /\ remainingTierQuotas (this w) = Some [tierT5 0]
     /\ remainingVariantQuotas (this w) = Some remainingVariants
     /\ Forall2 sameTier (tiers surplusConfig) [tierT5 0])
  /\ validateFinalGeneration w
     = (inl (Error "Trait socks has variants with remaining quota: socks_0"), w).
Proof.
  intros w.
  destruct (remainingVariantQuotas (this w)) as [remainingVariants|] eqn:Hrv;
    [|vm_compute in Hrv; discriminate].
  assert (Hc : config (this w) = Some surplusConfig) by (vm_compute; reflexivity).
  assert (Hrt : remainingTierQuotas (this w) = Some [tierT5 0]) by (vm_compute; reflexivity).
  assert (Hsame : Forall2 sameTier (tiers surplusConfig) [tierT5 0]).
  { constructor; [|constructor]. repeat split. }
  split; [exists remainingVariants; auto|].
  destruct (validateFinalGeneration_outcomes w surplusConfig [tierT5 0] remainingVariants
              Hc Hrt Hrv Hsame) as (_ & _ & _ & _ & _ & Hone).
  vm_compute in Hrv. injection Hrv as <-.
  match type of Hone with
  | _ -> forall before trait after vbefore variant vafter, ?l = _ -> _ =>
      match l with
      | ?socks :: ?others =>
          match socks with
          | {| trait_trait := _; trait_variants := ?v0 :: ?vs |} =>
              specialize (Hone ltac:(repeat constructor) [] socks others [] v0 vs
                               eq_refl eq_refl eq_refl)
          end
      end
  end.
  apply Hone.
  - repeat constructor.
  - repeat constructor.
Defined.

(** C7 fails as stated: with one item of tier T5 still to generate, and
    variants of every category unused, the error gives the count alone and
    names neither the tier nor a variant. *)
Lemma validateFinalGeneration_names_no_tier :
  let w := loaded surplusConfig in
  option_map (map (fun tier => (tier_id tier, tier_quota tier))) (remainingTierQuotas (this w))
  = Some [("T5", 1)]
  /\ option_map (map (fun t => map variant_name (positiveVariants t)))
                (remainingVariantQuotas (this w))
     = Some [["socks_0"; "socks_1"]; ["shoes_0"]; ["pants_0"]; ["shirt_0"]; ["face_0"]; ["hat_0"]]
  /\ fst (validateFinalGeneration w) = inl (Error "Generation incomplete: 1 NFTs remaining")
  /\ mentions "Generation incomplete: 1 NFTs remaining" "T5" = false
  /\ mentions "Generation incomplete: 1 NFTs remaining" "socks_0" = false.
Proof.
  intros w. repeat split; vm_compute; reflexivity.
Qed.

(** ** Frame conditions *)

Section Frame.

Context (R : World -> World -> Prop) `{!PreOrder R}.

Lemma respects_ret {A} (a : A) : respects R (ret a).
Proof. intros w. reflexivity. Qed.

Lemma respects_throw {A} (e : Exn) : respects R (@throw A e).
Proof. intros w. reflexivity. Qed.

Lemma respects_lift {A} (r : Exn + A) : respects R (lift r).
Proof. destruct r; [apply respects_throw | apply respects_ret]. Qed.

Lemma respects_gets {A} (f : RarityEngine -> A) : respects R (gets f).
Proof. intros w. reflexivity. Qed.

Lemma respects_bind {A B} (m : M A) (k : A -> M B) :
  respects R m -> (forall a, respects R (k a)) -> respects R (bind m k).
Proof.
  intros Hm Hk w. unfold bind. specialize (Hm w).
  destruct (m w) as [[e|a] w1]; simpl in *; [exact Hm|].
  etransitivity; [exact Hm | apply Hk].
Qed.

Lemma respects_try_catch {A} (m : M A) (h : Exn -> M A) :
  respects R m -> (forall e, respects R (h e)) -> respects R (try_catch m h).
Proof.
  intros Hm Hh w. unfold try_catch. specialize (Hm w).
  destruct (m w) as [[e|a] w1]; simpl in *; [|exact Hm].
  etransitivity; [exact Hm | apply Hh].
Qed.

Lemma respects_nonNull {A} (f : RarityEngine -> option A) : respects R (nonNull f).
Proof.
  unfold nonNull. apply respects_bind; [apply respects_gets|].
  intros [a|]; [apply respects_ret | apply respects_throw].
Qed.

Lemma forEach_from_respects {A} (f : JS.Value -> nat -> A -> M A) (l : list JS.Value) :
  (forall x i acc, respects R (f x i acc)) ->
  forall index acc, respects R (forEach_from f l index acc).
Proof.
  intros Hf. induction l as [|x rest IH]; intros index acc; simpl.
  - apply respects_ret.
  - apply respects_bind; [apply Hf | intros a; apply IH].
Qed.

Lemma forEach_respects {A} (v : JS.Value) (f : JS.Value -> nat -> A -> M A) (acc : A) :
  (forall x i acc, respects R (f x i acc)) -> respects R (forEach v f acc).
Proof.
  intros Hf. destruct v; simpl; try apply respects_throw.
  apply forEach_from_respects; assumption.
Qed.

End Frame.

Ltac frame_step :=
  match goal with
  | |- respects _ (ret _) => apply respects_ret; exact _
  | |- respects _ (throw _) => apply respects_throw; exact _
  | |- respects _ (lift _) => apply respects_lift; exact _
  | |- respects _ (gets _) => apply respects_gets; exact _
  | |- respects _ (nonNull _) => apply respects_nonNull; exact _
  | |- respects _ (bind _ _) => apply respects_bind; [exact _ | | intros ?]
  | |- respects _ (try_catch _ _) => apply respects_try_catch; [exact _ | | intros ?]
  | |- respects _ (match ?x with _ => _ end) => destruct x
  | H : respects ?R ?m |- respects ?R ?m => exact H
  end.

Ltac frame := repeat frame_step.

#[local] Instance sameEngine_preorder : PreOrder sameEngine.
Proof. split; [intros w; reflexivity | intros w1 w2 w3; unfold sameEngine; congruence]. Qed.

#[local] Instance sameConsole_preorder : PreOrder sameConsole.
Proof. split; [intros w; reflexivity | intros w1 w2 w3; unfold sameConsole; congruence]. Qed.

Lemma warn_sameEngine (line : string) : respects sameEngine (warn line).
Proof. intros w. reflexivity. Qed.

Lemma modify_sameConsole (f : RarityEngine -> RarityEngine) : respects sameConsole (modify f).
Proof. intros w. reflexivity. Qed.

Lemma validateTier_sameEngine tier index total : respects sameEngine (validateTier tier index total).
Proof. unfold validateTier. frame; apply warn_sameEngine. Qed.

Lemma validateVariant_sameEngine traitIndex variant variantIndex total :
  respects sameEngine (validateVariant traitIndex variant variantIndex total).
Proof. unfold validateVariant. frame; apply warn_sameEngine. Qed.

Lemma validateTrait_sameEngine collectionSize trait traitIndex u :
  respects sameEngine (validateTrait collectionSize trait traitIndex u).
Proof.
  unfold validateTrait. frame; try apply warn_sameEngine.
  apply forEach_respects; [exact _|]. intros. apply validateVariant_sameEngine.
Qed.

(** [validateConfig] writes warnings and nothing else. *)
Lemma validateConfig_sameEngine (config : JS.Value) : respects sameEngine (validateConfig config).
Proof.
  unfold validateConfig. frame; try apply warn_sameEngine.
  - apply forEach_respects; [exact _|]. intros. apply validateTier_sameEngine.
  - apply forEach_respects; [exact _|]. intros. apply validateTrait_sameEngine.
Qed.

#[local] Instance sameTier_equiv : Equivalence sameTier.
Proof.
  unfold sameTier. split.
  - intros a. auto.
  - intros a b (H1 & H2 & H3). auto.
  - intros a b c (H1 & H2 & H3) (K1 & K2 & K3). repeat split; congruence.
Qed.

#[local] Instance sameVariant_equiv : Equivalence sameVariant.
Proof.
  unfold sameVariant. split.
  - intros a. auto.
  - intros a b (H1 & H2 & H3). auto.
  - intros a b c (H1 & H2 & H3) (K1 & K2 & K3). repeat split; congruence.
Qed.

#[local] Instance sameTrait_equiv : Equivalence sameTrait.
Proof.
  unfold sameTrait. split.
  - intros a. split; reflexivity.
  - intros a b (H1 & H2). split; [congruence | symmetry; exact H2].
  - intros a b c (H1 & H2) (K1 & K2). split; [congruence | etransitivity; eassumption].
Qed.

#[local] Instance evolves_preorder : PreOrder evolves.
Proof.
  unfold evolves. split.
  - intros w. repeat split; reflexivity.
  - intros w1 w2 w3 (H1 & H2 & H3 & H4 & H5) (K1 & K2 & K3 & K4 & K5).
    repeat split; try congruence; etransitivity; eassumption.
Qed.

Lemma sameEngine_evolves (w w' : World) : sameEngine w w' -> evolves w w'.
Proof. unfold sameEngine, evolves. intros ->. repeat split; reflexivity. Qed.

Lemma warn_evolves (line : string) : respects evolves (warn line).
Proof. intros w. apply sameEngine_evolves, warn_sameEngine. Qed.

Lemma seededRandom_evolves : respects evolves seededRandom.
Proof. intros w. simpl. repeat split; reflexivity. Qed.

Lemma seededRandom_sameConsole : respects sameConsole seededRandom.
Proof. intros w. reflexivity. Qed.

Lemma insert_sameTier (remaining : list Tier) (i : nat) (tier : Tier) :
  remaining !! i = Some tier -> Forall2 sameTier remaining (<[i := decTier tier]> remaining).
Proof.
  revert i. induction remaining as [|x rest IH]; intros [|i] H; simpl in *; try discriminate.
  - injection H as ->. constructor; [repeat split | reflexivity].
  - constructor; [reflexivity | apply IH, H].
Qed.

Lemma insert_sameVariant (variants : list Variant) (j : nat) (variant : Variant) :
  variants !! j = Some variant ->
  Forall2 sameVariant variants (<[j := decVariant variant]> variants).
Proof.
  revert j. induction variants as [|x rest IH]; intros [|j] H; simpl in *; try discriminate.
  - injection H as ->. constructor; [repeat split | reflexivity].
  - constructor; [reflexivity | apply IH, H].
Qed.

Lemma insert_sameTrait (remaining : list Trait) (i : nat) (trait trait' : Trait) :
  remaining !! i = Some trait -> sameTrait trait trait' ->
  Forall2 sameTrait remaining (<[i := trait']> remaining).
Proof.
  intros H Hsame. revert i H.
  induction remaining as [|x rest IH]; intros [|i] H; simpl in *; try discriminate.
  - injection H as ->. constructor; [exact Hsame | reflexivity].
  - constructor; [reflexivity | apply IH, H].
Qed.

Lemma decrementVariant_evolves (item : Selected) : respects evolves (decrementVariant item).
Proof.
  intros w. unfold decrementVariant, nonNull, gets, bind, ret, throw, modify.
  cbv beta iota zeta.
  destruct (remainingVariantQuotas (this w)) as [remaining|] eqn:Hrem; [|reflexivity].
  destruct (variantNameToTraitIndex (this w) !! variant_name (sel_variant item))
    as [traitIndex|]; [|reflexivity].
  simpl. destruct (remaining !! traitIndex) as [trait|] eqn:Htrait; [|reflexivity].
  simpl.
  destruct (findIndex _ (trait_variants trait)) as [variantIndex|]; [|reflexivity].
  simpl. destruct (trait_variants trait !! variantIndex) as [variant|] eqn:Hv; [|reflexivity].
  simpl. unfold evolves. simpl. rewrite Hrem.
  repeat split; try reflexivity.
  constructor. eapply insert_sameTrait; [exact Htrait|].
  split; [reflexivity|]. simpl. apply insert_sameVariant, Hv.
Qed.

Lemma decrementVariant_sameConsole (item : Selected) :
  respects sameConsole (decrementVariant item).
Proof. unfold decrementVariant. frame. apply modify_sameConsole. Qed.

Lemma decrementVariants_evolves (l : list Selected) : respects evolves (decrementVariants l).
Proof.
  induction l as [|item rest IH]; cbn [decrementVariants]; frame. apply decrementVariant_evolves.
Qed.

Lemma decrementVariants_sameConsole (l : list Selected) :
  respects sameConsole (decrementVariants l).
Proof.
  induction l as [|item rest IH]; cbn [decrementVariants]; frame. apply decrementVariant_sameConsole.
Qed.

Lemma decrementQuotas_evolves (tierId : string) (l : list Selected) :
  respects evolves (decrementQuotas tierId l).
Proof.
  intros w. unfold decrementQuotas, nonNull, gets, bind, ret, throw, modify.
  cbv beta iota zeta.
  destruct (remainingTierQuotas (this w)) as [remaining|] eqn:Hrem; [|reflexivity].
  destruct (tierIdToIndex (this w) !! tierId) as [tierIndex|]; [|reflexivity].
  simpl. destruct (remaining !! tierIndex) as [tier|] eqn:Htier; [|reflexivity].
  simpl. etransitivity; [|apply decrementVariants_evolves].
  unfold evolves. simpl. rewrite Hrem. repeat split; try reflexivity.
  constructor. apply insert_sameTier, Htier.
Qed.

Lemma decrementQuotas_sameConsole (tierId : string) (l : list Selected) :
  respects sameConsole (decrementQuotas tierId l).
Proof.
  unfold decrementQuotas. frame; [apply modify_sameConsole | apply decrementVariants_sameConsole].
Qed.

Lemma selectTierWeighted_evolves : respects evolves selectTierWeighted.
Proof. unfold selectTierWeighted. frame; apply seededRandom_evolves. Qed.

Lemma selectTierWeighted_sameConsole : respects sameConsole selectTierWeighted.
Proof. unfold selectTierWeighted. frame; apply seededRandom_sameConsole. Qed.

Lemma selectVariantForTrait_evolves tierId traitConfig :
  respects evolves (selectVariantForTrait tierId traitConfig).
Proof. unfold selectVariantForTrait. frame; apply seededRandom_evolves. Qed.

Lemma selectVariantForTrait_sameConsole tierId traitConfig :
  respects sameConsole (selectVariantForTrait tierId traitConfig).
Proof. unfold selectVariantForTrait. frame; apply seededRandom_sameConsole. Qed.

Lemma selectVariantsFrom_evolves tierId remaining selected :
  respects evolves (selectVariantsFrom tierId remaining selected).
Proof.
  revert selected. induction remaining as [|t rest IH]; intros selected; cbn [selectVariantsFrom]; frame.
  - apply selectVariantForTrait_evolves.
  - apply IH.
Qed.

Lemma selectVariantsFrom_sameConsole tierId remaining selected :
  respects sameConsole (selectVariantsFrom tierId remaining selected).
Proof.
  revert selected. induction remaining as [|t rest IH]; intros selected; cbn [selectVariantsFrom]; frame.
  - apply selectVariantForTrait_sameConsole.
  - apply IH.
Qed.

Lemma selectVariantsForTier_evolves tierId : respects evolves (selectVariantsForTier tierId).
Proof. unfold selectVariantsForTier. frame. apply selectVariantsFrom_evolves. Qed.

Lemma selectVariantsForTier_sameConsole tierId :
  respects sameConsole (selectVariantsForTier tierId).
Proof. unfold selectVariantsForTier. frame. apply selectVariantsFrom_sameConsole. Qed.

Lemma getTierById_sameEngine tierId : respects sameEngine (getTierById tierId).
Proof. unfold getTierById. frame. Qed.

Lemma getTierById_sameConsole tierId : respects sameConsole (getTierById tierId).
Proof. unfold getTierById. frame. Qed.

Lemma isScoreInTierRange_sameEngine score tierId :
  respects sameEngine (isScoreInTierRange score tierId).
Proof. unfold isScoreInTierRange. frame. apply getTierById_sameEngine. Qed.

Lemma isScoreInTierRange_sameConsole score tierId :
  respects sameConsole (isScoreInTierRange score tierId).
Proof. unfold isScoreInTierRange. frame. apply getTierById_sameConsole. Qed.

Lemma respects_weaken (R R' : World -> World -> Prop) {A} (m : M A) :
  (forall w w', R w w' -> R' w w') -> respects R m -> respects R' m.
Proof. intros H Hm w. apply H, Hm. Qed.

Lemma attempt_evolves attempts : respects evolves (attempt attempts).
Proof.
  unfold attempt. frame.
  - apply selectTierWeighted_evolves.
  - apply selectVariantsForTier_evolves.
  - eapply respects_weaken; [exact sameEngine_evolves | apply isScoreInTierRange_sameEngine].
  - apply decrementQuotas_evolves.
  - eapply respects_weaken; [exact sameEngine_evolves | apply getTierById_sameEngine].
Qed.

Lemma attempt_sameConsole attempts : respects sameConsole (attempt attempts).
Proof.
  unfold attempt. frame.
  - apply selectTierWeighted_sameConsole.
  - apply selectVariantsForTier_sameConsole.
  - apply isScoreInTierRange_sameConsole.
  - apply decrementQuotas_sameConsole.
  - apply getTierById_sameConsole.
Qed.

Lemma iteration_evolves attempts : respects evolves (iteration attempts).
Proof. unfold iteration. frame; [apply attempt_evolves | apply warn_evolves]. Qed.

Lemma generateNFT_loop_evolves fuel maxRetries attempts :
  respects evolves (generateNFT_loop fuel maxRetries attempts).
Proof.
  revert attempts. induction fuel as [|fuel IH]; intros attempts; cbn [generateNFT_loop]; frame.
  - apply iteration_evolves.
  - apply IH.
Qed.

Lemma generateNFT_evolves maxRetries : respects evolves (generateNFT maxRetries).
Proof. apply generateNFT_loop_evolves. Qed.

(** ** The retry loop *)

Lemma attempt_some (attempts : Z) (w w' : World) (result : GenerationResult) :
  attempt attempts w = (inr (Some result), w') ->
  exists targetTierId selectedVariants tierInfo w1 w2 w3 w4,
    selectTierWeighted w = (inr targetTierId, w1)
    /\ selectVariantsForTier targetTierId w1 = (inr selectedVariants, w2)
    /\ isScoreInTierRange (calculateScore selectedVariants) targetTierId w2 = (inr true, w3)
    /\ decrementQuotas targetTierId selectedVariants w3 = (inr tt, w4)
    /\ getTierById targetTierId w4 = (inr tierInfo, w')
    /\ result = Success targetTierId (tier_name tierInfo) (calculateScore selectedVariants)
                        selectedVariants (attempts + 1).
Proof.
  unfold attempt. intros H.
  apply bind_inr in H. destruct H as (targetTierId & w1 & Htier & H).
  apply bind_inr in H. destruct H as (selectedVariants & w2 & Hsel & H).
  apply bind_inr in H. destruct H as (inRange & w3 & Hrange & H).
  destruct inRange; [|discriminate].
  apply bind_inr in H. destruct H as ([] & w4 & Hdec & H).
  apply bind_inr in H. destruct H as (tierInfo & w5 & Hinfo & H).
  injection H as <- <-.
  exists targetTierId, selectedVariants, tierInfo, w1, w2, w3, w4. auto 10.
Qed.

Lemma iteration_eval (attempts : Z) (w : World) :
  iteration attempts w =
  match attempt attempts w with
  | (inl error, w1) => (inr None, logged attempts error w1)
  | (inr r, w1) => (inr r, w1)
  end.
Proof.
  unfold iteration, try_catch. destruct (attempt attempts w) as [[e|r] w1]; reflexivity.
Qed.

(** An exception thrown inside an iteration is logged, counted and followed
    by the next iteration. *)
Lemma generateNFT_loop_caught (fuel : nat) (maxRetries attempts : Z) (w w1 : World) (e : Exn) :
  attempts < maxRetries ->
  attempt attempts w = (inl e, w1) ->
  generateNFT_loop (S fuel) maxRetries attempts w
  = generateNFT_loop fuel maxRetries (attempts + 1) (logged attempts e w1).
Proof.
  intros Hlt Hthrow. cbn [generateNFT_loop].
  apply Z.ltb_lt in Hlt. rewrite Hlt. unfold bind. rewrite iteration_eval, Hthrow.
  reflexivity.
Qed.

(** A score out of range is followed by the next iteration, with nothing logged. *)
Lemma generateNFT_loop_out_of_range (fuel : nat) (maxRetries attempts : Z) (w w1 : World) :
  attempts < maxRetries ->
  attempt attempts w = (inr None, w1) ->
  generateNFT_loop (S fuel) maxRetries attempts w
  = generateNFT_loop fuel maxRetries (attempts + 1) w1.
Proof.
  intros Hlt Hnone. cbn [generateNFT_loop].
  apply Z.ltb_lt in Hlt. rewrite Hlt. unfold bind. rewrite iteration_eval, Hnone.
  reflexivity.
Qed.

Lemma generateNFT_loop_outcome (fuel : nat) (maxRetries : Z) :
  forall (attempts : Z) (w : World),
  fuel = Z.to_nat (maxRetries - attempts) ->
  exists result w',
    generateNFT_loop fuel maxRetries attempts w = (inr result, w')
    /\ (length (console w') <= length (console w) + fuel)%nat
    /\ match result with
       | Success _ _ _ _ n => attempts < n <= maxRetries
       | Failure error n =>
           error = "Failed to generate NFT after " +:+ pretty maxRetries +:+ " attempts"
           /\ n = Z.max attempts maxRetries
       end.
Proof.
  induction fuel as [|fuel IH]; intros attempts w Hfuel; cbn [generateNFT_loop].
  - eexists _, _. split; [reflexivity|]. split; [lia|]. split; [reflexivity | lia].
  - assert (Hlt : attempts < maxRetries) by lia.
    pose proof Hlt as Hltb. apply Z.ltb_lt in Hltb. rewrite Hltb.
    unfold bind. rewrite iteration_eval.
    pose proof (attempt_sameConsole attempts w) as Hconsole. unfold sameConsole in Hconsole.
    destruct (attempt attempts w) as [[e|[result|]] w1] eqn:Hattempt; simpl in Hconsole.
    + destruct (IH (attempts + 1) (logged attempts e w1) ltac:(lia))
        as (result & w' & Hloop & Hlen & Hres).
      exists result, w'. split; [exact Hloop|]. split.
      * unfold logged in Hlen. simpl in Hlen. rewrite length_app, Hconsole in Hlen.
        simpl in Hlen. lia.
      * destruct result; [lia|]. destruct Hres as [-> ->]. split; [reflexivity | lia].
    + apply attempt_some in Hattempt.
      destruct Hattempt as (tid & sel & info & w2 & w3 & w4 & w5 & _ & _ & _ & _ & _ & ->).
      eexists _, _. split; [reflexivity|]. split; [rewrite Hconsole; lia|]. lia.
    + destruct (IH (attempts + 1) w1 ltac:(lia)) as (result & w' & Hloop & Hlen & Hres).
      exists result, w'. split; [exact Hloop|]. split; [rewrite Hconsole in Hlen; lia|].
      destruct result; [lia|]. destruct Hres as [-> ->]. split; [reflexivity | lia].
Qed.

(** Fuel beyond the iterations the loop condition allows is never used. *)
Lemma generateNFT_loop_fuel (fuel : nat) (maxRetries : Z) :
  forall (attempts : Z) (w : World),
  (Z.to_nat (maxRetries - attempts) <= fuel)%nat ->
  generateNFT_loop fuel maxRetries attempts w
  = generateNFT_loop (Z.to_nat (maxRetries - attempts)) maxRetries attempts w.
Proof.
  induction fuel as [|fuel IH]; intros attempts w Hfuel.
  - replace (Z.to_nat (maxRetries - attempts)) with 0%nat by lia. reflexivity.
  - destruct (Z.ltb_spec attempts maxRetries) as [Hlt|Hge].
    + replace (Z.to_nat (maxRetries - attempts))
        with (S (Z.to_nat (maxRetries - (attempts + 1)))) by lia.
      cbn [generateNFT_loop]. apply Z.ltb_lt in Hlt. rewrite Hlt. unfold bind.
      destruct (iteration attempts w) as [[e|[result|]] w1]; try reflexivity.
      apply IH. lia.
    + replace (Z.to_nat (maxRetries - attempts)) with 0%nat by lia.
      cbn [generateNFT_loop]. apply Z.ltb_ge in Hge. rewrite Hge. reflexivity.
Qed.

(** C5, as the code has it: [generateNFT] runs at most [maxRetries]
    iterations and always returns; an exception thrown inside an iteration
    is caught, logged on the console, counted and followed by the next
    iteration; when no iteration commits, the result is a failure whose
    error is the fixed text naming the ceiling, not the last exception, and
    whose attempt count is the ceiling. *)
Theorem generateNFT_bounded_retries (maxRetries : Z) (w : World) :
  (exists result w',
     generateNFT maxRetries w = (inr result, w')
     /\ (length (console w') <= length (console w) + Z.to_nat maxRetries)%nat
     /\ match result with
        | Success _ _ _ _ n => 1 <= n <= maxRetries
        | Failure error n =>
            error = "Failed to generate NFT after " +:+ pretty maxRetries +:+ " attempts"
            /\ n = Z.max 0 maxRetries
        end)
  /\ (forall fuel, (Z.to_nat maxRetries <= fuel)%nat ->
        generateNFT_loop fuel maxRetries 0 w = generateNFT maxRetries w)
  /\ (forall fuel attempts w0 w1 e,
        attempts < maxRetries ->
        attempt attempts w0 = (inl e, w1) ->
        generateNFT_loop (S fuel) maxRetries attempts w0
        = generateNFT_loop fuel maxRetries (attempts + 1) (logged attempts e w1)).
Proof.
  split; [|split].
  - destruct (generateNFT_loop_outcome (Z.to_nat maxRetries) maxRetries 0 w)
      as (result & w' & Hloop & Hlen & Hres); [f_equal; lia|].
    exists result, w'. split; [exact Hloop|]. split; [exact Hlen|].
    destruct result; [lia | exact Hres].
  - intros fuel Hfuel. unfold generateNFT.
    rewrite generateNFT_loop_fuel by (rewrite Z.sub_0_r; exact Hfuel).
    rewrite Z.sub_0_r. reflexivity.
  - intros fuel attempts w0 w1 e. apply generateNFT_loop_caught.
Qed.

Lemma generateNFT_bounded_retries_witness :
  let w := afterOne surplusConfig in
  (Z.to_nat 3 <= 5)%nat
  /\ 0 < 3
  /\ fst (attempt 0 w) = inl (Error "No available tiers with remaining quota")
  /\ generateNFT_loop 5 3 0 w = generateNFT 3 w
  /\ generateNFT_loop 3 3 0 w = generateNFT_loop 2 3 1 (logged 0 (Error "No available tiers with remaining quota") (snd (attempt 0 w))).
Proof.
  intros w.
  assert (Hfuel : (Z.to_nat 3 <= 5)%nat) by (vm_compute; lia).
  assert (Hlt : 0 < 3) by lia.
  assert (Hthrow : fst (attempt 0 w) = inl (Error "No available tiers with remaining quota"))
    by (vm_compute; reflexivity).
  destruct (generateNFT_bounded_retries 3 w) as (_ & Hmore & Hcaught).
  split; [exact Hfuel|]. split; [exact Hlt|]. split; [exact Hthrow|]. split.
  - apply Hmore, Hfuel.
  - apply (Hcaught 2%nat 0 w); [exact Hlt|].
    destruct (attempt 0 w) as [r w1]. simpl in *. rewrite Hthrow. reflexivity.
Defined.

(** C5 fails as stated: once the only tier is used up every attempt throws
    "No available tiers with remaining quota"; the failed result carries the
    fixed text with the ceiling instead, and the exceptions are on the
    console only. *)
Lemma failure_drops_last_error :
  let w := afterOne surplusConfig in
  fst (selectTierWeighted w) = inl (Error "No available tiers with remaining quota")
  /\ fst (generateNFT 3 w) = inr (Failure "Failed to generate NFT after 3 attempts" 3)
  /\ console (snd (generateNFT 3 w))
     = console w ++
       ["Generation attempt 1 failed: No available tiers with remaining quota";
        "Generation attempt 2 failed: No available tiers with remaining quota";
        "Generation attempt 3 failed: No available tiers with remaining quota"]
  /\ mentions "Failed to generate NFT after 3 attempts" "No available tiers" = false.
Proof.
  intros w. repeat split; vm_compute; reflexivity.
Qed.

(** ** Loading, and what a loaded engine keeps *)

Lemma copy_traits (l : list Trait) :
  map (fun trait => {| trait_trait := trait_trait trait;
                       trait_variants := map (fun variant => variant) (trait_variants trait) |}) l
  = l.
Proof.
  induction l as [|[name variants] rest IH]; simpl; [reflexivity|].
  rewrite IH, List.map_id. reflexivity.
Qed.

(** What [loadConfig] leaves behind when it returns: the configuration, a
    fresh copy of every quota, lookup maps extended with the new keys, and
    the seed it found. *)
Lemma loadConfig_inv (c : Config) (w0 w : World) :
  loadConfig c w0 = (inr tt, w) ->
  config (this w) = Some c
  /\ remainingTierQuotas (this w) = Some (tiers c)
  /\ remainingVariantQuotas (this w) = Some (traits c)
  /\ rngSeed (this w) = rngSeed (this w0)
  /\ tierIdToIndex (this w) = setTierIndexes (tiers c) 0%nat (tierIdToIndex (this w0))
  /\ variantNameToTraitIndex (this w)
     = setVariantIndexes (traits c) 0%nat (variantNameToTraitIndex (this w0)).
Proof.
  unfold loadConfig. intros H.
  apply bind_inr in H. destruct H as ([] & w1 & Hset & H).
  apply bind_inr in H. destruct H as ([] & w2 & Hvalid & H).
  apply bind_inr in H. destruct H as ([] & w3 & Hinit & H).
  unfold modify in Hset. injection Hset as <-.
  match type of Hvalid with validateConfig _ ?w1 = _ =>
    pose proof (validateConfig_sameEngine (toJSON c) w1) as Hsame
  end.
  rewrite Hvalid in Hsame. unfold sameEngine in Hsame. simpl in Hsame.
  unfold initializeQuotas, nonNull, gets, bind, ret, modify in Hinit.
  rewrite Hsame in Hinit. simpl in Hinit.
  apply (f_equal snd) in Hinit. simpl in Hinit. subst w3.
  unfold buildLookupMaps, nonNull, gets, bind, ret, modify in H.
  simpl in H. apply (f_equal snd) in H. simpl in H. subst w. simpl.
  rewrite List.map_id, copy_traits, Hsame. simpl. repeat split.
Qed.

Lemma loadConfig_mirrors (c : Config) (w0 w : World) :
  loadConfig c w0 = (inr tt, w) -> mirrors c (this w).
Proof.
  intros H. apply loadConfig_inv in H. destruct H as (Hc & Hrt & Hrv & _).
  split; [exact Hc|]. exists (tiers c), (traits c).
  repeat split; try assumption; reflexivity.
Qed.

Lemma evolves_mirrors (c : Config) (w w' : World) :
  mirrors c (this w) -> evolves w w' -> mirrors c (this w').
Proof.
  intros (Hc & rt & rv & Hrt & Hrv & Ht & Hv) (Kc & _ & _ & Kt & Kv).
  rewrite Hrt in Kt. rewrite Hrv in Kv.
  inversion Kt as [rt0 rt' Hrt' |]; subst. inversion Kv as [rv0 rv' Hrv' |]; subst.
  split; [congruence|]. exists rt', rv'.
  split; [congruence|]. split; [congruence|]. split; etransitivity; eassumption.
Qed.

Lemma reachable_mirrors (c : Config) (w : World) : reachable c w -> mirrors c (this w).
Proof.
  induction 1 as [w0 w Hload | w w' maxRetries r _ IH Hgen].
  - eapply loadConfig_mirrors, Hload.
  - eapply evolves_mirrors; [exact IH|].
    pose proof (generateNFT_evolves maxRetries w) as He. rewrite Hgen in He. exact He.
Qed.

Lemma generateNFT_loop_success (fuel : nat) (maxRetries : Z) :
  forall (attempts : Z) (w w' : World) tierId tierName score variants n,
  generateNFT_loop fuel maxRetries attempts w
  = (inr (Success tierId tierName score variants n), w') ->
  exists w1, evolves w w1
             /\ attempt (n - 1) w1 = (inr (Some (Success tierId tierName score variants n)), w').
Proof.
  induction fuel as [|fuel IH]; intros attempts w w' tierId tierName score variants n;
    cbn [generateNFT_loop].
  - discriminate.
  - destruct (attempts <? maxRetries); [|discriminate].
    unfold bind. rewrite iteration_eval.
    pose proof (attempt_evolves attempts w) as He.
    destruct (attempt attempts w) as [[e|[result|]] w1] eqn:Hattempt; simpl in He.
    + intros H. apply IH in H. destruct H as (w2 & Hw2 & H). exists w2. split; [|exact H].
      etransitivity; [exact He|]. etransitivity; [|exact Hw2].
      apply sameEngine_evolves. reflexivity.
    + intros [= -> <-]. exists w. split; [reflexivity|].
      pose proof Hattempt as Hsome. apply attempt_some in Hsome.
      destruct Hsome as (tid & sel & info & w2 & w3 & w4 & w5 & _ & _ & _ & _ & _ & Heq).
      injection Heq as _ _ _ _ ->. replace (attempts + 1 - 1) with attempts by lia.
      exact Hattempt.
    + intros H. apply IH in H. destruct H as (w2 & Hw2 & H). exists w2. split; [|exact H].
      etransitivity; eassumption.
Qed.

Lemma getTierById_inv (tierId : string) (w w' : World) (tier : Tier) :
  getTierById tierId w = (inr tier, w') ->
  w' = w /\ exists c, config (this w) = Some c
                      /\ List.find (fun t => String.eqb (tier_id t) tierId) (tiers c) = Some tier.
Proof.
  unfold getTierById. intros H.
  apply bind_inr in H. destruct H as (c & w1 & Hc & H).
  apply nonNull_inr in Hc. destruct Hc as [Hc ->].
  destruct (List.find _ (tiers c)) as [t|] eqn:Hfind; [|discriminate].
  injection H as <- <-. eauto.
Qed.

Lemma isScoreInTierRange_inv (score : Z) (tierId : string) (w w' : World) (b : bool) :
  isScoreInTierRange score tierId w = (inr b, w') ->
  w' = w /\ exists c tier,
    config (this w) = Some c
    /\ List.find (fun t => String.eqb (tier_id t) tierId) (tiers c) = Some tier
    /\ b = (fst (tier_scoreRange tier) <=? score) && (score <=? snd (tier_scoreRange tier)).
Proof.
  unfold isScoreInTierRange. intros H.
  apply bind_inr in H. destruct H as (tier & w1 & Htier & H).
  apply getTierById_inv in Htier. destruct Htier as (-> & c & Hc & Hfind).
  destruct (tier_scoreRange tier) as [min max] eqn:Hrange.
  injection H as <- <-. split; [reflexivity|]. exists c, tier. rewrite Hrange. auto.
Qed.

Lemma calculateScore_from (l : list Selected) (a : Z) :
  fold_left (fun sum item => sum + variant_points (sel_variant item)) l a
  = a + sumZ (pointsOf l).
Proof.
  revert a. induction l as [|x l IH]; intros a; simpl; [lia|].
  rewrite IH. unfold sumZ, pointsOf. simpl. lia.
Qed.

Lemma calculateScore_sum (l : list Selected) : calculateScore l = sumZ (pointsOf l).
Proof. unfold calculateScore. rewrite calculateScore_from. lia. Qed.

Lemma selection_configured (targetTierId : string)
    (selected : list Selected) (remaining configured : list Trait) :
  Forall2 (fun item traitConfig =>
             sel_trait item = trait_trait traitConfig
             /\ List.In (sel_variant item) (trait_variants traitConfig)
             /\ variant_tier (sel_variant item) = targetTierId
             /\ 0 < variant_quota (sel_variant item)) selected remaining ->
  Forall2 sameTrait configured remaining ->
  Forall2 (fun item trait =>
             sel_trait item = trait_trait trait
             /\ exists v, List.In v (trait_variants trait)
                          /\ variant_name v = variant_name (sel_variant item)
                          /\ variant_tier v = targetTierId
                          /\ variant_points v = variant_points (sel_variant item))
          selected configured.
Proof.
  intros Hsel. revert configured.
  induction Hsel as [|item r sel rem (Ht & Hin & Htier & _) _ IH]; intros configured Hsame.
  - apply Forall2_nil_inv_r in Hsame as ->. constructor.
  - apply Forall2_cons_inv_r in Hsame as (ct & cts & [Hname Hvs] & Hrest & ->).
    constructor; [|apply IH, Hrest].
    split; [congruence|].
    clear -Hin Hvs Htier. induction Hvs as [|cv v cvs vs (H1 & H2 & H3) _ IH]; [destruct Hin|].
    destruct Hin as [Heq|Hin].
    + exists cv. split; [left; reflexivity|]. repeat split; congruence.
    + destruct (IH Hin) as (x & Hx & Hrest). exists x. split; [right; exact Hx | exact Hrest].
Qed.

Lemma attempt_success_inv (c : Config) (attempts : Z) (w w' : World)
    tierId tierName score variants n :
  mirrors c (this w) ->
  attempt attempts w = (inr (Some (Success tierId tierName score variants n)), w') ->
  score = sumZ (pointsOf variants)
  /\ Forall2 (fun item trait =>
                sel_trait item = trait_trait trait
                /\ exists v, List.In v (trait_variants trait)
                             /\ variant_name v = variant_name (sel_variant item)
                             /\ variant_tier v = tierId
                             /\ variant_points v = variant_points (sel_variant item))
             variants (traits c)
  /\ exists tier,
       List.find (fun t => String.eqb (tier_id t) tierId) (tiers c) = Some tier
       /\ tierName = tier_name tier
       /\ fst (tier_scoreRange tier) <= score <= snd (tier_scoreRange tier).
Proof.
  intros Hm H. apply attempt_some in H.
  destruct H as (tid & sel & info & w1 & w2 & w3 & w4 & Htier & Hsel & Hrange & Hdec & Hinfo & Heq).
  injection Heq as -> -> -> -> ->.
  pose proof (selectTierWeighted_evolves w) as E1. rewrite Htier in E1. simpl in E1.
  pose proof (selectVariantsForTier_evolves tid w1) as E2. rewrite Hsel in E2. simpl in E2.
  pose proof (decrementQuotas_evolves tid sel w3) as E4. rewrite Hdec in E4. simpl in E4.
  apply isScoreInTierRange_inv in Hrange. destruct Hrange as (-> & c2 & tier & Hc2 & Hfind & Hb).
  apply getTierById_inv in Hinfo. destruct Hinfo as (-> & c4 & Hc4 & Hfind4).
  assert (M1 : mirrors c (this w1)) by (eapply evolves_mirrors; eassumption).
  assert (M2 : mirrors c (this w2)) by (eapply evolves_mirrors; eassumption).
  assert (M4 : mirrors c (this w4)) by (eapply evolves_mirrors; eassumption).
  destruct M2 as [Hcfg2 _]. destruct M4 as [Hcfg4 _].
  assert (c2 = c) by congruence. assert (c4 = c) by congruence. subst c2 c4.
  split; [apply calculateScore_sum|]. split.
  - apply selectVariantsForTier_inv in Hsel.
    destruct Hsel as (remaining & Hrem & _ & Hall).
    destruct M1 as (_ & rt & rv & _ & Hrv & _ & Hsame).
    assert (rv = remaining) by congruence. subst rv.
    eapply selection_configured; [|exact Hsame].
    eapply Forall2_impl; [exact Hall|].
    intros item traitConfig (Ht & Hin). apply availableVariantsOf_spec in Hin. tauto.
  - exists tier. split; [exact Hfind|]. split; [congruence|].
    symmetry in Hb. apply andb_true_iff in Hb. lia.
Qed.



(** ** Where the code departs from the claims *)

(** C8: [validateConfig] accepts a document whose tier list is empty, with a
    warning about the quota sum, and [loadConfig] goes through;
    [RarityConfigLoader.validateBasicStructure] rejects the same document. *)
Lemma validateConfig_accepts_empty_tiers :
  JS.prop (toJSON noTiersConfig) "tiers" = inr (JS.Arr [])
  /\ fst (validateConfig (toJSON noTiersConfig) newWorld) = inr tt
  /\ console (snd (validateConfig (toJSON noTiersConfig) newWorld))
     = ["Warning: total tier quota = 0, expected 1"]
  /\ fst (loadConfig noTiersConfig newWorld) = inr tt
  /\ fst (validateBasicStructure (toJSON noTiersConfig) newWorld)
     = inl (Error "Invalid or missing tiers in rarity config").
Proof. repeat split; vm_compute; reflexivity. Qed.

(** C2: with variant names shared between categories, the commit of the one
    item takes 6 from the counter of [hat]'s V0 and nothing from the
    counters of the five other chosen variants. *)
Lemma commit_misses_chosen_variants :
  let w := loaded sharedNamesConfig in
  let w' := snd (generateNFT 100 w) in
  Forall (fun trait => NoDup (map variant_name (trait_variants trait)))
         (traits sharedNamesConfig)
  /\ (exists variants,
        fst (generateNFT 100 w) = inr (Success "T5" "Common" 150 variants 1)
        /\ map (fun item => (sel_trait item, variant_name (sel_variant item))) variants
           = [("socks", "V0"); ("shoes", "V0"); ("pants", "V0");
              ("shirt", "V0"); ("face", "V0"); ("hat", "V0")])
  /\ tierCounters w = Some [("T5", 1)]
  /\ tierCounters w' = Some [("T5", 0)]
  /\ variantCounters w
     = Some [("socks", [("V0", 1)]); ("shoes", [("V0", 1)]); ("pants", [("V0", 1)]);
             ("shirt", [("V0", 1)]); ("face", [("V0", 1)]); ("hat", [("V0", 1)])]
  /\ variantCounters w'
     = Some [("socks", [("V0", 1)]); ("shoes", [("V0", 1)]); ("pants", [("V0", 1)]);
             ("shirt", [("V0", 1)]); ("face", [("V0", 1)]); ("hat", [("V0", -5)])].
Proof.
  intros w w'. split; [|split; [|repeat split; vm_compute; reflexivity]].
  - apply (bool_decide_unpack _). vm_compute. exact I.
  - vm_compute. eexists. split; reflexivity.
Qed.

(** C9: every quota of the configuration is 0 or more, and after one
    [generateNFT] a remaining variant counter is negative. *)
Lemma counter_goes_negative :
  let w' := snd (generateNFT 100 (loaded sharedNamesConfig)) in
  Forall (fun tier => 0 <= tier_quota tier) (tiers sharedNamesConfig)
  /\ Forall (fun trait => Forall (fun v => 0 <= variant_quota v) (trait_variants trait))
            (traits sharedNamesConfig)
  /\ exists remaining trait v,
       remainingVariantQuotas (this w') = Some remaining
       /\ List.In trait remaining
       /\ List.In v (trait_variants trait)
       /\ trait_trait trait = "hat" /\ variant_name v = "V0"
       /\ variant_quota v = -5.
Proof.
  intros w'. split; [|split].
  - apply (bool_decide_unpack _). vm_compute. exact I.
  - apply (bool_decide_unpack _). vm_compute. exact I.
  - destruct (remainingVariantQuotas (this w')) as [remaining|] eqn:Hrem;
      [|vm_compute in Hrem; discriminate].
    vm_compute in Hrem. injection Hrem as <-.
    eexists _, _, _. split; [reflexivity|].
    split; [do 5 right; left; reflexivity|].
    split; [left; reflexivity|]. repeat split.
Qed.

(** C3: the selector does not return a variant whose remaining quota is 0,
    and yet one is committed.  [socks] and [hat] share their names, [hat]'s
    V0 has no quota, and the item takes V0 in [socks] and V1 in [hat]: the
    commit looks the counter of [socks]'s V0 up by its name alone, finds
    [hat]'s V0, and takes it from 0 to -1, while the counter of the chosen
    V0 of [socks] stays at 1. *)
Lemma zero_quota_variant_committed :
  let w := loaded zeroQuotaConfig in
  let w' := snd (generateNFT 100 w) in
  fst (loadConfig zeroQuotaConfig newWorld) = inr tt
  /\ (exists variants,
        fst (generateNFT 100 w) = inr (Success "T5" "Common" 150 variants 1)
        /\ map (fun item => (sel_trait item, variant_name (sel_variant item),
                             variant_quota (sel_variant item))) variants
           = [("socks", "V0", 1); ("shoes", "shoes_0", 1); ("pants", "pants_0", 1);
              ("shirt", "shirt_0", 1); ("face", "face_0", 1); ("hat", "V1", 1)])
  /\ variantCounter w "hat" "V0" = Some 0
  /\ variantCounter w' "hat" "V0" = Some (-1)
  /\ variantCounter w "socks" "V0" = Some 1
  /\ variantCounter w' "socks" "V0" = Some 1
  /\ variantCounter w "hat" "V1" = Some 1
  /\ variantCounter w' "hat" "V1" = Some 0.
Proof.
  intros w w'. split; [vm_compute; reflexivity|]. split.
  - vm_compute. eexists. split; reflexivity.
  - repeat split; vm_compute; reflexivity.
Qed.

(** ** Further properties of the selectors *)

Lemma selectTierWeighted_positive (w : World) (remaining : list Tier) :
  remainingTierQuotas (this w) = Some remaining ->
  availableTiersOf remaining <> [] ->
  exists tier,
    List.In tier remaining /\ 0 < tier_quota tier
    /\ selectTierWeighted w = (inr (tier_id tier), advance w).
Proof.
  intros Hrem Hne.
  destruct (tier_selected w remaining Hrem Hne) as (tier & Hin & Hsel).
  unfold availableTiersOf in Hin. apply List.filter_In in Hin. destruct Hin as [Hin Hq].
  exists tier. split; [exact Hin|]. split; [lia | exact Hsel].
Qed.

Lemma selectTierWeighted_inv (w w' : World) (id : string) :
  selectTierWeighted w = (inr id, w') ->
  w' = advance w
  /\ exists remaining tier,
       remainingTierQuotas (this w) = Some remaining
       /\ List.In tier remaining /\ tier_id tier = id /\ 0 < tier_quota tier.
Proof.
  intros Hsel.
  destruct (remainingTierQuotas (this w)) as [remaining|] eqn:Hrem.
  - pose proof Hsel as Hsel'.
    rewrite (selectTierWeighted_eval w remaining Hrem) in Hsel'.
    destruct (availableTiersOf remaining) as [|first rest] eqn:Hav; [discriminate|].
    destruct (selectTierWeighted_positive w remaining Hrem) as (tier & Hin & Hq & Heq);
      [congruence|].
    rewrite Hsel in Heq. injection Heq as -> ->.
    split; [reflexivity|]. exists remaining, tier. auto.
  - unfold selectTierWeighted, nonNull, gets, bind in Hsel. rewrite Hrem in Hsel.
    discriminate.
Qed.

(** [selectTierWeighted] returns the id of a tier whose remaining quota is
    above 0, after one draw; when no tier has quota left it throws before
    drawing, so the seed stays as it is; on an engine that was never loaded
    it is a [TypeError]. *)
Theorem selectTierWeighted_outcomes (w : World) :
  (remainingTierQuotas (this w) = None -> selectTierWeighted w = (inl TypeError, w))
  /\ (forall remaining,
        remainingTierQuotas (this w) = Some remaining ->
        (Forall (fun tier => tier_quota tier <= 0) remaining ->
         selectTierWeighted w = (inl (Error "No available tiers with remaining quota"), w))
        /\ (Exists (fun tier => 0 < tier_quota tier) remaining ->
            exists tier,
              List.In tier remaining /\ 0 < tier_quota tier
              /\ selectTierWeighted w = (inr (tier_id tier), advance w)))
  /\ (forall id w',
        selectTierWeighted w = (inr id, w') ->
        w' = advance w
        /\ exists remaining tier,
             remainingTierQuotas (this w) = Some remaining
             /\ List.In tier remaining /\ tier_id tier = id /\ 0 < tier_quota tier).
Proof.
  split; [|split].
  - intros Hnone. unfold selectTierWeighted, nonNull, gets, bind. rewrite Hnone. reflexivity.
  - intros remaining Hrem. split.
    + intros Hall. rewrite (selectTierWeighted_eval w remaining Hrem).
      replace (availableTiersOf remaining) with (@nil Tier); [reflexivity|].
      symmetry. apply filter_nil_iff. eapply Forall_impl; [exact Hall|].
      intros tier Hq. simpl in *. lia.
    + intros Hex. apply selectTierWeighted_positive; [exact Hrem|].
      apply List.Exists_exists in Hex. destruct Hex as (tier & Hin & Hq).
      intros Hnil. assert (Hmem : List.In tier (availableTiersOf remaining)).
      { apply List.filter_In. split; [exact Hin | lia]. }
      rewrite Hnil in Hmem. destruct Hmem.
  - intros id w'. apply selectTierWeighted_inv.
Qed.

Lemma selectTierWeighted_outcomes_witness :
  let w := loaded lateTiersConfig in
  Exists (fun tier => 0 < tier_quota tier) (tiers lateTiersConfig)
  /\ exists tier, List.In tier (tiers lateTiersConfig) /\ 0 < tier_quota tier
                  /\ selectTierWeighted w = (inr (tier_id tier), advance w).
Proof.
  intros w.
  assert (Hrem : remainingTierQuotas (this w) = Some (tiers lateTiersConfig))
    by (vm_compute; reflexivity).
  assert (Hex : Exists (fun tier => 0 < tier_quota tier) (tiers lateTiersConfig))
    by (left; simpl; lia).
  split; [exact Hex|].
  destruct (selectTierWeighted_outcomes w) as (_ & Hsome & _).
  destruct (Hsome _ Hrem) as [_ Hpos]. exact (Hpos Hex).
Defined.

Lemma advanceBy_succ (n : nat) (w : World) : advanceBy n (advance w) = advanceBy (S n) w.
Proof.
  unfold advanceBy. induction n as [|n IH]; [reflexivity|].
  simpl in *. rewrite IH. reflexivity.
Qed.

Lemma selectVariantsFrom_all (targetTierId : string) (remaining : list Trait) :
  forall (selected : list Selected) (w : World),
  Forall (fun trait => availableVariantsOf targetTierId trait <> []) remaining ->
  exists new,
    selectVariantsFrom targetTierId remaining selected w
    = (inr (selected ++ new), advanceBy (length remaining) w)
    /\ length new = length remaining.
Proof.
  induction remaining as [|trait rest IH]; intros selected w Hall; cbn [selectVariantsFrom].
  - exists []. rewrite app_nil_r. split; reflexivity.
  - inversion Hall as [|t l Hne Hrest]; subst.
    destruct (variant_selected w targetTierId trait Hne) as (variant & _ & Hsel).
    rewrite (bind_eval _ _ _ _ _ Hsel).
    destruct (IH (selected ++ [{| sel_trait := trait_trait trait; sel_variant := variant |}])
                 (advance w) Hrest) as (new & Hnew & Hlen).
    exists ({| sel_trait := trait_trait trait; sel_variant := variant |} :: new).
    rewrite Hnew, <- app_assoc, advanceBy_succ. split; [reflexivity | simpl; lia].
Qed.

Lemma selectVariantsFrom_first_empty (targetTierId : string)
    (before after : list Trait) (trait : Trait) :
  forall (selected : list Selected) (w : World),
  Forall (fun t => availableVariantsOf targetTierId t <> []) before ->
  availableVariantsOf targetTierId trait = [] ->
  selectVariantsFrom targetTierId (before ++ trait :: after) selected w
  = (inl (Error ("No available variants for trait " +:+ trait_trait trait
                 +:+ " in tier " +:+ targetTierId)), advanceBy (length before) w).
Proof.
  induction before as [|t rest IH]; intros selected w Hall Hempty;
    cbn [selectVariantsFrom app].
  - unfold bind. rewrite selectVariantForTrait_eval, Hempty. reflexivity.
  - inversion Hall as [|t' l Hne Hrest]; subst.
    destruct (variant_selected w targetTierId t Hne) as (variant & _ & Hsel).
    rewrite (bind_eval _ _ _ _ _ Hsel), IH by assumption.
    cbn [length]. rewrite advanceBy_succ. reflexivity.
Qed.

(** [selectVariantsForTier] returns one entry per category after one draw
    per category when every category has a candidate; otherwise it throws
    the error that names the first category without one, after one draw for
    each category before it. *)
Theorem selectVariantsForTier_outcomes
    (targetTierId : string) (w : World) (remaining : list Trait) :
  remainingVariantQuotas (this w) = Some remaining ->
  (Forall (fun trait => availableVariantsOf targetTierId trait <> []) remaining ->
   exists selectedVariants,
     selectVariantsForTier targetTierId w
     = (inr selectedVariants, advanceBy (length remaining) w)
     /\ length selectedVariants = length remaining)
  /\ (forall before trait after,
        remaining = before ++ trait :: after ->
        Forall (fun t => availableVariantsOf targetTierId t <> []) before ->
        availableVariantsOf targetTierId trait = [] ->
        selectVariantsForTier targetTierId w
        = (inl (Error ("No available variants for trait " +:+ trait_trait trait
                       +:+ " in tier " +:+ targetTierId)), advanceBy (length before) w)).
Proof.
  intros Hrem. unfold selectVariantsForTier.
  rewrite (bind_eval _ _ _ _ _ (nonNull_eval _ _ _ Hrem)). split.
  - intros Hall. destruct (selectVariantsFrom_all targetTierId remaining [] w Hall)
      as (new & Hsel & Hlen).
    exists new. split; assumption.
  - intros before trait after -> Hall Hempty.
    apply selectVariantsFrom_first_empty; assumption.
Qed.

Lemma selectVariantsForTier_outcomes_witness :
  let w := loaded surplusConfig in
  exists remaining trait after,
    remainingVariantQuotas (this w) = Some remaining
    /\ remaining = [] ++ trait :: after
    /\ availableVariantsOf "T9" trait = []
    /\ selectVariantsForTier "T9" w
       = (inl (Error "No available variants for trait socks in tier T9"), w).
Proof.
  intros w.
  destruct (remainingVariantQuotas (this w)) as [[|trait after]|] eqn:Hrem;
    try (vm_compute in Hrem; discriminate).
  exists (trait :: after), trait, after.
  assert (Hname : trait_trait trait = "socks").
  { vm_compute in Hrem. injection Hrem as <- _. reflexivity. }
  assert (Hempty : availableVariantsOf "T9" trait = []).
  { vm_compute in Hrem. injection Hrem as <- _. vm_compute. reflexivity. }
  split; [reflexivity|]. split; [reflexivity|]. split; [exact Hempty|].
  destruct (selectVariantsForTier_outcomes "T9" w _ Hrem) as [_ Hfirst].
  rewrite (Hfirst [] trait after eq_refl (List.Forall_nil _) Hempty), Hname. reflexivity.
Defined.

(** ** The random sequence *)

#[local] Instance seedBounded_preorder : PreOrder seedBounded.
Proof. unfold seedBounded. split; [intros w; auto | intros w1 w2 w3; auto]. Qed.

Lemma modify_seedBounded (f : RarityEngine -> RarityEngine) :
  (forall e, rngSeed (f e) = rngSeed e) -> respects seedBounded (modify f).
Proof. intros Hf w. unfold seedBounded, modify. simpl. rewrite Hf. auto. Qed.

Lemma warn_seedBounded (line : string) : respects seedBounded (warn line).
Proof. intros w. unfold seedBounded. simpl. auto. Qed.

Lemma seededRandom_seedBounded : respects seedBounded seededRandom.
Proof.
  intros w. unfold seedBounded. simpl. intros [H0 _].
  split; [apply nextSeed_nonneg, H0 | apply nextSeed_lt].
Qed.

Ltac seed_frame :=
  frame;
  try apply seededRandom_seedBounded;
  try apply warn_seedBounded;
  try (apply modify_seedBounded; intros ?; reflexivity).

Lemma selectTierWeighted_seedBounded : respects seedBounded selectTierWeighted.
Proof. unfold selectTierWeighted. seed_frame. Qed.

Lemma selectVariantsFrom_seedBounded tierId remaining :
  forall selected, respects seedBounded (selectVariantsFrom tierId remaining selected).
Proof.
  induction remaining as [|t rest IH]; intros selected; cbn [selectVariantsFrom]; seed_frame.
  - unfold selectVariantForTrait. seed_frame.
  - apply IH.
Qed.

Lemma decrementVariants_seedBounded l : respects seedBounded (decrementVariants l).
Proof.
  induction l as [|item rest IH]; cbn [decrementVariants]; seed_frame.
  unfold decrementVariant. seed_frame.
Qed.

Lemma attempt_seedBounded attempts : respects seedBounded (attempt attempts).
Proof.
  unfold attempt. seed_frame.
  - apply selectTierWeighted_seedBounded.
  - unfold selectVariantsForTier. seed_frame. apply selectVariantsFrom_seedBounded.
  - unfold isScoreInTierRange, getTierById. seed_frame.
  - unfold decrementQuotas. seed_frame. apply decrementVariants_seedBounded.
  - unfold getTierById. seed_frame.
Qed.

Lemma generateNFT_loop_seedBounded fuel maxRetries :
  forall attempts, respects seedBounded (generateNFT_loop fuel maxRetries attempts).
Proof.
  induction fuel as [|fuel IH]; intros attempts; cbn [generateNFT_loop]; seed_frame.
  - unfold iteration. seed_frame. apply attempt_seedBounded.
  - apply IH.
Qed.

Lemma generateAll_seedBounded ceilings : respects seedBounded (generateAll ceilings).
Proof.
  induction ceilings as [|n rest IH]; cbn [generateAll]; seed_frame.
  apply generateNFT_loop_seedBounded.
Qed.

(** On an engine built by [new RarityEngine()] and [loadConfig], after any
    sequence of [generateNFT] calls, the seed is an integer of [0, 233280)
    and the next [seededRandom()] is a value of [0, 1). *)
Theorem seededRandom_unit_interval
    (c : Config) (console0 : list string) (w : World) (ceilings : list Z) :
  loadConfig c {| this := constructor; console := console0 |} = (inr tt, w) ->
  let w' := snd (generateAll ceilings w) in
  0 <= rngSeed (this w') < 233280
  /\ exists r, seededRandom w' = (inr r, advance w')
               /\ (0 <= r)%Q /\ (r < 1)%Q
               /\ 0 <= rngSeed (this (advance w')) < 233280.
Proof.
  intros Hload w'. apply loadConfig_inv in Hload. destruct Hload as (_ & _ & _ & Hseed & _).
  simpl in Hseed.
  assert (Hw' : 0 <= rngSeed (this w') < 233280).
  { apply (generateAll_seedBounded ceilings w). rewrite Hseed. lia. }
  split; [exact Hw'|].
  exists (nextSeed (rngSeed (this w')) # 233280). split; [reflexivity|].
  pose proof (nextSeed_nonneg (rngSeed (this w')) ltac:(lia)) as H0.
  pose proof (nextSeed_lt (rngSeed (this w'))) as H1.
  split; [|split].
  - unfold Qle. simpl. lia.
  - unfold Qlt. simpl. lia.
  - simpl. lia.
Qed.

Lemma seededRandom_unit_interval_witness :
  exists w r,
    loadConfig surplusConfig {| this := constructor; console := [] |} = (inr tt, w)
    /\ seededRandom (snd (generateAll [100; 3] w))
       = (inr r, advance (snd (generateAll [100; 3] w)))
    /\ (0 <= r)%Q /\ (r < 1)%Q.
Proof.
  assert (Hok : fst (loadConfig surplusConfig {| this := constructor; console := [] |}) = inr tt)
    by (vm_compute; reflexivity).
  destruct (loadConfig surplusConfig {| this := constructor; console := [] |}) as [r0 w] eqn:Hload.
  simpl in Hok. subst r0.
  destruct (seededRandom_unit_interval surplusConfig [] w [100; 3] Hload)
    as (_ & r & Hr & H0 & H1 & _).
  exists w, r. auto.
Defined.

(** ** Calls that cannot commit *)

Lemma attempt_no_tier (attempts : Z) (w : World) :
  remainingTierQuotas (this w) = None
  \/ (exists remaining, remainingTierQuotas (this w) = Some remaining
                        /\ Forall (fun tier => tier_quota tier <= 0) remaining) ->
  exists e, attempt attempts w = (inl e, w).
Proof.
  intros H.
  assert (Hthrow : exists e, selectTierWeighted w = (inl e, w)).
  { destruct H as [Hnone | (remaining & Hrem & Hall)].
    - exists TypeError. unfold selectTierWeighted, nonNull, gets, bind. rewrite Hnone.
      reflexivity.
    - eexists. rewrite (selectTierWeighted_eval w remaining Hrem).
      replace (availableTiersOf remaining) with (@nil Tier); [reflexivity|].
      symmetry. apply filter_nil_iff. eapply Forall_impl; [exact Hall|].
      intros tier Hq. simpl in *. lia. }
  destruct Hthrow as [e He]. exists e. unfold attempt. apply bind_throws, He.
Qed.

Lemma generateNFT_loop_no_tier (fuel : nat) (maxRetries : Z) :
  forall (attempts : Z) (w : World),
  fuel = Z.to_nat (maxRetries - attempts) ->
  remainingTierQuotas (this w) = None
  \/ (exists remaining, remainingTierQuotas (this w) = Some remaining
                        /\ Forall (fun tier => tier_quota tier <= 0) remaining) ->
  exists w',
    generateNFT_loop fuel maxRetries attempts w
    = (inr (failed maxRetries (Z.max attempts maxRetries)), w')
    /\ this w' = this w
    /\ length (console w') = (length (console w) + fuel)%nat.
Proof.
  induction fuel as [|fuel IH]; intros attempts w Hfuel Hw; cbn [generateNFT_loop].
  - exists w. replace (Z.max attempts maxRetries) with attempts by lia.
    split; [reflexivity|]. split; [reflexivity | lia].
  - assert (Hlt : attempts < maxRetries) by lia.
    pose proof Hlt as Hltb. apply Z.ltb_lt in Hltb. rewrite Hltb.
    destruct (attempt_no_tier attempts w Hw) as [e He].
    unfold bind. rewrite iteration_eval, He.
    destruct (IH (attempts + 1) (logged attempts e w) ltac:(lia) Hw) as (w' & Hloop & Hthis & Hlen).
    exists w'. rewrite Hloop. replace (Z.max (attempts + 1) maxRetries) with
      (Z.max attempts maxRetries) by lia.
    split; [reflexivity|]. split; [exact Hthis|].
    rewrite Hlen. unfold logged. simpl. rewrite length_app. simpl. lia.
Qed.

(** When no tier has quota left, or the engine was never loaded,
    [generateNFT] returns the failure after [maxRetries] logged attempts and
    leaves the engine, seed included, exactly as it was. *)
Theorem generateNFT_without_tier (maxRetries : Z) (w : World) :
  remainingTierQuotas (this w) = None
  \/ (exists remaining, remainingTierQuotas (this w) = Some remaining
                        /\ Forall (fun tier => tier_quota tier <= 0) remaining) ->
  exists w',
    generateNFT maxRetries w
    = (inr (Failure ("Failed to generate NFT after " +:+ pretty maxRetries +:+ " attempts")
                    (Z.max 0 maxRetries)), w')
    /\ this w' = this w
    /\ length (console w') = (length (console w) + Z.to_nat maxRetries)%nat.
Proof.
  intros Hw. apply generateNFT_loop_no_tier; [f_equal; lia | exact Hw].
Qed.

Lemma generateNFT_without_tier_witness :
  remainingTierQuotas (this newWorld) = None
  /\ exists w',
       generateNFT 100 newWorld
       = (inr (Failure "Failed to generate NFT after 100 attempts" 100), w')
       /\ this w' = constructor.
Proof.
  assert (Hnone : remainingTierQuotas (this newWorld) = None) by reflexivity.
  split; [exact Hnone|].
  destruct (generateNFT_without_tier 100 newWorld (or_introl Hnone)) as (w' & Hgen & Hthis & _).
  exists w'. split; [exact Hgen | exact Hthis].
Defined.

(** ** The lookup maps *)

Lemma setTierIndexes_other (l : list Tier) (index : nat) (m : gmap string nat) (k : string) :
  ~ List.In k (map tier_id l) -> setTierIndexes l index m !! k = m !! k.
Proof.
  revert index m. induction l as [|x rest IH]; intros index m Hnot; simpl; [reflexivity|].
  simpl in Hnot. rewrite IH by tauto. apply lookup_insert_ne. tauto.
Qed.

Lemma setTierIndexes_lookup (l : list Tier) :
  forall (index : nat) (m : gmap string nat) (tier : Tier),
  List.In tier l ->
  exists i t, setTierIndexes l index m !! tier_id tier = Some (index + i)%nat
              /\ l !! i = Some t /\ tier_id t = tier_id tier.
Proof.
  induction l as [|x rest IH]; intros index m tier Hin; [destruct Hin|]. simpl.
  destruct (List.in_dec String.string_dec (tier_id tier) (map tier_id rest)) as [Hlater|Hnot].
  - apply List.in_map_iff in Hlater. destruct Hlater as (t' & Hid & Hin').
    destruct (IH (S index) (<[tier_id x := index]> m) t' Hin') as (i & t & Hlook & Ht & Htid).
    exists (S i), t. rewrite <- Hid, Hlook. split; [f_equal; lia|]. split; [exact Ht | congruence].
  - assert (tier_id x = tier_id tier) as Hx.
    { destruct Hin as [->|Hin]; [reflexivity|]. exfalso. apply Hnot.
      apply List.in_map. exact Hin. }
    exists 0%nat, x. rewrite setTierIndexes_other by exact Hnot.
    rewrite <- Hx, lookup_insert_eq. split; [f_equal; lia|]. split; reflexivity.
Qed.

Lemma setNames_other (variants : list Variant) (traitIndex : nat) (m : gmap string nat)
    (k : string) :
  ~ List.In k (map variant_name variants) ->
  fold_left (fun m variant => <[variant_name variant := traitIndex]> m) variants m !! k
  = m !! k.
Proof.
  revert m. induction variants as [|x rest IH]; intros m Hnot; simpl; [reflexivity|].
  simpl in Hnot. rewrite IH by tauto. apply lookup_insert_ne. tauto.
Qed.

Lemma setNames_lookup (variants : list Variant) (traitIndex : nat) (m : gmap string nat)
    (k : string) :
  List.In k (map variant_name variants) ->
  fold_left (fun m variant => <[variant_name variant := traitIndex]> m) variants m !! k
  = Some traitIndex.
Proof.
  revert m. induction variants as [|x rest IH]; intros m Hin; simpl; [destruct Hin|].
  destruct (List.in_dec String.string_dec k (map variant_name rest)) as [Hlater|Hnot].
  - apply IH, Hlater.
  - rewrite setNames_other by exact Hnot.
    destruct Hin as [<-|Hin]; [apply lookup_insert_eq | contradiction].
Qed.

Lemma setVariantIndexes_other (l : list Trait) (traitIndex : nat) (m : gmap string nat)
    (k : string) :
  ~ List.In k (concat (map (fun trait => map variant_name (trait_variants trait)) l)) ->
  setVariantIndexes l traitIndex m !! k = m !! k.
Proof.
  revert traitIndex m. induction l as [|x rest IH]; intros traitIndex m Hnot; simpl;
    [reflexivity|].
  simpl in Hnot. rewrite List.in_app_iff in Hnot.
  rewrite IH by tauto. apply setNames_other. tauto.
Qed.

Lemma setVariantIndexes_lookup (l : list Trait) :
  forall (traitIndex : nat) (m : gmap string nat) (k : string),
  List.In k (concat (map (fun trait => map variant_name (trait_variants trait)) l)) ->
  exists i t, setVariantIndexes l traitIndex m !! k = Some (traitIndex + i)%nat
              /\ l !! i = Some t /\ List.In k (map variant_name (trait_variants t)).
Proof.
  induction l as [|x rest IH]; intros traitIndex m k Hin; [destruct Hin|]. simpl.
  destruct (List.in_dec String.string_dec k
              (concat (map (fun trait => map variant_name (trait_variants trait)) rest)))
    as [Hlater|Hnot].
  - destruct (IH (S traitIndex)
                 (fold_left (fun m variant => <[variant_name variant := traitIndex]> m)
                            (trait_variants x) m) k Hlater) as (i & t & Hlook & Ht & Hk).
    exists (S i), t. rewrite Hlook. split; [f_equal; lia|]. split; assumption.
  - simpl in Hin. rewrite List.in_app_iff in Hin. destruct Hin as [Hin|Hin]; [|contradiction].
    exists 0%nat, x. rewrite setVariantIndexes_other by exact Hnot.
    rewrite setNames_lookup by exact Hin. split; [f_equal; lia|]. split; [reflexivity | exact Hin].
Qed.

Lemma name_in_concat (l : list Trait) (trait : Trait) (v : Variant) :
  List.In trait l -> List.In v (trait_variants trait) ->
  List.In (variant_name v)
          (concat (map (fun trait => map variant_name (trait_variants trait)) l)).
Proof.
  intros Ht Hv. apply List.in_concat. exists (map variant_name (trait_variants trait)).
  split; [apply List.in_map_iff; eauto | apply List.in_map; exact Hv].
Qed.

(** After [loadConfig] the maps point into the lists, whatever they held before. *)
Lemma loadConfig_indexed (c : Config) (w0 w : World) :
  loadConfig c w0 = (inr tt, w) -> indexed (this w).
Proof.
  intros H. apply loadConfig_inv in H. destruct H as (_ & Hrt & Hrv & _ & Hti & Hvi).
  split.
  - intros remaining Hrem. rewrite Hrt in Hrem. injection Hrem as <-. rewrite Hti.
    intros tier Hin.
    destruct (setTierIndexes_lookup (tiers c) 0 (tierIdToIndex (this w0)) tier Hin)
      as (i & t & Hlook & Ht & Hid).
    exists i, t. auto.
  - intros remaining Hrem. rewrite Hrv in Hrem. injection Hrem as <-. rewrite Hvi.
    intros trait v Htrait Hv.
    destruct (setVariantIndexes_lookup (traits c) 0 (variantNameToTraitIndex (this w0))
                (variant_name v) (name_in_concat _ _ _ Htrait Hv)) as (i & t & Hlook & Ht & Hk).
    apply List.in_map_iff in Hk. destruct Hk as (v' & Hname & Hv').
    exists i, t, v'. auto.
Qed.

Lemma Forall2_sameTier_lookup (l l' : list Tier) (i : nat) (t : Tier) :
  Forall2 sameTier l l' -> l !! i = Some t -> exists t', l' !! i = Some t' /\ sameTier t t'.
Proof. intros H Hl. eapply Forall2_lookup_l in H; eauto. Qed.

Lemma tiersIndexed_same (m : gmap string nat) (l l' : list Tier) :
  Forall2 sameTier l l' -> tiersIndexed m l -> tiersIndexed m l'.
Proof.
  intros Hsame Hidx tier' Hin'.
  apply list_elem_of_In, list_elem_of_lookup in Hin'. destruct Hin' as [j Hj].
  destruct (Forall2_lookup_r _ _ _ _ _ Hsame Hj) as (tier & Hl & Hst).
  destruct (Hidx tier) as (i & t & Hlook & Ht & Hid).
  { apply list_elem_of_In, list_elem_of_lookup. eauto. }
  destruct (Forall2_lookup_l _ _ _ _ _ Hsame Ht) as (t' & Hl' & Hst').
  destruct Hst as (Hid1 & _). destruct Hst' as (Hid2 & _).
  exists i, t'. rewrite <- Hid1. split; [exact Hlook|]. split; [exact Hl' | congruence].
Qed.

Lemma sameVariant_in (vs vs' : list Variant) (v : Variant) :
  Forall2 sameVariant vs vs' -> List.In v vs ->
  exists v', List.In v' vs' /\ variant_name v' = variant_name v.
Proof.
  intros H Hin. apply list_elem_of_In, list_elem_of_lookup in Hin. destruct Hin as [j Hj].
  destruct (Forall2_lookup_l _ _ _ _ _ H Hj) as (v' & Hv' & Hname & _).
  exists v'. split; [|congruence].
  apply list_elem_of_In, list_elem_of_lookup. eauto.
Qed.

Lemma variantsIndexed_same (m : gmap string nat) (l l' : list Trait) :
  Forall2 sameTrait l l' -> variantsIndexed m l -> variantsIndexed m l'.
Proof.
  intros Hsame Hidx trait' v' Hin' Hv'.
  apply list_elem_of_In, list_elem_of_lookup in Hin'. destruct Hin' as [j Hj].
  destruct (Forall2_lookup_r _ _ _ _ _ Hsame Hj) as (trait & Hl & _ & Hvs).
  assert (Hvs' : Forall2 sameVariant (trait_variants trait') (trait_variants trait))
    by (symmetry; exact Hvs).
  destruct (sameVariant_in _ _ _ Hvs' Hv') as (v & Hv & Hname).
  destruct (Hidx trait v) as (i & t & u & Hlook & Ht & Hu & Huname).
  { apply list_elem_of_In, list_elem_of_lookup. eauto. }
  { exact Hv. }
  destruct (Forall2_lookup_l _ _ _ _ _ Hsame Ht) as (t' & Hl' & _ & Hts).
  destruct (sameVariant_in _ _ _ Hts Hu) as (u' & Hu' & Hu'name).
  exists i, t', u'. rewrite <- Hname. split; [exact Hlook|]. split; [exact Hl'|].
  split; [exact Hu' | congruence].
Qed.

Lemma evolves_indexed (w w' : World) : indexed (this w) -> evolves w w' -> indexed (this w').
Proof.
  intros [Ht Hv] (_ & Kti & Kvi & Kt & Kv). split.
  - intros remaining' Hrem'. rewrite Hrem' in Kt.
    inversion Kt as [l l' Hsame Hl |]; subst. rewrite Kti.
    eapply tiersIndexed_same; [exact Hsame | apply Ht; congruence].
  - intros remaining' Hrem'. rewrite Hrem' in Kv.
    inversion Kv as [l l' Hsame Hl |]; subst. rewrite Kvi.
    eapply variantsIndexed_same; [exact Hsame | apply Hv; congruence].
Qed.

Lemma reachable_indexed (c : Config) (w : World) : reachable c w -> indexed (this w).
Proof.
  induction 1 as [w0 w Hload | w w' maxRetries r _ IH Hgen].
  - eapply loadConfig_indexed, Hload.
  - eapply evolves_indexed; [exact IH|].
    pose proof (generateNFT_evolves maxRetries w) as He. rewrite Hgen in He. exact He.
Qed.

(** ** The commit on a loaded engine *)

Lemma findIndex_some {A} (p : A -> bool) (l : list A) (x : A) :
  List.In x l -> p x = true ->
  exists j y, findIndex p l = Some j /\ l !! j = Some y /\ p y = true.
Proof.
  induction l as [|a rest IH]; intros Hin Hp; [destruct Hin|]. simpl.
  destruct (p a) eqn:Hpa.
  - exists 0%nat, a. auto.
  - destruct Hin as [->|Hin]; [congruence|].
    destruct (IH Hin Hp) as (j & y & Hj & Hy & Hpy).
    exists (S j), y. rewrite Hj. auto.
Qed.

Lemma sumZ_insert {A} (f : A -> Z) (l : list A) (j : nat) (x y : A) :
  l !! j = Some x -> sumZ (map f (<[j := y]> l)) = sumZ (map f l) - f x + f y.
Proof.
  revert j. induction l as [|a rest IH]; intros [|j] H; simpl in *; try discriminate.
  - injection H as ->. unfold sumZ. simpl. lia.
  - unfold sumZ in *. simpl. rewrite (IH j H). lia.
Qed.

Lemma totalRemainingOf_sumZ (l : list Tier) : totalRemainingOf l = sumZ (map tier_quota l).
Proof.
  induction l as [|x rest IH]; [reflexivity|].
  rewrite totalRemainingOf_cons, IH. reflexivity.
Qed.

Lemma named_same (remaining remaining' : list Trait) (item : Selected) :
  Forall2 sameTrait remaining remaining' -> named remaining item -> named remaining' item.
Proof.
  intros Hsame (trait & v & Ht & Hv & Hname).
  apply list_elem_of_In, list_elem_of_lookup in Ht. destruct Ht as [i Hi].
  destruct (Forall2_lookup_l _ _ _ _ _ Hsame Hi) as (trait' & Hi' & _ & Hvs).
  destruct (sameVariant_in _ _ _ Hvs Hv) as (v' & Hv' & Hname').
  exists trait', v'. split; [apply list_elem_of_In, list_elem_of_lookup; eauto|].
  split; [exact Hv' | congruence].
Qed.

Lemma decrementVariant_returns (item : Selected) (w : World) (remaining : list Trait) :
  remainingVariantQuotas (this w) = Some remaining ->
  variantsIndexed (variantNameToTraitIndex (this w)) remaining ->
  named remaining item ->
  exists w' remaining',
    decrementVariant item w = (inr tt, w')
    /\ remainingVariantQuotas (this w') = Some remaining'
    /\ Forall2 sameTrait remaining remaining'
    /\ totalVariantsOf remaining' = totalVariantsOf remaining - 1
    /\ onlyVariants w w'.
Proof.
  intros Hrem Hidx (trait & v & Ht & Hv & Hname).
  destruct (Hidx trait v Ht Hv) as (i & t & v' & Hlook & Hi & Hv' & Hname').
  destruct (findIndex_some
              (fun u => String.eqb (variant_name u) (variant_name (sel_variant item)))
              (trait_variants t) v' Hv') as (j & y & Hj & Hy & _).
  { apply String.eqb_eq. congruence. }
  rewrite Hname in Hlook.
  unfold decrementVariant, nonNull, gets, bind, ret, modify. cbv beta iota zeta.
  rewrite Hrem, Hlook. simpl. rewrite Hi. simpl.
  rewrite Hj. simpl. rewrite Hy. simpl.
  eexists _, _. split; [reflexivity|]. simpl. split; [reflexivity|]. split; [|split].
  - eapply insert_sameTrait; [exact Hi|]. split; [reflexivity|]. simpl.
    apply insert_sameVariant, Hy.
  - unfold totalVariantsOf.
    rewrite (sumZ_insert (fun trait => sumZ (map variant_quota (trait_variants trait)))
               remaining i t _ Hi).
    simpl. rewrite (sumZ_insert variant_quota (trait_variants t) j y _ Hy). simpl. lia.
  - repeat split.
Qed.

Lemma decrementVariants_returns (l : list Selected) :
  forall (w : World) (remaining : list Trait),
  remainingVariantQuotas (this w) = Some remaining ->
  variantsIndexed (variantNameToTraitIndex (this w)) remaining ->
  Forall (named remaining) l ->
  exists w' remaining',
    decrementVariants l w = (inr tt, w')
    /\ remainingVariantQuotas (this w') = Some remaining'
    /\ totalVariantsOf remaining' = totalVariantsOf remaining - Z.of_nat (length l)
    /\ onlyVariants w w'.
Proof.
  induction l as [|item rest IH]; intros w remaining Hrem Hidx Hall; cbn [decrementVariants].
  - exists w, remaining. split; [reflexivity|]. split; [exact Hrem|].
    split; [simpl; lia | repeat split].
  - inversion Hall as [|x xs Hitem Hrest]; subst.
    destruct (decrementVariant_returns item w remaining Hrem Hidx Hitem)
      as (w1 & r1 & Hdec & Hrem1 & Hsame & Hsum & Honly).
    rewrite (bind_eval _ _ _ _ _ Hdec).
    destruct Honly as (O1 & O2 & O3 & O4 & O5 & O6).
    destruct (IH w1 r1 Hrem1) as (w' & r' & Hdecs & Hrem' & Hsum' & Honly').
    { rewrite O5. eapply variantsIndexed_same; eassumption. }
    { eapply Forall_impl; [exact Hrest|]. intros it. apply named_same, Hsame. }
    exists w', r'. split; [exact Hdecs|]. split; [exact Hrem'|]. split.
    + rewrite Hsum', Hsum. simpl length. lia.
    + destruct Honly' as (P1 & P2 & P3 & P4 & P5 & P6). repeat split; congruence.
Qed.

Lemma decrementQuotas_returns (tierId : string) (l : list Selected) (w : World)
    (remainingTiers : list Tier) (remainingVariants : list Trait) :
  remainingTierQuotas (this w) = Some remainingTiers ->
  remainingVariantQuotas (this w) = Some remainingVariants ->
  indexed (this w) ->
  (exists tier, List.In tier remainingTiers /\ tier_id tier = tierId) ->
  Forall (named remainingVariants) l ->
  exists w',
    decrementQuotas tierId l w = (inr tt, w')
    /\ tierSum w' = tierSum w - 1
    /\ variantSum w' = variantSum w - Z.of_nat (length l)
    /\ rngSeed (this w') = rngSeed (this w)
    /\ console w' = console w.
Proof.
  intros Hrt Hrv [Hti Hvi] (tier & Hin & Hid) Hall.
  destruct (Hti _ Hrt tier Hin) as (i & t & Hlook & Hi & _).
  unfold decrementQuotas.
  rewrite (bind_eval _ _ w w (tierIdToIndex (this w) !! tierId)) by reflexivity.
  rewrite (bind_eval _ _ _ _ _ (nonNull_eval _ _ _ Hrt)).
  rewrite <- Hid, Hlook. simpl. rewrite Hi. simpl.
  set (w1 := {| this := set_remainingTierQuotas (Some (<[i := decTier t]> remainingTiers))
                          (this w);
                console := console w |}).
  rewrite (bind_eval _ _ w w1 tt) by reflexivity.
  destruct (decrementVariants_returns l w1 remainingVariants)
    as (w' & r' & Hdec & Hrem' & Hsum & Honly).
  { exact Hrv. }
  { apply Hvi, Hrv. }
  { exact Hall. }
  destruct Honly as (O1 & O2 & O3 & O4 & O5 & O6). simpl in *.
  exists w'. split; [exact Hdec|]. unfold tierSum, variantSum.
  rewrite O2, Hrem', Hrt, Hrv. split; [|split; [exact Hsum | split; assumption]].
  rewrite !totalRemainingOf_sumZ, (sumZ_insert tier_quota _ _ _ _ Hi). simpl. lia.
Qed.

Lemma sameQuotas_sums (w w' : World) :
  sameQuotas w w' -> tierSum w' = tierSum w /\ variantSum w' = variantSum w.
Proof.
  intros (_ & Ht & Hv & _). unfold tierSum, variantSum. rewrite Ht, Hv. auto.
Qed.

(** An attempt either commits, taking 1 from the tier counters and 1 per
    category from the variant counters, or leaves every counter as it was. *)
Lemma attempt_counters (c : Config) (attempts : Z) (w : World) :
  mirrors c (this w) -> indexed (this w) ->
  match attempt attempts w with
  | (inr (Some _), w') =>
      tierSum w' = tierSum w - 1
      /\ variantSum w' = variantSum w - Z.of_nat (length (traits c))
  | (_, w') =>
      remainingTierQuotas (this w') = remainingTierQuotas (this w)
      /\ remainingVariantQuotas (this w') = remainingVariantQuotas (this w)
  end.
Proof.
  intros Hm Hidx. unfold attempt, bind at 1.
  destruct (selectTierWeighted w) as [[e|targetTierId] w1] eqn:Htier.
  { pose proof (selectTierWeighted_eval w) as Heval.
    destruct (remainingTierQuotas (this w)) as [remaining|] eqn:Hrem.
    - rewrite (Heval remaining eq_refl) in Htier.
      destruct (availableTiersOf remaining); [|discriminate].
      injection Htier as _ <-. rewrite Hrem. auto.
    - unfold selectTierWeighted, nonNull, gets, bind in Htier. rewrite Hrem in Htier.
      injection Htier as _ <-. rewrite Hrem. auto. }
  apply selectTierWeighted_inv in Htier.
  destruct Htier as (-> & remainingTiers & tier & Hrt & Hin & Hid & _).
  unfold bind at 1.
  destruct (selectVariantsForTier targetTierId (advance w)) as [[e|selected] w2] eqn:Hsel.
  { unfold selectVariantsForTier in Hsel.
    destruct Hm as (_ & rt & rv & _ & Hrv & _).
    rewrite (bind_eval _ _ _ _ _ (nonNull_eval remainingVariantQuotas (advance w) rv Hrv)) in Hsel.
    assert (Hkeep : forall l sel u r u',
               selectVariantsFrom targetTierId l sel u = (r, u') -> sameQuotas u u').
    { clear. induction l as [|t rest IH]; intros sel u r u'; cbn [selectVariantsFrom].
      - intros [= _ <-]. apply sameQuotas_refl.
      - unfold bind. rewrite selectVariantForTrait_eval.
        destruct (availableVariantsOf targetTierId t).
        + intros [= _ <-]. apply sameQuotas_refl.
        + cbv zeta. intros H. apply IH in H.
          eapply sameQuotas_trans; [apply sameQuotas_advance | exact H]. }
    apply Hkeep in Hsel. destruct Hsel as (_ & Ht & Hv & _). simpl in *. auto. }
  apply selectVariantsForTier_inv in Hsel.
  destruct Hsel as (remainingVariants & Hrv & Hsame & Hall).
  destruct Hsame as (S1 & S2 & S3 & S4 & S5). simpl in S1, S2, S3, S4, S5.
  unfold bind at 1.
  pose proof (isScoreInTierRange_sameEngine (calculateScore selected) targetTierId w2) as Hsc.
  destruct (isScoreInTierRange (calculateScore selected) targetTierId w2)
    as [[e|inRange] w3] eqn:Hrange; unfold sameEngine in Hsc; simpl in Hsc.
  { rewrite Hsc. auto. }
  destruct inRange; [|cbn [ret]; unfold ret; rewrite Hsc; auto].
  apply isScoreInTierRange_inv in Hrange.
  destruct Hrange as (-> & c2 & tier2 & Hc2 & Hfind & _).
  destruct (decrementQuotas_returns targetTierId selected w2 remainingTiers remainingVariants)
    as (w4 & Hdec & Hts & Hvs & _).
  { congruence. }
  { simpl in Hrv. congruence. }
  { destruct Hidx as [I1 I2]. split.
    - intros l Hl. rewrite S4. apply I1. congruence.
    - intros l Hl. rewrite S5. apply I2. congruence. }
  { eauto. }
  { eapply Forall2_Forall_l; [exact Hall|].
    apply Forall_forall. intros trait Htrait item (Hname & Hav).
    apply availableVariantsOf_spec in Hav. exists trait, (sel_variant item).
    apply list_elem_of_In in Htrait. tauto. }
  unfold bind at 1. rewrite Hdec.
  pose proof (decrementQuotas_evolves targetTierId selected w2) as Hev.
  rewrite Hdec in Hev. simpl in Hev. destruct Hev as (Hcfg & _).
  unfold getTierById, nonNull, gets, bind, ret. rewrite Hcfg, Hc2. simpl. rewrite Hfind.
  assert (Hlen : length selected = length (traits c)).
  { destruct Hm as (_ & rt & rv & _ & Hrv0 & _ & Htraits). simpl in Hrv.
    assert (rv = remainingVariants) by congruence. subst rv.
    rewrite (Forall2_length _ _ _ Hall). symmetry. eapply Forall2_length, Htraits. }
  assert (T2 : tierSum w2 = tierSum w) by (unfold tierSum; rewrite S2; reflexivity).
  assert (V2 : variantSum w2 = variantSum w) by (unfold variantSum; rewrite S3; reflexivity).
  rewrite <- Hlen. lia.
Qed.

Lemma generateNFT_loop_counters (c : Config) (fuel : nat) (maxRetries : Z) :
  forall (attempts : Z) (w : World),
  mirrors c (this w) -> indexed (this w) ->
  match generateNFT_loop fuel maxRetries attempts w with
  | (inr (Success _ _ _ _ _), w') =>
      tierSum w' = tierSum w - 1
      /\ variantSum w' = variantSum w - Z.of_nat (length (traits c))
  | (_, w') =>
      remainingTierQuotas (this w') = remainingTierQuotas (this w)
      /\ remainingVariantQuotas (this w') = remainingVariantQuotas (this w)
  end.
Proof.
  induction fuel as [|fuel IH]; intros attempts w Hm Hidx; cbn [generateNFT_loop].
  - simpl. auto.
  - destruct (attempts <? maxRetries); [|simpl; auto].
    unfold bind. rewrite iteration_eval.
    pose proof (attempt_counters c attempts w Hm Hidx) as Hcount.
    pose proof (attempt_evolves attempts w) as Hev.
    destruct (attempt attempts w) as [[e|[result|]] w1] eqn:Hattempt; simpl in Hev.
    + assert (Hlog : evolves w (logged attempts e w1)).
      { etransitivity; [exact Hev|]. apply sameEngine_evolves. reflexivity. }
      specialize (IH (attempts + 1) (logged attempts e w1)
                     (evolves_mirrors _ _ _ Hm Hlog) (evolves_indexed _ _ Hidx Hlog)).
      destruct Hcount as [Ht Hv].
      destruct (generateNFT_loop fuel maxRetries (attempts + 1) (logged attempts e w1))
        as [[e'|[]] w']; simpl in IH; unfold tierSum, variantSum in *; simpl in IH;
        rewrite <- ?Ht, <- ?Hv; exact IH.
    + apply attempt_some in Hattempt.
      destruct Hattempt as (tid & sel & info & w2 & w3 & w4 & w5 & _ & _ & _ & _ & _ & ->).
      exact Hcount.
    + specialize (IH (attempts + 1) w1 (evolves_mirrors _ _ _ Hm Hev)
                     (evolves_indexed _ _ Hidx Hev)).
      destruct Hcount as [Ht Hv].
      destruct (generateNFT_loop fuel maxRetries (attempts + 1) w1)
        as [[e'|[]] w']; unfold tierSum, variantSum in *;
        rewrite <- ?Ht, <- ?Hv; exact IH.
Qed.


Lemma loaded_reachable (c : Config) :
  fst (loadConfig c newWorld) = inr tt -> reachable c (loaded c).
Proof.
  intros H. apply (reachable_load c newWorld). unfold loaded.
  destruct (loadConfig c newWorld) as [r w]. simpl in *. rewrite H. reflexivity.
Qed.


(** ** Status *)

Lemma tierStatusOf_entries (c : Config) (remaining : list Tier) (w : World) :
  Forall (fun tier => exists t,
            List.find (fun t => String.eqb (tier_id t) (tier_id tier)) (tiers c) = Some t)
         remaining ->
  exists entries,
    tierStatusOf c remaining w = (inr entries, w)
    /\ Forall2 (fun entry tier =>
                  exists t,
                    List.find (fun t => String.eqb (tier_id t) (tier_id tier)) (tiers c) = Some t
                    /\ entry = (tier_id tier, tier_name tier, tier_quota tier, tier_quota t))
               entries remaining.
Proof.
  induction 1 as [|tier rest [t Ht] _ (entries & IH & Hall)]; simpl.
  - exists []. split; [reflexivity | constructor].
  - rewrite Ht. unfold bind. rewrite IH.
    eexists. split; [reflexivity|]. constructor; [eauto | exact Hall].
Qed.

Lemma getGenerationStatus_returns (c : Config) (w : World) :
  mirrors c (this w) ->
  exists status,
    getGenerationStatus w = (inr status, w)
    /\ totalRemaining status = tierSum w
    /\ totalGenerated status = collectionSize c - tierSum w
    /\ status_collectionSize status = collectionSize c
    /\ exists remaining,
         remainingTierQuotas (this w) = Some remaining
         /\ Forall2 (fun entry tier =>
                       exists t,
                         List.find (fun t => String.eqb (tier_id t) (tier_id tier)) (tiers c)
                         = Some t
                         /\ entry = (tier_id tier, tier_name tier, tier_quota tier, tier_quota t))
                    (tierStatus status) remaining.
Proof.
  intros (Hc & rt & rv & Hrt & _ & Hsame & _).
  destruct (tierStatusOf_entries c rt w (find_sameTier _ _ Hsame)) as (entries & Hts & Hall).
  unfold getGenerationStatus.
  rewrite (bind_eval _ _ _ _ _ (nonNull_eval _ _ _ Hrt)).
  rewrite (bind_eval _ _ _ _ _ (nonNull_eval _ _ _ Hc)).
  rewrite (bind_eval _ _ _ _ _ Hts). unfold tierSum. rewrite Hrt.
  eexists. split; [reflexivity|]. simpl. repeat split. exists rt. auto.
Qed.

Lemma generateAll_counts (c : Config) (ceilings : list Z) :
  forall (w : World), reachable c w ->
  exists results w',
    generateAll ceilings w = (inr results, w')
    /\ reachable c w'
    /\ tierSum w' = tierSum w - successes results
    /\ variantSum w' = variantSum w - successes results * Z.of_nat (length (traits c)).
Proof.
  induction ceilings as [|n rest IH]; intros w Hreach; cbn [generateAll].
  - exists [], w. split; [reflexivity|]. split; [exact Hreach|]. unfold successes. simpl.
    split; lia.
  - destruct (generateNFT_loop_outcome (Z.to_nat n) n 0 w) as (r & w1 & Hgen & _);
      [f_equal; lia|].
    fold (generateNFT n) in Hgen.
    assert (Hreach1 : reachable c w1) by (eapply reachable_generate; eassumption).
    pose proof (generateNFT_loop_counters c (Z.to_nat n) n 0 w
                  (reachable_mirrors _ _ Hreach) (reachable_indexed _ _ Hreach)) as Hcount.
    unfold generateNFT in Hgen. rewrite Hgen in Hcount. fold (generateNFT n) in Hgen.
    destruct (IH w1 Hreach1) as (rs & w' & Hrest & Hreach' & Ht & Hv).
    exists (r :: rs), w'. unfold bind. rewrite Hgen, Hrest.
    split; [reflexivity|]. split; [exact Hreach'|].
    unfold successes in *. simpl. destruct r; simpl.
    + destruct Hcount as [Ht1 Hv1]. split; lia.
    + destruct Hcount as [Ht1 Hv1]. unfold tierSum, variantSum in *.
      rewrite Ht1, Hv1 in *. split; lia.
Qed.



(** ** The commit when keys are distinct *)

Lemma map_id_on {A} (f : A -> A) (l : list A) :
  (forall x, List.In x l -> f x = x) -> map f l = l.
Proof.
  induction l as [|a rest IH]; intros H; simpl; [reflexivity|].
  rewrite H by (left; reflexivity). rewrite IH; [reflexivity|].
  intros x Hx. apply H. right. exact Hx.
Qed.

Lemma commitVariantsOf_nil (variants : list Variant) : commitVariantsOf [] variants = variants.
Proof. unfold commitVariantsOf. apply map_id_on. reflexivity. Qed.

Lemma commitVariants_nil (remaining : list Trait) : commitVariants [] remaining = remaining.
Proof.
  unfold commitVariants. apply map_id_on. intros [name variants] _. simpl.
  rewrite commitVariantsOf_nil. reflexivity.
Qed.

Lemma commitVariantsOf_names (names : list string) (variants : list Variant) :
  map variant_name (commitVariantsOf names variants) = map variant_name variants.
Proof.
  unfold commitVariantsOf. rewrite List.map_map. apply List.map_ext.
  intros v. destruct (existsb _ names); reflexivity.
Qed.

Lemma commitVariants_names (names : list string) (remaining : list Trait) :
  allNames (commitVariants names remaining) = allNames remaining.
Proof.
  unfold allNames, commitVariants. rewrite List.map_map. f_equal.
  apply List.map_ext. intros trait. simpl. apply commitVariantsOf_names.
Qed.

Lemma commitVariantsOf_untouched (names : list string) (variants : list Variant) :
  (forall v, List.In v variants -> ~ List.In (variant_name v) names) ->
  commitVariantsOf names variants = variants.
Proof.
  intros H. unfold commitVariantsOf. apply map_id_on. intros v Hv.
  destruct (existsb (String.eqb (variant_name v)) names) eqn:Hex; [|reflexivity].
  exfalso. apply List.existsb_exists in Hex. destruct Hex as (n & Hn & Heq).
  apply String.eqb_eq in Heq. apply (H v Hv). congruence.
Qed.

Lemma insert_commitVariantsOf (variants : list Variant) (j : nat) (y : Variant) :
  NoDup (map variant_name variants) ->
  variants !! j = Some y ->
  <[j := decVariant y]> variants = commitVariantsOf [variant_name y] variants.
Proof.
  revert j. induction variants as [|x rest IH]; intros [|j] Hnd H; simpl in *;
    try discriminate; apply NoDup_cons in Hnd; destruct Hnd as [Hx Hrest].
  - injection H as ->. rewrite String.eqb_refl. simpl. f_equal.
    symmetry. apply commitVariantsOf_untouched. intros v Hv [Heq|[]].
    apply Hx. rewrite Heq. apply list_elem_of_In, List.in_map, Hv.
  - assert (Hne : String.eqb (variant_name x) (variant_name y) = false).
    { apply String.eqb_neq. intros Heq. apply Hx. rewrite Heq.
      apply list_elem_of_In, List.in_map, list_elem_of_In, list_elem_of_lookup. eauto. }
    rewrite Hne. simpl. f_equal. apply IH; assumption.
Qed.

Lemma NoDup_allNames_cons (trait : Trait) (rest : list Trait) :
  NoDup (allNames (trait :: rest)) ->
  NoDup (map variant_name (trait_variants trait)) /\ NoDup (allNames rest)
  /\ forall n, List.In n (map variant_name (trait_variants trait)) ->
               ~ List.In n (allNames rest).
Proof.
  unfold allNames. simpl. intros H. apply NoDup_app in H. destruct H as (H1 & H2 & H3).
  split; [exact H1|]. split; [exact H3|].
  intros n Hn Hrest. apply (H2 n); apply list_elem_of_In; assumption.
Qed.

Lemma commitVariants_untouched (names : list string) (remaining : list Trait) :
  (forall n, List.In n names -> ~ List.In n (allNames remaining)) ->
  commitVariants names remaining = remaining.
Proof.
  intros H. unfold commitVariants. apply map_id_on. intros [name variants] Hin. simpl.
  rewrite commitVariantsOf_untouched; [reflexivity|].
  intros v Hv Hn. apply (H _ Hn).
  apply (name_in_concat remaining {| trait_trait := name; trait_variants := variants |} v Hin Hv).
Qed.

Lemma insert_commitVariants (remaining : list Trait) (i j : nat) (t : Trait) (y : Variant) :
  NoDup (allNames remaining) ->
  remaining !! i = Some t ->
  trait_variants t !! j = Some y ->
  <[i := {| trait_trait := trait_trait t;
            trait_variants := <[j := decVariant y]> (trait_variants t) |}]> remaining
  = commitVariants [variant_name y] remaining.
Proof.
  revert i. induction remaining as [|x rest IH]; intros [|i] Hnd Hi Hj; simpl in *;
    try discriminate; apply NoDup_allNames_cons in Hnd; destruct Hnd as (Hx & Hrest & Hsep).
  - injection Hi as ->. f_equal.
    + rewrite (insert_commitVariantsOf _ _ _ Hx Hj). reflexivity.
    + symmetry. apply commitVariants_untouched. intros n [<-|[]]. apply Hsep.
      apply List.in_map, list_elem_of_In, list_elem_of_lookup. eauto.
  - f_equal; [|apply IH; assumption].
    destruct x as [name variants]. simpl in *. f_equal.
    symmetry. apply commitVariantsOf_untouched. intros v Hv [Heq|[]].
    apply (Hsep (variant_name v)); [apply List.in_map, Hv|].
    rewrite <- Heq. apply (name_in_concat rest t y).
    + apply list_elem_of_In, list_elem_of_lookup. eauto.
    + apply list_elem_of_In, list_elem_of_lookup. eauto.
Qed.

Lemma insert_commitTier (remaining : list Tier) (i : nat) (t : Tier) :
  NoDup (map tier_id remaining) ->
  remaining !! i = Some t ->
  <[i := decTier t]> remaining = commitTier (tier_id t) remaining.
Proof.
  revert i. induction remaining as [|x rest IH]; intros [|i] Hnd Hi; simpl in *;
    try discriminate; apply NoDup_cons in Hnd; destruct Hnd as [Hx Hrest].
  - injection Hi as ->. rewrite String.eqb_refl. f_equal.
    symmetry. apply map_id_on. intros u Hu.
    destruct (String.eqb_spec (tier_id u) (tier_id t)) as [Heq|]; [|reflexivity].
    exfalso. apply Hx. rewrite <- Heq. apply list_elem_of_In, List.in_map, Hu.
  - assert (Hne : String.eqb (tier_id x) (tier_id t) = false).
    { apply String.eqb_neq. intros Heq. apply Hx. rewrite Heq.
      apply list_elem_of_In, List.in_map, list_elem_of_In, list_elem_of_lookup. eauto. }
    rewrite Hne. f_equal. apply IH; assumption.
Qed.

Lemma commitVariantsOf_cons (n : string) (names : list string) (variants : list Variant) :
  commitVariantsOf names (commitVariantsOf [n] variants) =
  map (fun v => if String.eqb (variant_name v) n
                then (if existsb (String.eqb (variant_name v)) names
                      then decVariant (decVariant v) else decVariant v)
                else (if existsb (String.eqb (variant_name v)) names
                      then decVariant v else v)) variants.
Proof.
  unfold commitVariantsOf. rewrite List.map_map. apply List.map_ext. intros v. simpl.
  destruct (String.eqb (variant_name v) n); simpl; reflexivity.
Qed.

Lemma commitVariants_cons (n : string) (names : list string) (remaining : list Trait) :
  ~ List.In n names ->
  commitVariants names (commitVariants [n] remaining) = commitVariants (n :: names) remaining.
Proof.
  intros Hn. unfold commitVariants. rewrite List.map_map. apply List.map_ext.
  intros trait. simpl. f_equal. rewrite commitVariantsOf_cons.
  unfold commitVariantsOf. apply List.map_ext. intros v. simpl.
  destruct (String.eqb_spec (variant_name v) n) as [->|Hne]; [|reflexivity].
  simpl. destruct (existsb (String.eqb n) names) eqn:Hex; [|reflexivity].
  exfalso. apply List.existsb_exists in Hex. destruct Hex as (m & Hm & Heq).
  apply String.eqb_eq in Heq. subst m. contradiction.
Qed.

Lemma NoDup_map_lookup {A B} (f : A -> B) (l : list A) (i j : nat) (x y : A) :
  NoDup (map f l) -> l !! i = Some x -> l !! j = Some y -> f x = f y -> i = j.
Proof.
  intros Hnd Hi Hj Heq. eapply NoDup_lookup; [exact Hnd | |].
  - rewrite list_lookup_fmap, Hi. reflexivity.
  - rewrite list_lookup_fmap, Hj. simpl. congruence.
Qed.

Lemma tiersIndexed_exact (m : gmap string nat) (l : list Tier) :
  NoDup (map tier_id l) -> tiersIndexed m l -> exactTiers m l.
Proof.
  intros Hnd Hidx i t Hi.
  destruct (Hidx t) as (i' & t' & Hlook & Hi' & Hid).
  { apply list_elem_of_In, list_elem_of_lookup. eauto. }
  rewrite Hlook. f_equal. eapply NoDup_map_lookup; eauto.
Qed.

Lemma NoDup_allNames_lookup (l : list Trait) (i j : nat) (t u : Trait) (n : string) :
  NoDup (allNames l) -> l !! i = Some t -> l !! j = Some u ->
  List.In n (map variant_name (trait_variants t)) ->
  List.In n (map variant_name (trait_variants u)) -> i = j.
Proof.
  revert i j. induction l as [|x rest IH]; intros i j Hnd Hi Hj Ht Hu; [discriminate|].
  apply NoDup_allNames_cons in Hnd. destruct Hnd as (_ & Hrest & Hsep).
  assert (Hmem : forall k a, rest !! k = Some a ->
                 List.In n (map variant_name (trait_variants a)) ->
                 List.In n (allNames rest)).
  { intros k a Hk Ha. apply List.in_concat. exists (map variant_name (trait_variants a)).
    split; [|exact Ha]. apply List.in_map_iff. exists a. split; [reflexivity|].
    apply list_elem_of_In, list_elem_of_lookup. eauto. }
  destruct i as [|i], j as [|j]; simpl in *.
  - reflexivity.
  - injection Hi as ->. exfalso. eapply Hsep; eauto.
  - injection Hj as ->. exfalso. eapply Hsep; eauto.
  - f_equal. eapply IH; eassumption.
Qed.

Lemma variantsIndexed_exact (m : gmap string nat) (l : list Trait) :
  NoDup (allNames l) -> variantsIndexed m l -> exactVariants m l.
Proof.
  intros Hnd Hidx i t v Hi Hv.
  destruct (Hidx t v) as (i' & t' & v' & Hlook & Hi' & Hv' & Hname); [|exact Hv|].
  { apply list_elem_of_In, list_elem_of_lookup. eauto. }
  rewrite Hlook. f_equal. eapply (NoDup_allNames_lookup l i' i t' t (variant_name v)); eauto.
  - rewrite <- Hname. apply List.in_map, Hv'.
  - apply List.in_map, Hv.
Qed.

Lemma findIndex_exact {A} (f : A -> string) (l : list A) (j : nat) (y : A) :
  NoDup (map f l) -> l !! j = Some y ->
  findIndex (fun u => String.eqb (f u) (f y)) l = Some j.
Proof.
  revert j. induction l as [|x rest IH]; intros [|j] Hnd Hj; simpl in *; try discriminate;
    apply NoDup_cons in Hnd; destruct Hnd as [Hx Hrest].
  - injection Hj as ->. rewrite String.eqb_refl. reflexivity.
  - assert (Hne : String.eqb (f x) (f y) = false).
    { apply String.eqb_neq. intros Heq. apply Hx. rewrite Heq.
      apply list_elem_of_In, List.in_map, list_elem_of_In, list_elem_of_lookup. eauto. }
    rewrite Hne, (IH j Hrest Hj). reflexivity.
Qed.

Lemma NoDup_allNames_trait (l : list Trait) (t : Trait) :
  NoDup (allNames l) -> List.In t l -> NoDup (map variant_name (trait_variants t)).
Proof.
  induction l as [|x rest IH]; intros Hnd Hin; [destruct Hin|].
  apply NoDup_allNames_cons in Hnd. destruct Hnd as (Hx & Hrest & _).
  destruct Hin as [->|Hin]; [exact Hx | apply IH; assumption].
Qed.

Lemma same_name_same_variant (l : list Trait) (t t' : Trait) (v v' : Variant) :
  NoDup (allNames l) ->
  List.In t l -> List.In v (trait_variants t) ->
  List.In t' l -> List.In v' (trait_variants t') ->
  variant_name v = variant_name v' -> v = v'.
Proof.
  intros Hnd Ht Hv Ht' Hv' Hname.
  pose proof Ht as Hti. pose proof Ht' as Hti'.
  apply list_elem_of_In, list_elem_of_lookup in Hti. destruct Hti as [i Hi].
  apply list_elem_of_In, list_elem_of_lookup in Hti'. destruct Hti' as [i' Hi'].
  assert (i = i').
  { eapply (NoDup_allNames_lookup l i i' t t' (variant_name v)); eauto.
    - apply List.in_map, Hv.
    - rewrite Hname. apply List.in_map, Hv'. }
  subst i'. assert (t' = t) by congruence. subst t'.
  pose proof (NoDup_allNames_trait l t Hnd Ht) as Hndt.
  apply list_elem_of_In, list_elem_of_lookup in Hv. destruct Hv as [j Hj].
  apply list_elem_of_In, list_elem_of_lookup in Hv'. destruct Hv' as [j' Hj'].
  assert (j = j') by (eapply NoDup_map_lookup; eauto). subst j'. congruence.
Qed.

Lemma exactVariants_commit (m : gmap string nat) (names : list string) (l : list Trait) :
  exactVariants m l -> exactVariants m (commitVariants names l).
Proof.
  intros H i t v Hi Hv. unfold commitVariants in Hi.
  rewrite list_lookup_fmap in Hi. destruct (l !! i) as [t0|] eqn:Hi0; [|discriminate].
  simpl in Hi. injection Hi as <-. simpl in Hv. unfold commitVariantsOf in Hv.
  apply List.in_map_iff in Hv. destruct Hv as (v0 & Heq & Hv0).
  assert (Hname : variant_name v = variant_name v0).
  { rewrite <- Heq. destruct (existsb _ names); reflexivity. }
  rewrite Hname. eapply H; eassumption.
Qed.

Lemma named_commit (names : list string) (l : list Trait) (item : Selected) :
  named l item -> named (commitVariants names l) item.
Proof.
  intros (trait & v & Ht & Hv & Hname).
  exists {| trait_trait := trait_trait trait;
            trait_variants := commitVariantsOf names (trait_variants trait) |},
         (if existsb (String.eqb (variant_name v)) names then decVariant v else v).
  split; [|split].
  - unfold commitVariants. apply List.in_map_iff. exists trait. auto.
  - simpl. unfold commitVariantsOf. apply List.in_map_iff. exists v. auto.
  - rewrite <- Hname. destruct (existsb _ names); reflexivity.
Qed.

Lemma decrementVariant_exact (item : Selected) (w : World) (remaining : list Trait) :
  remainingVariantQuotas (this w) = Some remaining ->
  NoDup (allNames remaining) ->
  exactVariants (variantNameToTraitIndex (this w)) remaining ->
  named remaining item ->
  exists w',
    decrementVariant item w = (inr tt, w')
    /\ remainingVariantQuotas (this w')
       = Some (commitVariants [variant_name (sel_variant item)] remaining)
    /\ onlyVariants w w'.
Proof.
  intros Hrem Hnd Hexact (trait & v & Ht & Hv & Hname).
  pose proof Ht as Hti. apply list_elem_of_In, list_elem_of_lookup in Hti.
  destruct Hti as [i Hi].
  pose proof Hv as Hvj. apply list_elem_of_In, list_elem_of_lookup in Hvj.
  destruct Hvj as [j Hj].
  pose proof (Hexact i trait v Hi Hv) as Hlook. rewrite Hname in Hlook.
  pose proof (findIndex_exact variant_name (trait_variants trait) j v
                (NoDup_allNames_trait _ _ Hnd Ht) Hj) as Hfind.
  rewrite Hname in Hfind.
  unfold decrementVariant, nonNull, gets, bind, ret, modify. cbv beta iota zeta.
  rewrite Hrem, Hlook. simpl. rewrite Hi. simpl. rewrite Hfind. simpl. rewrite Hj. simpl.
  eexists. split; [reflexivity|]. simpl. split; [|repeat split].
  rewrite <- Hname. f_equal. apply insert_commitVariants; assumption.
Qed.

Lemma decrementVariants_exact (l : list Selected) :
  forall (w : World) (remaining : list Trait),
  remainingVariantQuotas (this w) = Some remaining ->
  NoDup (allNames remaining) ->
  exactVariants (variantNameToTraitIndex (this w)) remaining ->
  Forall (named remaining) l ->
  NoDup (chosenNames l) ->
  exists w',
    decrementVariants l w = (inr tt, w')
    /\ remainingVariantQuotas (this w') = Some (commitVariants (chosenNames l) remaining)
    /\ onlyVariants w w'.
Proof.
  induction l as [|item rest IH]; intros w remaining Hrem Hnd Hexact Hall Hnames;
    cbn [decrementVariants].
  - exists w. split; [reflexivity|]. simpl. rewrite commitVariants_nil.
    split; [exact Hrem | repeat split].
  - inversion Hall as [|x xs Hitem Hrest]; subst.
    simpl in Hnames. apply NoDup_cons in Hnames. destruct Hnames as [Hfresh Hnames].
    destruct (decrementVariant_exact item w remaining Hrem Hnd Hexact Hitem)
      as (w1 & Hdec & Hrem1 & Honly).
    rewrite (bind_eval _ _ _ _ _ Hdec).
    destruct Honly as (O1 & O2 & O3 & O4 & O5 & O6).
    destruct (IH w1 _ Hrem1) as (w' & Hdecs & Hrem' & Honly').
    { rewrite commitVariants_names. exact Hnd. }
    { rewrite O5. apply exactVariants_commit, Hexact. }
    { eapply Forall_impl; [exact Hrest|]. intros it. apply named_commit. }
    { exact Hnames. }
    exists w'. split; [exact Hdecs|]. split.
    + rewrite Hrem'. f_equal. simpl. apply commitVariants_cons.
      intros Hin. apply Hfresh, list_elem_of_In, Hin.
    + destruct Honly' as (P1 & P2 & P3 & P4 & P5 & P6). repeat split; congruence.
Qed.

Lemma decrementQuotas_exact (tierId : string) (l : list Selected) (w : World)
    (remainingTiers : list Tier) (remainingVariants : list Trait) :
  remainingTierQuotas (this w) = Some remainingTiers ->
  remainingVariantQuotas (this w) = Some remainingVariants ->
  NoDup (map tier_id remainingTiers) ->
  NoDup (allNames remainingVariants) ->
  exactTiers (tierIdToIndex (this w)) remainingTiers ->
  exactVariants (variantNameToTraitIndex (this w)) remainingVariants ->
  (exists tier, List.In tier remainingTiers /\ tier_id tier = tierId) ->
  Forall (named remainingVariants) l ->
  NoDup (chosenNames l) ->
  exists w',
    decrementQuotas tierId l w = (inr tt, w')
    /\ remainingTierQuotas (this w') = Some (commitTier tierId remainingTiers)
    /\ remainingVariantQuotas (this w')
       = Some (commitVariants (chosenNames l) remainingVariants).
Proof.
  intros Hrt Hrv Hndt Hndv Het Hev (tier & Hin & Hid) Hall Hnames.
  apply list_elem_of_In, list_elem_of_lookup in Hin. destruct Hin as [i Hi].
  pose proof (Het i tier Hi) as Hlook. rewrite Hid in Hlook.
  unfold decrementQuotas.
  rewrite (bind_eval _ _ w w (tierIdToIndex (this w) !! tierId)) by reflexivity.
  rewrite (bind_eval _ _ _ _ _ (nonNull_eval _ _ _ Hrt)).
  rewrite Hlook. simpl. rewrite Hi. simpl.
  set (w1 := {| this := set_remainingTierQuotas (Some (<[i := decTier tier]> remainingTiers))
                          (this w);
                console := console w |}).
  rewrite (bind_eval _ _ w w1 tt) by reflexivity.
  destruct (decrementVariants_exact l w1 remainingVariants Hrv Hndv Hev Hall Hnames)
    as (w' & Hdec & Hrem' & Honly).
  destruct Honly as (O1 & O2 & _). simpl in O2.
  exists w'. split; [exact Hdec|]. split; [|exact Hrem'].
  rewrite O2. f_equal. rewrite <- Hid. apply insert_commitTier; assumption.
Qed.

Lemma sameTier_ids (l l' : list Tier) :
  Forall2 sameTier l l' -> map tier_id l' = map tier_id l.
Proof.
  induction 1 as [|a b l l' (Hid & _) _ IH]; simpl; [reflexivity|]. rewrite IH, Hid.
  reflexivity.
Qed.

Lemma sameVariant_names (l l' : list Variant) :
  Forall2 sameVariant l l' -> map variant_name l' = map variant_name l.
Proof.
  induction 1 as [|a b l l' (Hn & _) _ IH]; simpl; [reflexivity|]. rewrite IH, Hn.
  reflexivity.
Qed.

Lemma sameTrait_names (l l' : list Trait) :
  Forall2 sameTrait l l' -> allNames l' = allNames l.
Proof.
  unfold allNames. induction 1 as [|a b l l' (_ & Hvs) _ IH]; simpl; [reflexivity|].
  rewrite IH, (sameVariant_names _ _ Hvs). reflexivity.
Qed.

Lemma chosen_distinct (selected : list Selected) (remaining : list Trait) :
  NoDup (allNames remaining) ->
  Forall2 (fun item trait => List.In (sel_variant item) (trait_variants trait))
          selected remaining ->
  NoDup (chosenNames selected).
Proof.
  intros Hnd H. induction H as [|item trait sel rem Hin Hrem IH]; simpl; [constructor|].
  apply NoDup_allNames_cons in Hnd. destruct Hnd as (_ & Hrest & Hsep).
  constructor; [|apply IH, Hrest].
  intros Hmem. apply list_elem_of_In in Hmem. apply (Hsep (variant_name (sel_variant item))).
  - apply List.in_map, Hin.
  - clear -Hrem Hmem. induction Hrem as [|it tr sel rem Hin _ IH]; [destruct Hmem|].
    unfold allNames. simpl. apply List.in_app_iff. destruct Hmem as [Heq|Hmem].
    + left. rewrite <- Heq. apply List.in_map, Hin.
    + right. apply IH, Hmem.
Qed.

(** What a committing attempt does to the quota lists when keys are distinct. *)
Lemma attempt_exact (c : Config) (attempts : Z) (w w' : World)
    tierId tierName score variants n :
  distinctKeys c -> mirrors c (this w) -> indexed (this w) ->
  attempt attempts w = (inr (Some (Success tierId tierName score variants n)), w') ->
  exists remainingTiers remainingVariants,
    remainingTierQuotas (this w) = Some remainingTiers
    /\ remainingVariantQuotas (this w) = Some remainingVariants
    /\ remainingTierQuotas (this w') = Some (commitTier tierId remainingTiers)
    /\ remainingVariantQuotas (this w')
       = Some (commitVariants (chosenNames variants) remainingVariants)
    /\ (exists tier, List.In tier remainingTiers /\ tier_id tier = tierId
                     /\ 0 < tier_quota tier)
    /\ Forall2 (fun item trait =>
                  List.In (sel_variant item) (trait_variants trait)
                  /\ 0 < variant_quota (sel_variant item))
               variants remainingVariants.
Proof.
  intros [Hdt Hdv] Hm Hidx H. apply attempt_some in H.
  destruct H as (tid & sel & info & w1 & w2 & w3 & w4 & Htier & Hsel & Hrange & Hdec & Hinfo & Heq).
  injection Heq as -> -> -> -> ->.
  apply selectTierWeighted_inv in Htier.
  destruct Htier as (-> & rt & tier & Hrt & Hin & Hid & Hq).
  apply selectVariantsForTier_inv in Hsel.
  destruct Hsel as (rv & Hrv & (S1 & S2 & S3 & S4 & S5) & Hall).
  simpl in Hrv, S1, S2, S3, S4, S5.
  apply isScoreInTierRange_inv in Hrange. destruct Hrange as (-> & _).
  apply getTierById_inv in Hinfo. destruct Hinfo as (-> & _).
  destruct Hm as (Hc & rt0 & rv0 & Hrt0 & Hrv0 & Hst & Hsv).
  assert (rt0 = rt) by congruence. assert (rv0 = rv) by congruence. subst rt0 rv0.
  assert (Hndt : NoDup (map tier_id rt)) by (rewrite (sameTier_ids _ _ Hst); exact Hdt).
  assert (Hndv : NoDup (allNames rv)) by (rewrite (sameTrait_names _ _ Hsv); exact Hdv).
  destruct Hidx as [I1 I2].
  assert (Hmembers : Forall2 (fun item trait =>
                                List.In (sel_variant item) (trait_variants trait)
                                /\ 0 < variant_quota (sel_variant item)) sel rv).
  { eapply Forall2_impl; [exact Hall|]. intros item trait (_ & Hav).
    apply availableVariantsOf_spec in Hav. tauto. }
  destruct (decrementQuotas_exact tid sel w2 rt rv) as (w5 & Hdec' & Hrt' & Hrv').
  { congruence. }
  { congruence. }
  { exact Hndt. }
  { exact Hndv. }
  { rewrite S4. apply tiersIndexed_exact; [exact Hndt | apply I1, Hrt]. }
  { rewrite S5. apply variantsIndexed_exact; [exact Hndv | apply I2, Hrv]. }
  { eauto. }
  { eapply Forall2_Forall_l; [exact Hmembers|].
    apply Forall_forall. intros trait Htrait item (Hmem & _).
    exists trait, (sel_variant item). apply list_elem_of_In in Htrait. auto. }
  { eapply chosen_distinct; [exact Hndv|].
    eapply Forall2_impl; [exact Hmembers|]. intros item trait [Hmem _]. exact Hmem. }
  rewrite Hdec in Hdec'. injection Hdec' as <-.
  exists rt, rv. split; [exact Hrt|]. split; [congruence|].
  split; [exact Hrt'|]. split; [exact Hrv'|]. split; [eauto | exact Hmembers].
Qed.

Lemma generateNFT_loop_exact (c : Config) (fuel : nat) (maxRetries : Z) :
  forall (attempts : Z) (w w' : World) tierId tierName score variants n,
  mirrors c (this w) -> indexed (this w) ->
  generateNFT_loop fuel maxRetries attempts w
  = (inr (Success tierId tierName score variants n), w') ->
  exists w1,
    mirrors c (this w1) /\ indexed (this w1)
    /\ remainingTierQuotas (this w1) = remainingTierQuotas (this w)
    /\ remainingVariantQuotas (this w1) = remainingVariantQuotas (this w)
    /\ attempt (n - 1) w1 = (inr (Some (Success tierId tierName score variants n)), w').
Proof.
  induction fuel as [|fuel IH]; intros attempts w w' tierId tierName score variants n Hm Hidx;
    cbn [generateNFT_loop].
  - discriminate.
  - destruct (attempts <? maxRetries); [|discriminate].
    unfold bind. rewrite iteration_eval.
    pose proof (attempt_counters c attempts w Hm Hidx) as Hcount.
    pose proof (attempt_evolves attempts w) as Hev.
    destruct (attempt attempts w) as [[e|[result|]] w1] eqn:Hattempt; simpl in Hev.
    + assert (Hlog : evolves w (logged attempts e w1)).
      { etransitivity; [exact Hev|]. apply sameEngine_evolves. reflexivity. }
      intros H. apply IH in H;
        [|eapply evolves_mirrors; eassumption | eapply evolves_indexed; eassumption].
      destruct H as (w2 & M2 & I2 & T2 & V2 & H). exists w2. simpl in T2, V2.
      destruct Hcount as [Ht Hv].
      split; [exact M2|]. split; [exact I2|]. split; [congruence|]. split; [congruence|].
      exact H.
    + intros [= -> <-]. exists w. split; [exact Hm|]. split; [exact Hidx|].
      split; [reflexivity|]. split; [reflexivity|].
      pose proof Hattempt as Hsome. apply attempt_some in Hsome.
      destruct Hsome as (tid & sel & info & w2 & w3 & w4 & w5 & _ & _ & _ & _ & _ & Heq).
      injection Heq as _ _ _ _ ->. replace (attempts + 1 - 1) with attempts by lia.
      exact Hattempt.
    + intros H. apply IH in H;
        [|eapply evolves_mirrors; eassumption | eapply evolves_indexed; eassumption].
      destruct H as (w2 & M2 & I2 & T2 & V2 & H). exists w2.
      destruct Hcount as [Ht Hv].
      split; [exact M2|]. split; [exact I2|]. split; [congruence|]. split; [congruence|].
      exact H.
Qed.



Lemma NoDup_map_In_eq {A B} (f : A -> B) (l : list A) (x y : A) :
  NoDup (map f l) -> List.In x l -> List.In y l -> f x = f y -> x = y.
Proof.
  intros Hnd Hx Hy Heq.
  apply list_elem_of_In, list_elem_of_lookup in Hx. destruct Hx as [i Hi].
  apply list_elem_of_In, list_elem_of_lookup in Hy. destruct Hy as [j Hj].
  assert (i = j) by (eapply NoDup_map_lookup; eauto). subst j. congruence.
Qed.

Lemma commitTier_nonneg (tierId : string) (remaining : list Tier) (tier : Tier) :
  NoDup (map tier_id remaining) ->
  List.In tier remaining -> tier_id tier = tierId -> 0 < tier_quota tier ->
  Forall (fun t => 0 <= tier_quota t) remaining ->
  Forall (fun t => 0 <= tier_quota t) (commitTier tierId remaining).
Proof.
  intros Hnd Hin Hid Hq Hall. unfold commitTier. apply Forall_forall. intros u Hu.
  apply list_elem_of_In, List.in_map_iff in Hu. destruct Hu as (t & <- & Ht).
  rewrite Forall_forall in Hall. specialize (Hall t (proj2 (list_elem_of_In _ _) Ht)).
  destruct (String.eqb_spec (tier_id t) tierId) as [Heq|]; [|exact Hall].
  assert (t = tier) by (eapply NoDup_map_In_eq; eauto; congruence). subst t.
  simpl. lia.
Qed.

Lemma commitVariants_nonneg (selected : list Selected) (remaining : list Trait) :
  NoDup (allNames remaining) ->
  Forall2 (fun item trait =>
             List.In (sel_variant item) (trait_variants trait)
             /\ 0 < variant_quota (sel_variant item)) selected remaining ->
  Forall (fun trait => Forall (fun v => 0 <= variant_quota v) (trait_variants trait)) remaining ->
  Forall (fun trait => Forall (fun v => 0 <= variant_quota v) (trait_variants trait))
         (commitVariants (chosenNames selected) remaining).
Proof.
  intros Hnd Hsel Hall. unfold commitVariants. apply Forall_forall. intros t' Ht'.
  apply list_elem_of_In, List.in_map_iff in Ht'. destruct Ht' as (t & <- & Ht). simpl.
  unfold commitVariantsOf. apply Forall_forall. intros v' Hv'.
  apply list_elem_of_In, List.in_map_iff in Hv'. destruct Hv' as (v & <- & Hv).
  rewrite Forall_forall in Hall. specialize (Hall t (proj2 (list_elem_of_In _ _) Ht)).
  rewrite Forall_forall in Hall. specialize (Hall v (proj2 (list_elem_of_In _ _) Hv)).
  simpl in Hall.
  destruct (existsb (String.eqb (variant_name v)) (chosenNames selected)) eqn:Hex;
    [|exact Hall].
  apply List.existsb_exists in Hex. destruct Hex as (n & Hn & Heq).
  apply String.eqb_eq in Heq. subst n. unfold chosenNames in Hn.
  apply List.in_map_iff in Hn. destruct Hn as (item & Hname & Hitem).
  apply list_elem_of_In, list_elem_of_lookup in Hitem. destruct Hitem as [k Hk].
  destruct (Forall2_lookup_l _ _ _ _ _ Hsel Hk) as (trait & Htrait & Hmem & Hq).
  assert (v = sel_variant item).
  { eapply (same_name_same_variant remaining t trait); eauto.
    apply list_elem_of_In, list_elem_of_lookup. eauto. }
  subst v. simpl. lia.
Qed.

Lemma reachable_nonNegative (c : Config) (w : World) :
  distinctKeys c ->
  Forall (fun tier => 0 <= tier_quota tier) (tiers c) ->
  Forall (fun trait => Forall (fun v => 0 <= variant_quota v) (trait_variants trait))
         (traits c) ->
  reachable c w ->
  nonNegative w.
Proof.
  intros Hdist Ht Hv Hreach.
  induction Hreach as [w0 w Hload | w w' maxRetries r Hreach IH Hgen].
  - apply loadConfig_inv in Hload. destruct Hload as (_ & Hrt & Hrv & _).
    split; intros l Hl; [rewrite Hrt in Hl | rewrite Hrv in Hl]; injection Hl as <-; assumption.
  - pose proof (reachable_mirrors _ _ Hreach) as Hm.
    pose proof (reachable_indexed _ _ Hreach) as Hidx.
    pose proof (generateNFT_loop_counters c (Z.to_nat maxRetries) maxRetries 0 w Hm Hidx)
      as Hcount.
    unfold generateNFT in Hgen.
    assert (Hkeep : remainingTierQuotas (this w') = remainingTierQuotas (this w)
                    /\ remainingVariantQuotas (this w') = remainingVariantQuotas (this w) ->
                    nonNegative w').
    { intros [Kt Kv]. destruct IH as [IHt IHv].
      split; intros l Hl; [apply IHt | apply IHv]; congruence. }
    rewrite Hgen in Hcount.
    destruct r as [e|[tierId tierName score variants n|error n]];
      [apply Hkeep, Hcount | | apply Hkeep, Hcount].
    destruct (generateNFT_loop_exact c _ _ _ _ _ _ _ _ _ _ Hm Hidx Hgen)
      as (w1 & M1 & I1 & T1 & V1 & Hattempt).
    destruct (attempt_exact c _ _ _ _ _ _ _ _ Hdist M1 I1 Hattempt)
      as (rt & rv & Hrt & Hrv & Hrt' & Hrv' & (tier & Hin & Hid & Hq) & Hall).
    destruct M1 as (_ & rt0 & rv0 & Hrt0 & Hrv0 & Hst & Hsv).
    assert (rt0 = rt) by congruence. assert (rv0 = rv) by congruence. subst rt0 rv0.
    destruct Hdist as [Hdt Hdv]. destruct IH as [IHt IHv].
    split; intros l Hl.
    + rewrite Hrt' in Hl. injection Hl as <-.
      eapply commitTier_nonneg; eauto.
      * rewrite (sameTier_ids _ _ Hst). exact Hdt.
      * apply IHt. congruence.
    + rewrite Hrv' in Hl. injection Hl as <-.
      apply commitVariants_nonneg; [|exact Hall|].
      * rewrite (sameTrait_names _ _ Hsv). exact Hdv.
      * apply IHv. congruence.
Qed.

(** When tier ids and variant names are distinct and no configured quota is
    negative, no remaining counter of a loaded engine ever goes below 0,
    whatever sequence of [generateNFT] calls it has answered. *)
Theorem counters_stay_nonnegative (c : Config) (w : World) :
  distinctKeys c ->
  Forall (fun tier => 0 <= tier_quota tier) (tiers c) ->
  Forall (fun trait => Forall (fun v => 0 <= variant_quota v) (trait_variants trait))
         (traits c) ->
  reachable c w ->
  nonNegative w.
Proof. apply reachable_nonNegative. Qed.


Lemma counters_stay_nonnegative_witness :
  distinctKeys surplusConfig
  /\ reachable surplusConfig (afterOne surplusConfig)
  /\ nonNegative (afterOne surplusConfig).
Proof.
  assert (Hdist : distinctKeys surplusConfig).
  { split; apply (bool_decide_unpack _); vm_compute; exact I. }
  assert (Hreach : reachable surplusConfig (afterOne surplusConfig)).
  { apply (reachable_generate surplusConfig (loaded surplusConfig) _ 100
             (fst (generateNFT 100 (loaded surplusConfig)))).
    - apply loaded_reachable. vm_compute. reflexivity.
    - unfold afterOne, generateNFT_default.
      destruct (generateNFT 100 (loaded surplusConfig)); reflexivity. }
  split; [exact Hdist|]. split; [exact Hreach|].
  apply (counters_stay_nonnegative surplusConfig); try assumption.
  - apply (bool_decide_unpack _). vm_compute. exact I.
  - apply (bool_decide_unpack _). vm_compute. exact I.
Defined.

(** ** Validation of the configuration *)

Lemma lift_inr {A} (r : Exn + A) (w w' : World) (a : A) :
  lift r w = (inr a, w') -> r = inr a /\ w' = w.
Proof. destruct r; simpl; [discriminate|]. intros [= -> ->]. auto. Qed.

Lemma lift_eval {A} (r : Exn + A) (w : World) (a : A) : r = inr a -> lift r w = (inr a, w).
Proof. intros ->. reflexivity. Qed.

Lemma validateTier_inv (tier : JS.Value) (index : nat) (total : Z) (w w' : World) (z : Z) :
  validateTier tier index total w = (inr z, w') ->
  w' = w /\ tierAccepted tier
  /\ exists quota, JS.prop tier "quota" = inr (JS.Num quota) /\ z = total + quota.
Proof.
  unfold validateTier. intros H.
  apply bind_inr in H. destruct H as (id & w1 & Hid & H).
  apply lift_inr in Hid. destruct Hid as [Hid ->].
  apply bind_inr in H. destruct H as (range & w1 & Hrange & H).
  apply lift_inr in Hrange. destruct Hrange as [Hrange ->].
  apply bind_inr in H. destruct H as (quota & w1 & Hquota & H).
  apply lift_inr in Hquota. destruct Hquota as [Hquota ->].
  destruct (JS.truthy id) eqn:Tid; [|discriminate].
  destruct (JS.truthy range) eqn:Trange; [|discriminate].
  destruct quota as [| | |q| | |]; try discriminate.
  simpl in H. injection H as <- <-.
  split; [reflexivity|]. split; [|eauto].
  exists id, range, q. tauto.
Qed.

Lemma validateTier_accepts (tier : JS.Value) (index : nat) (total : Z) (w : World) :
  tierAccepted tier -> exists z, validateTier tier index total w = (inr z, w).
Proof.
  intros (id & range & q & Hid & Tid & Hrange & Trange & Hq).
  unfold validateTier.
  rewrite (bind_eval _ _ _ _ _ (lift_eval _ w _ Hid)).
  rewrite (bind_eval _ _ _ _ _ (lift_eval _ w _ Hrange)).
  rewrite (bind_eval _ _ _ _ _ (lift_eval _ w _ Hq)).
  rewrite Tid, Trange. simpl. eauto.
Qed.

Lemma validateVariant_inv (traitIndex : nat) (variant : JS.Value) (variantIndex : nat)
    (total : Z) (w w' : World) (z : Z) :
  validateVariant traitIndex variant variantIndex total w = (inr z, w') ->
  w' = w /\ variantAccepted variant.
Proof.
  unfold validateVariant. intros H.
  apply bind_inr in H. destruct H as (name & w1 & Hname & H).
  apply lift_inr in Hname. destruct Hname as [Hname ->].
  apply bind_inr in H. destruct H as (tier & w1 & Htier & H).
  apply lift_inr in Htier. destruct Htier as [Htier ->].
  apply bind_inr in H. destruct H as (points & w1 & Hpoints & H).
  apply lift_inr in Hpoints. destruct Hpoints as [Hpoints ->].
  apply bind_inr in H. destruct H as (quota & w1 & Hquota & H).
  apply lift_inr in Hquota. destruct Hquota as [Hquota ->].
  destruct (JS.truthy name) eqn:Tname; [|discriminate].
  destruct (JS.truthy tier) eqn:Ttier; [|discriminate].
  destruct points as [| | |p| | |]; destruct quota as [| | |q| | |];
    simpl in H; try discriminate.
  injection H as <- <-.
  split; [reflexivity|]. exists name, tier, p, q. tauto.
Qed.

Lemma validateVariant_accepts (traitIndex : nat) (variant : JS.Value) (variantIndex : nat)
    (total : Z) (w : World) :
  variantAccepted variant ->
  exists z, validateVariant traitIndex variant variantIndex total w = (inr z, w).
Proof.
  intros (name & tier & p & q & Hname & Tname & Htier & Ttier & Hp & Hq).
  unfold validateVariant.
  rewrite (bind_eval _ _ _ _ _ (lift_eval _ w _ Hname)).
  rewrite (bind_eval _ _ _ _ _ (lift_eval _ w _ Htier)).
  rewrite (bind_eval _ _ _ _ _ (lift_eval _ w _ Hp)).
  rewrite (bind_eval _ _ _ _ _ (lift_eval _ w _ Hq)).
  rewrite Tname, Ttier. simpl. eauto.
Qed.

Section ForEach.

Context {A : Type} (f : JS.Value -> nat -> A -> M A) (P : JS.Value -> Prop).

Hypothesis f_inv : forall x i a w r w', f x i a w = (inr r, w') -> P x.

Lemma forEach_from_inv (l : list JS.Value) :
  forall i a w r w', forEach_from f l i a w = (inr r, w') -> Forall P l.
Proof.
  induction l as [|x rest IH]; intros i a w r w' H; [constructor|].
  cbn [forEach_from] in H. apply bind_inr in H. destruct H as (a1 & w1 & Hx & H).
  constructor; [eapply f_inv, Hx | eapply IH, H].
Qed.

Lemma forEach_inv (v : JS.Value) (a : A) (w w' : World) (r : A) :
  forEach v f a w = (inr r, w') -> exists l, v = JS.Arr l /\ Forall P l.
Proof.
  destruct v; simpl; try discriminate. intros H. eexists. split; [reflexivity|].
  eapply forEach_from_inv, H.
Qed.

End ForEach.

Lemma validateTrait_inv (collectionSize trait : JS.Value) (traitIndex : nat)
    (w w' : World) (u r : unit) :
  validateTrait collectionSize trait traitIndex u w = (inr r, w') -> traitAccepted trait.
Proof.
  unfold validateTrait. intros H.
  apply bind_inr in H. destruct H as (name & w1 & Hname & H).
  apply lift_inr in Hname. destruct Hname as [Hname ->].
  destruct (JS.includes expectedTraitNames name) eqn:Hinc; [|discriminate]. simpl in H.
  destruct name as [| | | |s| |]; try discriminate.
  apply bind_inr in H. destruct H as (variants & w1 & Hvariants & H).
  apply lift_inr in Hvariants. destruct Hvariants as [Hvariants ->].
  apply bind_inr in H. destruct H as (tooFew & w1 & Hfew & H).
  destruct tooFew; [discriminate|].
  destruct (JS.truthy variants) eqn:Tv; simpl in Hfew; [|discriminate].
  apply bind_inr in Hfew. destruct Hfew as (len & w2 & Hlen & Hfew).
  apply lift_inr in Hlen. destruct Hlen as [Hlen ->].
  injection Hfew as Hfew <-. apply negb_false_iff in Hfew.
  apply bind_inr in H. destruct H as (total & w2 & Hloop & H).
  apply (forEach_inv _ variantAccepted) in Hloop.
  2: { intros x i a u1 r1 u2 Hx. apply validateVariant_inv in Hx. tauto. }
  destruct Hloop as (l & -> & Hall). simpl in Hlen. injection Hlen as <-.
  unfold JS.num_strict_eq in Hfew. apply Z.eqb_eq in Hfew.
  exists s, l. split; [exact Hname|]. split.
  - unfold JS.includes in Hinc. apply List.existsb_exists in Hinc. destruct Hinc as (n & Hn & Heq).
    apply String.eqb_eq in Heq. subst n. exact Hn.
  - split; [exact Hvariants|]. split; [lia | exact Hall].
Qed.

Lemma forEach_variants_total (traitIndex : nat) (l : list JS.Value) :
  Forall variantAccepted l ->
  forall i a w, exists z, forEach_from (validateVariant traitIndex) l i a w = (inr z, w).
Proof.
  induction 1 as [|x rest Hx _ IH]; intros i a w; cbn [forEach_from].
  - eexists. reflexivity.
  - destruct (validateVariant_accepts traitIndex x i a w Hx) as (a1 & H1).
    rewrite (bind_eval _ _ _ _ _ H1). apply IH.
Qed.

Lemma validateTrait_accepts (collectionSize trait : JS.Value) (traitIndex : nat) (w : World) :
  traitAccepted trait ->
  exists w', validateTrait collectionSize trait traitIndex tt w = (inr tt, w')
             /\ this w' = this w.
Proof.
  intros (name & variants & Hname & Hin & Hvariants & Hlen & Hall).
  unfold validateTrait.
  rewrite (bind_eval _ _ _ _ _ (lift_eval _ w _ Hname)).
  assert (Hinc : JS.includes expectedTraitNames (JS.Str name) = true).
  { unfold JS.includes. apply List.existsb_exists. exists name. split; [exact Hin | apply String.eqb_refl]. }
  rewrite Hinc. cbn [negb]. cbv iota.
  rewrite (bind_eval _ _ _ _ _ (lift_eval _ w _ Hvariants)).
  cbn [JS.truthy]. cbn [negb]. cbv iota.
  rewrite (bind_eval _ _ w w false).
  2: { unfold bind. simpl. rewrite Hlen. reflexivity. }
  cbv iota.
  destruct (forEach_variants_total traitIndex variants Hall 0%nat 0 w) as (total & Hloop).
  rewrite (bind_eval _ _ w w total) by exact Hloop.
  destruct (negb (JS.num_strict_eq total collectionSize)).
  - eexists. split; reflexivity.
  - eexists. split; reflexivity.
Qed.

Lemma forEach_tiers_total (l : list JS.Value) :
  Forall tierAccepted l ->
  forall i a w, exists z, forEach_from validateTier l i a w = (inr z, w).
Proof.
  induction 1 as [|x rest Hx _ IH]; intros i a w; cbn [forEach_from].
  - eexists. reflexivity.
  - destruct (validateTier_accepts x i a w Hx) as (a1 & H1).
    rewrite (bind_eval _ _ _ _ _ H1). apply IH.
Qed.

Lemma forEach_traits_total (collectionSize : JS.Value) (l : list JS.Value) :
  Forall traitAccepted l ->
  forall i w, exists w', forEach_from (validateTrait collectionSize) l i tt w = (inr tt, w').
Proof.
  induction 1 as [|x rest Hx _ IH]; intros i w; cbn [forEach_from].
  - eexists. reflexivity.
  - destruct (validateTrait_accepts collectionSize x i w Hx) as (w1 & H1 & _).
    rewrite (bind_eval _ _ _ _ _ H1). apply IH.
Qed.

Lemma prop_array_object (config : JS.Value) (k : string) (l : list JS.Value) :
  JS.prop config k = inr (JS.Arr l) -> exists fields, config = JS.Obj fields.
Proof.
  destruct config; simpl; try discriminate.
  - destruct (String.eqb k "length"); discriminate.
  - destruct (String.eqb k "length"); discriminate.
  - eauto.
Qed.

Lemma validateConfig_accepted_shape (config : JS.Value) (w w' : World) :
  validateConfig config w = (inr tt, w') -> configAccepted config.
Proof.
  intros H. unfold validateConfig in H.
  apply bind_inr in H. destruct H as (missing & w1 & Hmissing & H).
  destruct missing; [discriminate|].
  apply bind_inr in H. destruct H as (tiers & w2 & Htiers & H).
  apply lift_inr in Htiers. destruct Htiers as [Htiers ->].
  apply bind_inr in H. destruct H as (traits & w2 & Htraits & H).
  apply lift_inr in Htraits. destruct Htraits as [Htraits ->].
  apply bind_inr in H. destruct H as (size & w2 & Hsize & H).
  apply lift_inr in Hsize. destruct Hsize as [Hsize ->].
  apply bind_inr in H. destruct H as (total & w2 & Hloop & H).
  apply (forEach_inv _ tierAccepted) in Hloop.
  2: { intros x i a u1 r1 u2 Hx. apply validateTier_inv in Hx. tauto. }
  destruct Hloop as (ts & -> & Hts).
  apply bind_inr in H. destruct H as ([] & w3 & _ & H).
  apply bind_inr in H. destruct H as (len & w4 & Hlen & H).
  apply lift_inr in Hlen. destruct Hlen as [Hlen ->].
  destruct (JS.num_strict_eq (Z.of_nat (length expectedTraitNames)) len) eqn:Hsix;
    [|discriminate].
  simpl in H. apply (forEach_inv _ traitAccepted) in H.
  2: { intros x i a u1 r1 u2 Hx. eapply validateTrait_inv, Hx. }
  destruct H as (trs & -> & Htrs). simpl in Hlen. injection Hlen as <-.
  unfold JS.num_strict_eq in Hsix. apply Z.eqb_eq in Hsix. simpl length in Hsix.
  exists ts, trs. split; [exact Htiers|]. split; [exact Htraits|].
  split; [exact Hts|]. split; [lia | exact Htrs].
Qed.

Lemma validateConfig_accepts_shape (config : JS.Value) (w : World) :
  configAccepted config -> exists w', validateConfig config w = (inr tt, w').
Proof.
  intros (ts & trs & Htiers & Htraits & Hts & Hlen & Htrs).
  destruct (prop_array_object _ _ _ Htiers) as [fields ->].
  unfold validateConfig.
  rewrite (bind_eval _ _ w w false).
  2: { cbn [JS.truthy]. cbn [negb]. cbv iota.
       rewrite (bind_eval _ _ _ _ _ (lift_eval _ w _ Htiers)). cbn [JS.truthy].
       cbn [negb]. cbv iota.
       rewrite (bind_eval _ _ _ _ _ (lift_eval _ w _ Htraits)). reflexivity. }
  cbv iota.
  rewrite (bind_eval _ _ _ _ _ (lift_eval _ w _ Htiers)).
  rewrite (bind_eval _ _ _ _ _ (lift_eval _ w _ Htraits)).
  rewrite (bind_eval _ _ w w (JS.assoc "collectionSize" fields)) by reflexivity.
  destruct (forEach_tiers_total ts Hts 0%nat 0 w) as (total & Hloop).
  rewrite (bind_eval _ _ w w total) by exact Hloop.
  match goal with |- context [bind ?m _] =>
    assert (Hwarn : exists w1, m w = (inr tt, w1))
  end.
  { destruct (negb (JS.num_strict_eq total (JS.assoc "collectionSize" fields)));
      eexists; reflexivity. }
  destruct Hwarn as [w1 Hwarn]. rewrite (bind_eval _ _ _ _ _ Hwarn).
  rewrite (bind_eval _ _ w1 w1 (JS.Num (Z.of_nat (length trs)))) by reflexivity.
  rewrite Hlen. cbn [negb]. cbv iota.
  apply (forEach_traits_total _ trs Htrs).
Qed.

(** [validateConfig] returns exactly on the documents whose [tiers] is an
    array of objects with a truthy [id], a truthy [scoreRange] and a numeric
    [quota] (an empty array is enough), and whose [traits] is an array of
    six entries, each named after one of the six expected categories and
    holding an array of 26 variants with a truthy [name], a truthy [tier],
    and numeric [points] and [quota]. *)
Theorem validateConfig_accepts_iff (config : JS.Value) (w : World) :
  (exists w', validateConfig config w = (inr tt, w')) <-> configAccepted config.
Proof.
  split.
  - intros [w' H]. eapply validateConfig_accepted_shape, H.
  - apply validateConfig_accepts_shape.
Qed.

Lemma validateConfig_accepts_iff_witness :
  configAccepted (toJSON noTiersConfig) /\ ~ configAccepted (toJSON noTraitsConfig).
Proof.
  split.
  - apply (proj1 (validateConfig_accepts_iff (toJSON noTiersConfig) newWorld)).
    eexists. vm_compute. reflexivity.
  - intros H. apply (proj2 (validateConfig_accepts_iff (toJSON noTraitsConfig) newWorld)) in H.
    destruct H as [w' H]. vm_compute in H. discriminate.
Defined.

(** ** Validation of typed configurations *)

Lemma truthy_Str (s : string) : JS.truthy (JS.Str s) = true <-> s <> "".
Proof.
  simpl. destruct (String.eqb_spec s ""); simpl; split; intros; congruence.
Qed.

Lemma Forall_map_inv {A B} (f : A -> B) (P : B -> Prop) (Q : A -> Prop) (l : list A) :
  (forall x, P (f x) -> Q x) -> Forall P (map f l) -> Forall Q l.
Proof.
  intros HPQ. induction l as [|x rest IH]; intros H; [constructor|].
  apply Forall_cons_1 in H. destruct H as [Hx Hrest].
  constructor; [apply HPQ, Hx | apply IH, Hrest].
Qed.

Lemma tierAccepted_typed (t : Tier) : tierAccepted (tierJSON t) -> tier_id t <> "".
Proof.
  intros (id & range & q & Hid & Tid & _). simpl in Hid. injection Hid as <-.
  apply truthy_Str, Tid.
Qed.

Lemma variantAccepted_typed (v : Variant) : variantAccepted (variantJSON v) -> variantWellFormed v.
Proof.
  intros (name & tier & p & q & Hname & Tname & Htier & Ttier & _).
  simpl in Hname, Htier. injection Hname as <-. injection Htier as <-.
  split; apply truthy_Str; assumption.
Qed.

Lemma traitAccepted_typed (t : Trait) : traitAccepted (traitJSON t) -> traitWellFormed t.
Proof.
  intros (name & variants & Hname & Hin & Hvariants & Hlen & Hall).
  simpl in Hname, Hvariants. injection Hname as <-. injection Hvariants as <-.
  split; [exact Hin|]. split.
  - rewrite length_map in Hlen. exact Hlen.
  - eapply Forall_map_inv; [|exact Hall]. apply variantAccepted_typed.
Qed.

Lemma configAccepted_typed (c : Config) : configAccepted (toJSON c) -> wellFormed c.
Proof.
  intros (ts & trs & Htiers & Htraits & Hts & Hlen & Htrs).
  simpl in Htiers, Htraits. injection Htiers as <-. injection Htraits as <-.
  split; [|split].
  - eapply Forall_map_inv; [|exact Hts]. apply tierAccepted_typed.
  - rewrite length_map in Hlen. exact Hlen.
  - eapply Forall_map_inv; [|exact Htrs]. apply traitAccepted_typed.
Qed.

Lemma validateTier_typed (t : Tier) (index : nat) (total : Z) (w : World) :
  tier_id t <> "" -> validateTier (tierJSON t) index total w = (inr (total + tier_quota t), w).
Proof.
  intros H. apply truthy_Str in H.
  unfold validateTier, tierJSON, bind, lift. cbn [JS.prop JS.assoc String.eqb Ascii.eqb Bool.eqb].
  cbv beta iota. unfold ret at 1 2 3. cbv beta iota. rewrite H. reflexivity.
Qed.

Lemma validateVariant_typed (traitIndex : nat) (v : Variant) (index : nat) (total : Z) (w : World) :
  variantWellFormed v ->
  validateVariant traitIndex (variantJSON v) index total w = (inr (total + variant_quota v), w).
Proof.
  intros [Hn Ht]. apply truthy_Str in Hn, Ht.
  unfold validateVariant, variantJSON, bind, lift.
  cbn [JS.prop JS.assoc String.eqb Ascii.eqb Bool.eqb].
  cbv beta iota. unfold ret at 1 2 3 4. cbv beta iota. rewrite Hn, Ht. reflexivity.
Qed.

Lemma sumZ_cons (x : Z) (l : list Z) : sumZ (x :: l) = x + sumZ l.
Proof. reflexivity. Qed.

Lemma forEach_tiers_typed (l : list Tier) :
  Forall (fun tier => tier_id tier <> "") l ->
  forall index total w,
    forEach_from validateTier (map tierJSON l) index total w
    = (inr (total + sumZ (map tier_quota l)), w).
Proof.
  induction 1 as [|t rest Ht _ IH]; intros index total w; cbn [map forEach_from].
  - unfold ret, sumZ. simpl. do 2 f_equal. lia.
  - rewrite (bind_eval _ _ _ _ _ (validateTier_typed t index total w Ht)).
    rewrite IH, sumZ_cons. do 2 f_equal. lia.
Qed.

Lemma forEach_variants_typed (traitIndex : nat) (l : list Variant) :
  Forall variantWellFormed l ->
  forall index total w,
    forEach_from (validateVariant traitIndex) (map variantJSON l) index total w
    = (inr (total + sumZ (map variant_quota l)), w).
Proof.
  induction 1 as [|v rest Hv _ IH]; intros index total w; cbn [map forEach_from].
  - unfold ret, sumZ. simpl. do 2 f_equal. lia.
  - rewrite (bind_eval _ _ _ _ _ (validateVariant_typed traitIndex v index total w Hv)).
    rewrite IH, sumZ_cons. do 2 f_equal. lia.
Qed.

Lemma world_eta (w : World) : w = {| this := this w; console := console w ++ [] |}.
Proof. destruct w. simpl. rewrite app_nil_r. reflexivity. Qed.

Lemma validateTrait_typed (size : Z) (t : Trait) (traitIndex : nat) (w : World) :
  traitWellFormed t ->
  validateTrait (JS.Num size) (traitJSON t) traitIndex tt w
  = (inr tt, {| this := this w; console := console w ++ traitWarnings size t |}).
Proof.
  intros (Hin & Hlen & Hall).
  assert (Hinc : JS.includes expectedTraitNames (JS.Str (trait_trait t)) = true).
  { unfold JS.includes. apply List.existsb_exists. exists (trait_trait t).
    split; [exact Hin | apply String.eqb_refl]. }
  unfold validateTrait.
  rewrite (bind_eval _ _ w w (JS.Str (trait_trait t))) by reflexivity.
  rewrite Hinc. cbn [negb]. cbv iota.
  rewrite (bind_eval _ _ w w (JS.Arr (map variantJSON (trait_variants t)))) by reflexivity.
  cbn [JS.truthy negb]. cbv iota.
  rewrite (bind_eval _ _ w w false).
  2: { unfold bind. simpl. rewrite length_map, Hlen. reflexivity. }
  cbv iota. unfold forEach.
  rewrite (bind_eval _ _ _ _ _ (forEach_variants_typed traitIndex _ Hall 0%nat 0 w)).
  unfold traitWarnings, JS.num_strict_eq. rewrite Z.add_0_l.
  destruct (sumZ (map variant_quota (trait_variants t)) =? size); simpl.
  - unfold ret. f_equal. apply world_eta.
  - reflexivity.
Qed.

Lemma forEach_traits_typed (size : Z) (l : list Trait) :
  Forall traitWellFormed l ->
  forall index w,
    forEach_from (validateTrait (JS.Num size)) (map traitJSON l) index tt w
    = (inr tt, {| this := this w; console := console w ++ flat_map (traitWarnings size) l |}).
Proof.
  induction 1 as [|t rest Ht _ IH]; intros index w; cbn [map forEach_from flat_map].
  - unfold ret. f_equal. apply world_eta.
  - rewrite (bind_eval _ _ _ _ _ (validateTrait_typed size t index w Ht)).
    rewrite IH. simpl. rewrite app_assoc. reflexivity.
Qed.

Lemma validateConfig_typed (c : Config) (w : World) :
  wellFormed c ->
  validateConfig (toJSON c) w
  = (inr tt, {| this := this w; console := console w ++ warningsOf c |}).
Proof.
  intros (Hts & Hlen & Htrs). unfold validateConfig.
  rewrite (bind_eval _ _ w w false) by reflexivity. cbv iota.
  rewrite (bind_eval _ _ w w (JS.Arr (map tierJSON (tiers c)))) by reflexivity.
  rewrite (bind_eval _ _ w w (JS.Arr (map traitJSON (traits c)))) by reflexivity.
  rewrite (bind_eval _ _ w w (JS.Num (collectionSize c))) by reflexivity.
  unfold forEach at 1.
  rewrite (bind_eval _ _ _ _ _ (forEach_tiers_typed _ Hts 0%nat 0 w)).
  rewrite Z.add_0_l.
  rewrite (bind_eval _ _ w {| this := this w; console := console w ++ tierWarnings c |} tt).
  2: { unfold tierWarnings, JS.num_strict_eq.
       destruct (sumZ (map tier_quota (tiers c)) =? collectionSize c); simpl.
       - unfold ret. f_equal. apply world_eta.
       - reflexivity. }
  rewrite (bind_eval _ _ _ _ (JS.Num (Z.of_nat (length (map traitJSON (traits c))))))
    by reflexivity.
  rewrite length_map, Hlen. cbn [length expectedTraitNames Z.of_nat JS.num_strict_eq].
  change (Z.of_nat 6 =? Z.of_nat 6) with true. cbn [negb]. cbv iota.
  unfold forEach. rewrite (forEach_traits_typed _ _ Htrs). simpl.
  unfold warningsOf. rewrite app_assoc. reflexivity.
Qed.


Lemma validateConfig_typed_iff (c : Config) (w : World) :
  (exists w', validateConfig (toJSON c) w = (inr tt, w')) <-> wellFormed c.
Proof.
  split.
  - intros [w' H]. eapply configAccepted_typed, validateConfig_accepted_shape, H.
  - intros H. eexists. apply validateConfig_typed, H.
Qed.

Lemma tierWarnings_nil (c : Config) :
  tierWarnings c = [] <-> sumZ (map tier_quota (tiers c)) = collectionSize c.
Proof.
  unfold tierWarnings.
  destruct (Z.eqb_spec (sumZ (map tier_quota (tiers c))) (collectionSize c));
    split; intros; congruence.
Qed.

Lemma traitWarnings_nil (size : Z) (t : Trait) :
  traitWarnings size t = [] <-> sumZ (map variant_quota (trait_variants t)) = size.
Proof.
  unfold traitWarnings.
  destruct (Z.eqb_spec (sumZ (map variant_quota (trait_variants t))) size);
    split; intros; congruence.
Qed.

Lemma flat_map_nil {A B} (f : A -> list B) (l : list A) :
  flat_map f l = [] <-> Forall (fun x => f x = []) l.
Proof.
  induction l as [|x rest IH]; simpl.
  - split; [constructor | reflexivity].
  - split.
    + intros H. apply app_eq_nil in H. destruct H as [Hx Hrest].
      constructor; [exact Hx | apply IH, Hrest].
    + intros H. apply Forall_cons_1 in H. destruct H as [Hx Hrest].
      rewrite Hx. apply IH, Hrest.
Qed.

Lemma warningsOf_nil (c : Config) : warningsOf c = [] <-> balanced c.
Proof.
  unfold warningsOf, balanced. split.
  - intros H. apply app_eq_nil in H. destruct H as [Ht Hv].
    split; [apply tierWarnings_nil, Ht|].
    apply flat_map_nil in Hv. eapply Forall_impl; [exact Hv|].
    intros t Hw. apply traitWarnings_nil, Hw.
  - intros [Ht Hv]. apply tierWarnings_nil in Ht. rewrite Ht. simpl.
    apply flat_map_nil. eapply Forall_impl; [exact Hv|].
    intros t Hw. apply traitWarnings_nil, Hw.
Qed.

Ltac well_formed :=
  vm_compute;
  repeat first [ split | apply List.Forall_nil | apply List.Forall_cons
               | discriminate | solve [auto 10] ].



(** ** Outcomes of [loadConfig] *)

Lemma loadConfig_returns (c : Config) (w : World) :
  wellFormed c -> exists w', loadConfig c w = (inr tt, w').
Proof.
  intros H. unfold loadConfig.
  rewrite (bind_eval _ _ w {| this := set_config (Some c) (this w); console := console w |} tt)
    by reflexivity.
  rewrite (bind_eval _ _ _ _ _ (validateConfig_typed c _ H)).
  unfold initializeQuotas, buildLookupMaps, nonNull, gets, modify, bind, ret. simpl.
  eexists. reflexivity.
Qed.

Lemma loadConfig_validates (c : Config) (w w' : World) :
  loadConfig c w = (inr tt, w') -> wellFormed c.
Proof.
  unfold loadConfig. intros H.
  apply bind_inr in H. destruct H as ([] & w1 & _ & H).
  apply bind_inr in H. destruct H as ([] & w2 & Hvalid & _).
  eapply configAccepted_typed, validateConfig_accepted_shape, Hvalid.
Qed.

(** [loadConfig] returns exactly on the configurations whose tier ids are
    non-empty strings and that have six categories, each with one of the six
    expected names and 26 variants with a non-empty name and a non-empty
    tier; neither the quotas nor the number of tiers play a part. *)
Theorem loadConfig_returns_iff (c : Config) (w : World) :
  (exists w', loadConfig c w = (inr tt, w')) <-> wellFormed c.
Proof.
  split.
  - intros [w' H]. eapply loadConfig_validates, H.
  - apply loadConfig_returns.
Qed.

Lemma loadConfig_returns_iff_witness :
  wellFormed surplusConfig
  /\ (exists w', loadConfig surplusConfig newWorld = (inr tt, w'))
  /\ ~ wellFormed noTraitsConfig.
Proof.
  assert (Hwf : wellFormed surplusConfig) by well_formed.
  split; [exact Hwf|]. split.
  - apply (proj2 (loadConfig_returns_iff surplusConfig newWorld)), Hwf.
  - intros H. apply (proj2 (loadConfig_returns_iff noTraitsConfig newWorld)) in H.
    destruct H as [w' H]. vm_compute in H. discriminate.
Defined.

(** When [loadConfig] throws, the configuration was not well formed, and the
    engine is left with the rejected configuration in [config] while its
    quota lists, lookup maps and seed are those of before the call. *)
Theorem loadConfig_rejected (c : Config) (w w' : World) (e : Exn) :
  loadConfig c w = (inl e, w') ->
  ~ wellFormed c /\ this w' = set_config (Some c) (this w).
Proof.
  intros H. split.
  - intros Hwf. destruct (loadConfig_returns c w Hwf) as [w1 H1]. congruence.
  - unfold loadConfig in H.
    rewrite (bind_eval _ _ w {| this := set_config (Some c) (this w); console := console w |} tt)
      in H by reflexivity.
    apply bind_inl in H. destruct H as [H | ([] & w2 & Hvalid & H)].
    + match type of H with validateConfig _ ?w1 = _ =>
        pose proof (validateConfig_sameEngine (toJSON c) w1) as Hsame
      end.
      rewrite H in Hsame. exact Hsame.
    + exfalso.
      match type of Hvalid with validateConfig _ ?w1 = _ =>
        pose proof (validateConfig_sameEngine (toJSON c) w1) as Hsame
      end.
      rewrite Hvalid in Hsame. unfold sameEngine in Hsame. simpl in Hsame.
      unfold initializeQuotas, buildLookupMaps, nonNull, gets, modify, bind, ret in H.
      repeat (rewrite Hsame in H; simpl in H). discriminate.
Qed.

Lemma loadConfig_rejected_witness :
  loadConfig noTraitsConfig newWorld
  = (inl (Error "Expected 6 traits, got 0"),
     {| this := set_config (Some noTraitsConfig) constructor; console := [] |})
  /\ ~ wellFormed noTraitsConfig
  /\ remainingTierQuotas (set_config (Some noTraitsConfig) constructor) = None.
Proof.
  assert (H : loadConfig noTraitsConfig newWorld
              = (inl (Error "Expected 6 traits, got 0"),
                 {| this := set_config (Some noTraitsConfig) constructor; console := [] |}))
    by (vm_compute; reflexivity).
  split; [exact H|]. split.
  - exact (proj1 (loadConfig_rejected _ _ _ _ H)).
  - reflexivity.
Defined.



(** ** [RarityConfigLoader.validateBasicStructure] *)

Lemma isArray_nonempty (v : JS.Value) :
  negb (isArray v) || (arrayLength v =? 0) = false <-> exists l, v = JS.Arr l /\ l <> [].
Proof.
  split.
  - destruct v as [| | | | |l|]; simpl; try discriminate.
    destruct l; simpl; [discriminate|]. intros _. eexists. split; [reflexivity | discriminate].
  - intros (l & -> & Hl). destruct l; [contradiction | reflexivity].
Qed.

Lemma number_nonzero (v : JS.Value) :
  negb (JS.truthy v) || negb (JS.is_number v) = false <-> exists n, v = JS.Num n /\ n <> 0.
Proof.
  split.
  - destruct v as [| | |n| | |]; simpl; try discriminate.
    + destruct b; discriminate.
    + destruct (Z.eqb_spec n 0); simpl; [discriminate|]. eauto.
    + destruct (String.eqb s ""); discriminate.
  - intros (n & -> & Hn). simpl. destruct (Z.eqb_spec n 0); [contradiction | reflexivity].
Qed.

(** [validateBasicStructure] returns exactly on the documents whose
    [collectionSize] is a number other than 0 and whose [tiers] and [traits]
    are non-empty arrays; it changes neither the engine nor the console. *)
Theorem validateBasicStructure_returns_iff (config : JS.Value) (w : World) :
  validateBasicStructure config w = (inr tt, w) <-> basicStructure config.
Proof.
  unfold validateBasicStructure. split.
  - intros H.
    apply bind_inr in H. destruct H as (size & w1 & Hsize & H).
    apply lift_inr in Hsize. destruct Hsize as [Hsize ->].
    destruct (negb (JS.truthy size) || negb (JS.is_number size)) eqn:Esize; [discriminate|].
    apply number_nonzero in Esize. destruct Esize as (n & -> & Hn).
    apply bind_inr in H. destruct H as (ts & w1 & Hts & H).
    apply lift_inr in Hts. destruct Hts as [Hts ->].
    destruct (negb (isArray ts) || (arrayLength ts =? 0)) eqn:Ets; [discriminate|].
    apply isArray_nonempty in Ets. destruct Ets as (lt & -> & Hlt).
    apply bind_inr in H. destruct H as (trs & w1 & Htrs & H).
    apply lift_inr in Htrs. destruct Htrs as [Htrs ->].
    destruct (negb (isArray trs) || (arrayLength trs =? 0)) eqn:Etrs; [discriminate|].
    apply isArray_nonempty in Etrs. destruct Etrs as (ltr & -> & Hltr).
    exists n, lt, ltr. tauto.
  - intros (n & lt & ltr & Hsize & Hn & Hts & Hlt & Htrs & Hltr).
    rewrite (bind_eval _ _ _ _ _ (lift_eval _ w _ Hsize)).
    rewrite (proj2 (number_nonzero (JS.Num n))) by eauto.
    rewrite (bind_eval _ _ _ _ _ (lift_eval _ w _ Hts)).
    rewrite (proj2 (isArray_nonempty (JS.Arr lt))) by eauto.
    rewrite (bind_eval _ _ _ _ _ (lift_eval _ w _ Htrs)).
    rewrite (proj2 (isArray_nonempty (JS.Arr ltr))) by eauto.
    reflexivity.
Qed.

Lemma validateBasicStructure_returns_iff_witness :
  basicStructure (toJSON surplusConfig) /\ ~ basicStructure (toJSON noTiersConfig).
Proof.
  split.
  - apply (proj1 (validateBasicStructure_returns_iff (toJSON surplusConfig) newWorld)).
    vm_compute. reflexivity.
  - intros H. apply (proj2 (validateBasicStructure_returns_iff (toJSON noTiersConfig) newWorld)) in H.
    vm_compute in H. discriminate.
Defined.

(** ** The population never exceeds the quotas *)

Lemma fold_left_add_nonneg {A} (f : A -> Z) (l : list A) :
  Forall (fun x => 0 <= f x) l -> forall acc, acc <= fold_left (fun sum x => sum + f x) l acc.
Proof.
  induction 1 as [|x rest Hx _ IH]; intros acc; simpl; [lia|].
  specialize (IH (acc + f x)). lia.
Qed.

Lemma sumZ_nonneg (l : list Z) : Forall (fun x => 0 <= x) l -> 0 <= sumZ l.
Proof. induction 1 as [|x rest Hx _ IH]; unfold sumZ in *; simpl; lia. Qed.

Lemma nonNegative_sums (w : World) : nonNegative w -> 0 <= tierSum w /\ 0 <= variantSum w.
Proof.
  intros [Ht Hv]. unfold tierSum, variantSum. split.
  - destruct (remainingTierQuotas (this w)) as [rt|]; [|lia].
    unfold totalRemainingOf. apply fold_left_add_nonneg, Ht. reflexivity.
  - destruct (remainingVariantQuotas (this w)) as [rv|]; [|lia].
    unfold totalVariantsOf. apply sumZ_nonneg.
    specialize (Hv rv eq_refl). induction Hv as [|t rest Hx _ IH]; simpl; constructor.
    + apply sumZ_nonneg. induction Hx; simpl; constructor; assumption.
    + exact IH.
Qed.

(** With distinct tier ids and variant names and no negative quota, a loaded
    engine never produces more than its quotas allow: over any sequence of
    [generateNFT] calls the number of successful results is at most the sum
    of the tier counters the sequence started from, and that number times
    the number of categories is at most the sum of the variant counters. *)
Theorem successes_within_quota
    (c : Config) (ceilings : list Z) (w w' : World) (results : list GenerationResult) :
  distinctKeys c ->
  Forall (fun tier => 0 <= tier_quota tier) (tiers c) ->
  Forall (fun trait => Forall (fun v => 0 <= variant_quota v) (trait_variants trait))
         (traits c) ->
  reachable c w ->
  generateAll ceilings w = (inr results, w') ->
  successes results <= tierSum w
  /\ successes results * Z.of_nat (length (traits c)) <= variantSum w.
Proof.
  intros Hdist Ht Hv Hreach Hall.
  destruct (generateAll_counts c ceilings w Hreach) as (results' & w'' & Hall' & Hreach' & Hts & Hvs).
  rewrite Hall in Hall'. injection Hall' as <- <-.
  destruct (nonNegative_sums w' (reachable_nonNegative c w' Hdist Ht Hv Hreach')) as [H1 H2].
  lia.
Qed.

Lemma successes_within_quota_witness :
  let w := loaded surplusConfig in
  exists results w',
    reachable surplusConfig w
    /\ generateAll [100; 3; 3] w = (inr results, w')
    /\ tierSum w = 1
    /\ successes results <= 1.
Proof.
  intros w.
  assert (Hdist : distinctKeys surplusConfig).
  { split; apply (bool_decide_unpack _); vm_compute; exact I. }
  assert (Hreach : reachable surplusConfig w)
    by (apply loaded_reachable; vm_compute; reflexivity).
  destruct (generateAll_counts surplusConfig [100; 3; 3] w Hreach)
    as (results & w' & Hall & _).
  assert (Hsum : tierSum w = 1) by (vm_compute; reflexivity).
  exists results, w'. split; [exact Hreach|]. split; [exact Hall|]. split; [exact Hsum|].
  rewrite <- Hsum.
  apply (successes_within_quota surplusConfig [100; 3; 3] w w' results); try assumption.
  - apply (bool_decide_unpack _). vm_compute. exact I.
  - apply (bool_decide_unpack _). vm_compute. exact I.
Defined.

(** ** The generator never merges two states *)

(** On seeds in the range the generator keeps them in, the step of
    [seededRandom] is one to one: two engines whose seeds differ draw
    different numbers and have different seeds afterwards. *)
Theorem seededRandom_injective (w1 w2 : World) :
  0 <= rngSeed (this w1) < 233280 ->
  0 <= rngSeed (this w2) < 233280 ->
  fst (seededRandom w1) = fst (seededRandom w2)
  \/ rngSeed (this (snd (seededRandom w1))) = rngSeed (this (snd (seededRandom w2))) ->
  rngSeed (this w1) = rngSeed (this w2).
Proof.
  intros H1 H2 H.
  assert (Hnext : nextSeed (rngSeed (this w1)) = nextSeed (rngSeed (this w2))).
  { destruct H as [H|H].
    - unfold seededRandom, gets, modify, bind, ret in H. simpl in H. congruence.
    - exact H. }
  unfold nextSeed in Hnext.
  rewrite !Z.rem_mod_nonneg in Hnext by lia.
  set (a := rngSeed (this w1)) in *. set (b := rngSeed (this w2)) in *.
  assert (Hdiv : (233280 | 9301 * (a - b))).
  { apply Z.mod_divide; [lia|].
    replace (9301 * (a - b)) with ((a * 9301 + 49297) - (b * 9301 + 49297)) by lia.
    rewrite Zminus_mod, Hnext, Z.sub_diag. reflexivity. }
  apply Z.gauss in Hdiv.
  - destruct Hdiv as [k Hk]. clear Hnext H. clearbody a b. lia.
  - reflexivity.
Qed.

Lemma seededRandom_injective_witness :
  rngSeed (this newWorld) = rngSeed (this (loaded surplusConfig)).
Proof.
  apply seededRandom_injective.
  - vm_compute. split; [discriminate | reflexivity].
  - vm_compute. split; [discriminate | reflexivity].
  - right. vm_compute. reflexivity.
Defined.

(** ** Which entry a lookup map keeps *)

Lemma setTierIndexes_app (l1 l2 : list Tier) (index : nat) (m : gmap string nat) :
  setTierIndexes (l1 ++ l2) index m
  = setTierIndexes l2 (index + length l1) (setTierIndexes l1 index m).
Proof.
  revert index m. induction l1 as [|x rest IH]; intros index m; simpl.
  - rewrite Nat.add_0_r. reflexivity.
  - rewrite IH. f_equal. lia.
Qed.

Lemma setVariantIndexes_app (l1 l2 : list Trait) (index : nat) (m : gmap string nat) :
  setVariantIndexes (l1 ++ l2) index m
  = setVariantIndexes l2 (index + length l1) (setVariantIndexes l1 index m).
Proof.
  revert index m. induction l1 as [|x rest IH]; intros index m; simpl.
  - rewrite Nat.add_0_r. reflexivity.
  - rewrite IH. f_equal. lia.
Qed.

(** [buildLookupMaps] keeps, for a key that occurs several times, the last
    occurrence: after [loadConfig] a tier id is mapped to the position of
    the last tier that carries it, and a variant name to the position of
    the last category that lists it. *)
Theorem buildLookupMaps_last_wins (c : Config) (w0 w : World) :
  loadConfig c w0 = (inr tt, w) ->
  (forall before tier after,
      tiers c = before ++ tier :: after ->
      ~ List.In (tier_id tier) (map tier_id after) ->
      tierIdToIndex (this w) !! tier_id tier = Some (length before))
  /\ (forall before trait after v,
        traits c = before ++ trait :: after ->
        List.In v (trait_variants trait) ->
        ~ List.In (variant_name v) (allNames after) ->
        variantNameToTraitIndex (this w) !! variant_name v = Some (length before)).
Proof.
  intros H. apply loadConfig_inv in H. destruct H as (_ & _ & _ & _ & Hti & Hvi). split.
  - intros before tier after Heq Hlast. rewrite Hti, Heq, setTierIndexes_app. simpl.
    rewrite setTierIndexes_other by exact Hlast. apply lookup_insert_eq.
  - intros before trait after v Heq Hin Hlast.
    rewrite Hvi, Heq, setVariantIndexes_app. simpl.
    rewrite setVariantIndexes_other by exact Hlast.
    apply setNames_lookup, List.in_map, Hin.
Qed.

Lemma buildLookupMaps_last_wins_witness :
  exists v,
    List.In v (sampleVariants "V" "T5" 1 0)
    /\ variant_name v = "V0"
    /\ variantNameToTraitIndex (this (loaded sharedNamesConfig)) !! "V0" = Some 5%nat.
Proof.
  assert (Hwf : wellFormed sharedNamesConfig) by well_formed.
  assert (Hload : loadConfig sharedNamesConfig newWorld = (inr tt, loaded sharedNamesConfig)).
  { destruct (loadConfig_returns sharedNamesConfig newWorld Hwf) as [w' H'].
    unfold loaded. rewrite H'. reflexivity. }
  destruct (buildLookupMaps_last_wins sharedNamesConfig newWorld _ Hload) as [_ Hv].
  exists {| variant_name := "V0"; variant_tier := "T5"; variant_points := 25; variant_quota := 1 |}.
  split; [left; reflexivity|]. split; [reflexivity|].
  pose proof (Hv (firstn 5 (traits sharedNamesConfig))
                 {| trait_trait := "hat"; trait_variants := sampleVariants "V" "T5" 1 0 |} []
                 {| variant_name := "V0"; variant_tier := "T5"; variant_points := 25;
                    variant_quota := 1 |}) as H.
  assert (Hlen : length (firstn 5 (traits sharedNamesConfig)) = 5%nat)
    by (vm_compute; reflexivity).
  rewrite Hlen in H. apply H.
  - vm_compute. reflexivity.
  - left. reflexivity.
  - intros [].
Defined.

(** ** [MetadataGenerator] *)

Lemma generateNFT_loop_committed (fuel : nat) (maxRetries : Z) :
  forall (attempts : Z) (w w' : World) tierId tierName score variants n,
  generateNFT_loop fuel maxRetries attempts w
  = (inr (Success tierId tierName score variants n), w') ->
  exists attempts' w1,
    attempt attempts' w1 = (inr (Some (Success tierId tierName score variants n)), w').
Proof.
  induction fuel as [|fuel IH]; intros attempts w w' tierId tierName score variants n;
    cbn [generateNFT_loop].
  - discriminate.
  - destruct (attempts <? maxRetries); [|discriminate].
    unfold bind. rewrite iteration_eval.
    destruct (attempt attempts w) as [[e|[r|]] w1] eqn:Hattempt.
    + apply IH.
    + intros [= -> ->]. eauto.
    + apply IH.
Qed.

(** The score [MetadataGenerator.calculateOverallScore] recomputes from a
    successful result of [generateNFT] is the score the engine put in the
    result, whatever the state of the engine; on a failed result, which has
    no variants, it throws. *)
Theorem calculateOverallScore_agrees (maxRetries : Z) (w w' : World) (result : GenerationResult) :
  generateNFT maxRetries w = (inr result, w') ->
  match result with
  | Success _ _ score _ _ => calculateOverallScore result = inr score
  | Failure _ _ => calculateOverallScore result = inl TypeError
  end.
Proof.
  intros H. destruct result as [tierId tierName score variants n|error n]; [|reflexivity].
  apply generateNFT_loop_committed in H. destruct H as (attempts' & w1 & H).
  apply attempt_some in H.
  destruct H as (t & sel & info & w2 & w3 & w4 & w5 & _ & _ & _ & _ & _ & Heq).
  injection Heq as -> -> -> -> _. reflexivity.
Qed.

Lemma calculateOverallScore_agrees_witness :
  exists result w',
    generateNFT 100 (loaded surplusConfig) = (inr result, w')
    /\ isSuccess result = true
    /\ calculateOverallScore result = inr 150.
Proof.
  destruct (generateNFT 100 (loaded surplusConfig)) as [[e|result] w'] eqn:Hgen.
  - exfalso. assert (H : fst (generateNFT 100 (loaded surplusConfig)) = inl e)
      by (rewrite Hgen; reflexivity).
    vm_compute in H. discriminate.
  - assert (H : isSuccess result = true /\ match result with
                                           | Success _ _ score _ _ => score = 150
                                           | Failure _ _ => False
                                           end).
    { assert (Hfst : fst (generateNFT 100 (loaded surplusConfig)) = inr result)
        by (rewrite Hgen; reflexivity).
      vm_compute in Hfst. injection Hfst as <-. split; reflexivity. }
    exists result, w'. split; [reflexivity|]. split; [apply H|].
    pose proof (calculateOverallScore_agrees 100 (loaded surplusConfig) w' result Hgen) as Hs.
    destruct result; [|destruct H as [_ []]]. destruct H as [_ ->]. exact Hs.
Defined.

Lemma pushIf_nil (cond : bool) (line : string) (errors : list string) :
  pushIf cond line errors = [] -> cond = false /\ errors = [].
Proof.
  unfold pushIf. destruct cond; intros H; [|auto].
  apply app_eq_nil in H. destruct H as [_ H]. discriminate.
Qed.

Ltac no_errors H :=
  repeat match type of H with
         | inr _ = inr _ => injection H as H
         | pushIf _ _ _ = [] =>
             apply pushIf_nil in H; let c := fresh "Hc" in
             destruct H as [c H]; try (simpl in c; discriminate c)
         | _ ++ [_] = [] => apply app_eq_nil in H; destruct H as [_ H]; discriminate H
         end.

Lemma validateAttribute_nil (attr : JS.Value) (index : nat) (errors : list string) :
  validateAttribute attr index errors = inr [] -> errors = [] /\ attributeOk attr.
Proof.
  unfold validateAttribute.
  destruct (JS.prop attr "trait_type") as [e|trait_type] eqn:Htype; [discriminate|].
  destruct (JS.prop attr "value") as [e|value] eqn:Hvalue; [discriminate|].
  intros [= H]. apply pushIf_nil in H. destruct H as [Hundef H].
  apply pushIf_nil in H. destruct H as [Htruthy ->].
  split; [reflexivity|]. exists trait_type, value.
  apply negb_false_iff in Htruthy.
  split; [exact Htype|]. split; [exact Htruthy|]. split; [exact Hvalue|].
  intros ->. discriminate.
Qed.

Lemma validateAttributes_nil (l : list JS.Value) :
  forall index errors,
  validateAttributes l index errors = inr [] -> errors = [] /\ Forall attributeOk l.
Proof.
  induction l as [|attr rest IH]; intros index errors; cbn [validateAttributes].
  - intros [= ->]. split; [reflexivity | constructor].
  - destruct (validateAttribute attr index errors) as [e|errors'] eqn:Hattr; [discriminate|].
    intros H. apply IH in H. destruct H as [-> Hrest].
    apply validateAttribute_nil in Hattr. destruct Hattr as [-> Hok].
    split; [reflexivity | constructor; assumption].
Qed.

Lemma validateAttributes_ok (l : list JS.Value) :
  Forall attributeOk l ->
  forall index errors, validateAttributes l index errors = inr errors.
Proof.
  induction 1 as [|attr rest Hattr _ IH]; intros index errors; cbn [validateAttributes];
    [reflexivity|].
  destruct Hattr as (trait_type & value & Htype & Htruthy & Hvalue & Hdef).
  unfold validateAttribute. rewrite Htype, Hvalue, Htruthy.
  destruct value; try contradiction; simpl; apply IH.
Qed.

Lemma startsWith_nonempty (image : string) :
  startsWith image "ipfs://" = true \/ startsWith image "http" = true ->
  JS.truthy (JS.Str image) = true.
Proof. destruct image; [intros [H|H]; discriminate | reflexivity]. Qed.

Lemma length_eqb_nil {A} (l : list A) : Nat.eqb (length l) 0 = true -> l = [].
Proof. destruct l; [reflexivity | discriminate]. Qed.

(** [validateMetadata] answers [valid: true] exactly on the documents with a
    truthy [name] and [description], a string [image] that starts with
    [ipfs://] or [http], and an array [attributes] whose entries all have a
    truthy [trait_type] and a [value] other than [undefined]; the error list
    is then empty. *)
Theorem validateMetadata_valid_iff (metadata : JS.Value) :
  ((exists errors, validateMetadata metadata = inr (true, errors)) <-> metadataOk metadata)
  /\ (forall errors, validateMetadata metadata = inr (true, errors) -> errors = []).
Proof.
  assert (Hnil : forall errors, validateMetadata metadata = inr (true, errors) -> errors = []).
  { unfold validateMetadata. intros errors.
    destruct (JS.prop metadata "name"); [discriminate|].
    destruct (JS.prop metadata "description"); [discriminate|].
    destruct (JS.prop metadata "image") as [|image]; [discriminate|].
    destruct (JS.prop metadata "attributes") as [|attributes]; [discriminate|].
    cbv zeta.
    match goal with |- match ?a with _ => _ end = _ -> _ => destruct a as [|e1]; [discriminate|] end.
    match goal with |- match ?a with _ => _ end = _ -> _ => destruct a as [|e2]; [discriminate|] end.
    intros [= Hlen <-]. apply length_eqb_nil, Hlen. }
  split; [|exact Hnil]. split.
  - intros [errors H]. pose proof (Hnil errors H) as ->. revert H.
    unfold validateMetadata.
    destruct (JS.prop metadata "name") as [|name] eqn:Hname; [discriminate|].
    destruct (JS.prop metadata "description") as [|description] eqn:Hdesc; [discriminate|].
    destruct (JS.prop metadata "image") as [|image] eqn:Himage; [discriminate|].
    destruct (JS.prop metadata "attributes") as [|attributes] eqn:Hattrs; [discriminate|].
    cbv zeta.
    match goal with |- match ?a with _ => _ end = _ -> _ =>
      destruct a as [|e1] eqn:Himg; [discriminate|] end.
    match goal with |- match ?a with _ => _ end = _ -> _ =>
      destruct a as [|e2] eqn:Hatt; [discriminate|] end.
    intros [= Hlen ->].
    assert (He1 : e1 = [] /\ exists l, attributes = JS.Arr l /\ Forall attributeOk l).
    { destruct (JS.truthy attributes) eqn:Ta.
      - destruct attributes; try discriminate.
        apply validateAttributes_nil in Hatt. destruct Hatt as [-> Hall]. eauto.
      - injection Hatt as ->. exfalso.
        destruct (JS.truthy image); [destruct image as [| | | |s| |]; try discriminate|];
          destruct (JS.truthy name), (JS.truthy description);
          try destruct (startsWith s "ipfs://"), (startsWith s "http");
          simpl in Himg; discriminate Himg. }
    destruct He1 as [-> (l & -> & Hall)].
    destruct (JS.truthy image) eqn:Ti.
    + destruct image as [| | | |s| |]; try discriminate.
      exists name, description, s, l.
      destruct (JS.truthy name), (JS.truthy description),
        (startsWith s "ipfs://"), (startsWith s "http");
        simpl in Himg; try discriminate Himg; tauto.
    + exfalso. destruct (JS.truthy name), (JS.truthy description);
        simpl in Himg; discriminate Himg.
  - intros (name & description & image & attributes
            & Hname & Tn & Hdesc & Td & Himage & Hprefix & Hattrs & Hall).
    exists []. unfold validateMetadata.
    rewrite Hname, Hdesc, Himage, Hattrs, Tn, Td, (startsWith_nonempty image Hprefix).
    cbn [JS.truthy isArray negb orb pushIf].
    assert (Hp : negb (startsWith image "ipfs://") && negb (startsWith image "http") = false).
    { destruct Hprefix as [->| ->]; [reflexivity|].
      destruct (startsWith image "ipfs://"); reflexivity. }
    rewrite Hp. cbn [pushIf]. rewrite (validateAttributes_ok attributes Hall). reflexivity.
Qed.

Lemma validateMetadata_valid_iff_witness :
  metadataOk sampleMetadata /\ ~ metadataOk stringAttributesMetadata.
Proof.
  split.
  - apply (proj1 (proj1 (validateMetadata_valid_iff sampleMetadata))).
    exists []. vm_compute. reflexivity.
  - intros H. apply (proj2 (proj1 (validateMetadata_valid_iff stringAttributesMetadata))) in H.
    destruct H as [errors H]. vm_compute in H. discriminate.
Defined.

(** When [attributes] is truthy and not an array, [validateMetadata] does
    not report it: the call of [forEach] on it throws, and the message about
    attributes that must be an array is lost with the other errors. *)
Theorem validateMetadata_non_array_attributes (metadata attributes : JS.Value) :
  JS.prop metadata "attributes" = inr attributes ->
  JS.truthy attributes = true ->
  isArray attributes = false ->
  validateMetadata metadata = inl TypeError.
Proof.
  intros Hattrs Ta Hnot.
  assert (Hobj : exists fields, metadata = JS.Obj fields).
  { destruct metadata; simpl in Hattrs; try discriminate;
      try (injection Hattrs as <-; discriminate); eauto. }
  destruct Hobj as [fields ->]. unfold validateMetadata. simpl JS.prop in *.
  injection Hattrs as Hattrs. rewrite Hattrs, Ta. cbv zeta.
  destruct (JS.truthy (JS.assoc "image" fields));
    [destruct (JS.assoc "image" fields)|]; try reflexivity;
    destruct attributes; try discriminate; reflexivity.
Qed.

Lemma validateMetadata_non_array_attributes_witness :
  validateMetadata stringAttributesMetadata = inl TypeError
  /\ validateMetadata sampleMetadata = inr (true, []).
Proof.
  split.
  - apply (validateMetadata_non_array_attributes stringAttributesMetadata (JS.Str "Socks"));
      reflexivity.
  - vm_compute. reflexivity.
Defined.
